(** * crypto-telegram-bot: token resolution, caching and rate governing

    A shallow embedding of the core of the bot: the per-chat token-bucket
    limiter ([src/middleware/rateLimiter.ts]), the in-memory TTL cache
    ([utils/cache]), the one-shot callback store ([utils/cbStore]), the
    DexScreener and CoinGecko clients ([src/services]) and the contract
    resolver ([services/resolver]).

    Conventions of the embedding:
    - [Date.now()] is an explicit argument [now : Z] (milliseconds);
    - a JS [Map] is a [gmap]; mutation of an object held in a [Map] is an
      insert of the updated record under the same key;
    - a value that may be [undefined]/[null] is an [option];
    - a call that may throw (a rejected promise) returns a sum
      [Err + A]; [await] is sequencing;
    - a character outside ASCII stands in a string as the bytes of its
      UTF-8 encoding: white space ([trim], [\s]) is recognised on one, two
      or three bytes; the case mappings are computed on ASCII strings and
      are a parameter of the development elsewhere. *)

From Stdlib Require Import ZArith QArith Lia Lqa List Ascii String Floats Uint63.
From stdpp Require Import base decidable option list gmap strings pretty sorting.

Local Open Scope Z_scope.

(** ** The rate limiter ([src/middleware/rateLimiter.ts]) *)
Module RateLimiter.

(** [type Bucket = { tokens: number; last: number; lastHit: number }] *)
Record Bucket := mkBucket { tokens : Z; last : Z; lastHit : Z }.

Definition CAPACITY : Z := 5.
Definition REFILL_MS : Z := 6000.
Definition MIN_GAP_MS : Z := 900.

(** What the middleware does with the update: [next()], or one of the two
    replies.  [TooMany secs] carries the [secs] of the reply text. *)
Inductive Outcome :=
| Next
| SlowDown
| TooMany (secs : Z).

#[export] Instance Outcome_eq_dec : EqDecision Outcome.
Proof. solve_decision. Defined.

(** [Math.ceil(x / 1000)] on an integer [x]. *)
Definition ceil_div (x d : Z) : Z := - ((- x) / d).

(** The "refill" block: [elapsed], [add], the capped sum and the move of
    [b.last], which happens only when a whole token was added. *)
Definition refill (now : Z) (b : Bucket) : Bucket :=
  let elapsed := now - last b in
  if 0 <? elapsed then
    let add := elapsed / REFILL_MS in
    if 0 <? add then
      {| tokens := Z.min CAPACITY (tokens b + add);
         last := now;
         lastHit := lastHit b |}
    else b
  else b.

(** The bucket the call works on: the stored one, or a full one created
    (and stored) at [now]. *)
Definition bucketOf (now : Z) (cid : Z) (buckets : gmap Z Bucket) : Bucket :=
  match buckets !! cid with
  | Some b => b
  | None => {| tokens := CAPACITY; last := now; lastHit := 0 |}
  end.

(** The gap check, the exhaustion check and the consumption, on the
    bucket [b] of the chat after its refill. *)
Definition admission (now : Z) (b0 : Bucket) : Outcome * Bucket :=
  let b := refill now b0 in
  if now - lastHit b <? MIN_GAP_MS then (SlowDown, b)
  else if tokens b <=? 0 then
    let secs :=
      ceil_div (REFILL_MS - Z.rem (now - last b) REFILL_MS) 1000 in
    (TooMany secs, b)
  else
    (Next, {| tokens := tokens b - 1; last := last b; lastHit := now |}).

(** [rateLimiter]: [chatId] is [ctx.chat?.id]; [!chatId] holds for a
    missing chat and for the id [0].  The bucket object is mutated in
    place, so the map holds the refilled bucket also after a denial. *)
Definition rateLimiter (now : Z) (chatId : option Z) (buckets : gmap Z Bucket)
  : Outcome * gmap Z Bucket :=
  match chatId with
  | None => (Next, buckets)
  | Some cid =>
    if decide (cid = 0) then (Next, buckets)
    else
      let '(o, b) := admission now (bucketOf now cid buckets) in
      (o, <[cid := b]> buckets)
  end.

(** A run of the middleware over a sequence of updates [(now, chatId)]. *)
Fixpoint run (calls : list (Z * option Z)) (buckets : gmap Z Bucket)
  : list Outcome * gmap Z Bucket :=
  match calls with
  | [] => ([], buckets)
  | (now, chatId) :: rest =>
    let '(o, buckets') := rateLimiter now chatId buckets in
    let '(os, buckets'') := run rest buckets' in
    (o :: os, buckets'')
  end.

(** The updates of one chat at the given instants. *)
Definition at_times (cid : Z) (ts : list Z) : list (Z * option Z) :=
  map (fun t => (t, Some cid)) ts.

(** The outcomes of successive calls of one chat, followed on its bucket. *)
Fixpoint admissions (ts : list Z) (b : Bucket) : list Outcome :=
  match ts with
  | [] => []
  | t :: rest => let '(o, b') := admission t b in o :: admissions rest b'
  end.

Definition bucket_ok (b : Bucket) : Prop := 0 <= tokens b <= CAPACITY.

Definition buckets_ok (buckets : gmap Z Bucket) : Prop :=
  forall k b, buckets !! k = Some b -> bucket_ok b.

End RateLimiter.

(** ** JavaScript helpers shared by the services *)
Module JS.

(** A string stands for the program's string written in UTF-8: a
    character below 128 is the byte of its code, and every byte of another
    character is 128 or more.  The tests and patterns of the program that
    name ASCII characters read the same on the bytes. *)

Definition isAsciiChar (c : ascii) : bool := (nat_of_ascii c <? 128)%nat.

Fixpoint isAsciiString (s : string) : bool :=
  match s with
  | EmptyString => true
  | String c s' => isAsciiChar c && isAsciiString s'
  end.

Definition isUpperChar (c : ascii) : bool :=
  let n := nat_of_ascii c in ((65 <=? n) && (n <=? 90))%nat.

Definition isLowerChar (c : ascii) : bool :=
  let n := nat_of_ascii c in ((97 <=? n) && (n <=? 122))%nat.

Definition toLowerChar (c : ascii) : ascii :=
  if isUpperChar c then ascii_of_nat (nat_of_ascii c + 32) else c.

Definition toUpperChar (c : ascii) : ascii :=
  if isLowerChar c then ascii_of_nat (nat_of_ascii c - 32) else c.

(** The case mappings on ASCII text: letter by letter. *)
Fixpoint asciiLowerCase (s : string) : string :=
  match s with
  | EmptyString => EmptyString
  | String c s' => String (toLowerChar c) (asciiLowerCase s')
  end.

Fixpoint asciiUpperCase (s : string) : string :=
  match s with
  | EmptyString => EmptyString
  | String c s' => String (toUpperChar c) (asciiUpperCase s')
  end.

(** The case mappings of the engine on text with characters outside
    ASCII.  The Unicode tables are not part of the program: they are a
    parameter, of which one fact is used, that lower-casing leaves an ASCII
    end of the text where it is, lower-cased letter by letter (no ASCII
    character has a mapping that depends on what surrounds it). *)
Class CaseMapping := {
  unicodeLowerCase : string -> string;
  unicodeUpperCase : string -> string;
  unicodeLowerCase_suffix :
    forall a b : string,
      isAsciiString b = true ->
      exists a' : string,
        unicodeLowerCase (a ++ b) = (a' ++ asciiLowerCase b)%string
}.

Section Case.
Context {CM : CaseMapping}.

(** [s.toLowerCase()], [s.toUpperCase()] *)
Definition toLowerCase (s : string) : string :=
  if isAsciiString s then asciiLowerCase s else unicodeLowerCase s.

Definition toUpperCase (s : string) : string :=
  if isAsciiString s then asciiUpperCase s else unicodeUpperCase s.
End Case.

(** White space and line terminators, which [trim] strips and the class
    [\s] matches.  Below 128: TAB, LF, VT, FF, CR and SPACE. *)
Definition isAsciiSpace (c : ascii) : bool :=
  let n := nat_of_ascii c in (((9 <=? n) && (n <=? 13)) || (n =? 32))%nat.

(** U+00A0, the bytes C2 A0. *)
Definition isSpace2 (x y : ascii) : bool :=
  ((nat_of_ascii x =? 194) && (nat_of_ascii y =? 160))%nat.

(** The white space of three bytes: U+1680 (E1 9A 80), U+2000 to U+200A
    (E2 80 80 to E2 80 8A), U+2028, U+2029 and U+202F (E2 80 A8, A9, AF),
    U+205F (E2 81 9F), U+3000 (E3 80 80) and U+FEFF (EF BB BF). *)
Definition isSpace3 (x y z : ascii) : bool :=
  let a := nat_of_ascii x in
  let b := nat_of_ascii y in
  let c := nat_of_ascii z in
  (((a =? 225) && (b =? 154) && (c =? 128))
   || ((a =? 226) && (b =? 128)
       && (((128 <=? c) && (c <=? 138)) || (c =? 168) || (c =? 169) || (c =? 175)))
   || ((a =? 226) && (b =? 129) && (c =? 159))
   || ((a =? 227) && (b =? 128) && (c =? 128))
   || ((a =? 239) && (b =? 187) && (c =? 191)))%nat.

(** The tests on bytes met from the end of a text backwards. *)
Definition space2 (fromStart : bool) (x y : ascii) : bool :=
  if fromStart then isSpace2 x y else isSpace2 y x.

Definition space3 (fromStart : bool) (x y z : ascii) : bool :=
  if fromStart then isSpace3 x y z else isSpace3 z y x.

(** The text without the white space it starts with. *)
Fixpoint strip (fromStart : bool) (s : string) : string :=
  match s with
  | EmptyString => EmptyString
  | String x s1 =>
    if isAsciiSpace x then strip fromStart s1
    else
      match s1 with
      | EmptyString => s
      | String y s2 =>
        if space2 fromStart x y then strip fromStart s2
        else
          match s2 with
          | EmptyString => s
          | String z s3 =>
            if space3 fromStart x y z then strip fromStart s3 else s
          end
      end
  end.

Fixpoint reverse (s : string) : string :=
  match s with
  | EmptyString => EmptyString
  | String c s' => (reverse s' ++ String c EmptyString)%string
  end.

Definition trimStart (s : string) : string := strip true s.

(** The white space at the end is the white space the reversed text
    starts with, its bytes met backwards. *)
Definition trimEnd (s : string) : string := reverse (strip false (reverse s)).

(** [s.trim()] *)
Definition trim (s : string) : string := trimEnd (trimStart s).

(** Truthiness of an optional string: present and not empty. *)
Definition truthy (o : option string) : bool :=
  match o with
  | Some (String _ _) => true
  | _ => false
  end.

(** [xs.join(sep)] *)
Fixpoint join (sep : string) (xs : list string) : string :=
  match xs with
  | [] => EmptyString
  | [x] => x
  | x :: rest => x ++ sep ++ join sep rest
  end.

(** [Array.prototype.sort] with a comparator.  The sort is stable, and the
    comparators of this program are consistent (differences of keys), so
    the result is the stable sorted arrangement whatever the engine's
    algorithm.  [le a b] stands for [comparator(a, b) <= 0]. *)
Section Sort.
Context {A : Type} (le : A -> A -> bool).

Fixpoint insert_sorted (x : A) (l : list A) : list A :=
  match l with
  | [] => [x]
  | y :: l' => if le x y then x :: y :: l' else y :: insert_sorted x l'
  end.

Fixpoint sort (l : list A) : list A :=
  match l with
  | [] => []
  | x :: l' => insert_sorted x (sort l')
  end.

(** The first element is below every element: what [sorted[0]] relies
    on. *)
Definition head_least (l : list A) : Prop :=
  match l with
  | [] => True
  | h :: _ => Forall (fun x => le h x = true) l
  end.
End Sort.

(** The engine the examples run on: their texts are ASCII wherever a
    case mapping is applied, so its tables are never consulted. *)
Definition asciiCaseMapping : CaseMapping.
Proof.
  refine {| unicodeLowerCase := asciiLowerCase;
            unicodeUpperCase := asciiUpperCase |}.
  intros a b _. exists (asciiLowerCase a).
  induction a as [|x a IH]; [reflexivity|].
  change (String x a ++ b)%string with (String x (a ++ b)).
  simpl. rewrite IH. reflexivity.
Defined.

End JS.

(** ** Calls that may throw and change the state of the world *)
Module Eff.

(** A thrown value: an HTTP client error carries [response.status], an
    [Error] raised by the program does not. *)
Record Err := mkErr { status : option Z; message : string }.

(** An [async] function over a state [S]: the outcome (a throw or a
    value) and the state it leaves. *)
Definition M (S A : Type) : Type := S -> (Err + A) * S.

Definition ret {S A} (a : A) : M S A := fun s => (inr a, s).

Definition throw {S A} (e : Err) : M S A := fun s => (inl e, s).

Definition bind {S A B} (m : M S A) (k : A -> M S B) : M S B :=
  fun s =>
    match m s with
    | (inl e, s') => (inl e, s')
    | (inr a, s') => k a s'
    end.

(** [try { m } catch (e) { h e }] *)
Definition try_catch {S A} (m : M S A) (h : Err -> M S A) : M S A :=
  fun s =>
    match m s with
    | (inl e, s') => h e s'
    | (inr a, s') => (inr a, s')
    end.

Module Notations.
Notation "'await' x <- m ; k" := (bind m (fun x => k))
  (at level 10, x name, m at level 100, k at level 200, only parsing).
End Notations.

End Eff.

(** ** The TTL cache ([utils/cache], class [TTLCache]) *)
Module TTLCache.

Section WithValue.
(** [T | undefined]: [None] is [undefined]. *)
Context {T : Type}.

(** [type CacheEntry<T> = { value: T; expires: number }] *)
Record CacheEntry := mkEntry { value : option T; expires : Z }.

(** [get]: a missing key and an expired entry both give [undefined];
    the expired entry is deleted. *)
Definition get (key : string) (now : Z) (store : gmap string CacheEntry)
  : option T * gmap string CacheEntry :=
  match store !! key with
  | None => (None, store)
  | Some hit =>
    if expires hit <? now then (None, delete key store)
    else (value hit, store)
  end.

(** [set] *)
Definition set (key : string) (v : option T) (ttlMs : Z) (now : Z)
    (store : gmap string CacheEntry) : gmap string CacheEntry :=
  <[key := {| value := v; expires := now + ttlMs |}]> store.

(** [clear] *)
Definition clear (store : gmap string CacheEntry) : gmap string CacheEntry := ∅.

(** A read or a write by some other user of the cache. *)
Inductive Op :=
| OpGet (key : string) (now : Z)
| OpSet (key : string) (v : option T) (ttlMs : Z) (now : Z).

Definition applyOp (store : gmap string CacheEntry) (op : Op)
  : gmap string CacheEntry :=
  match op with
  | OpGet key now => (get key now store).2
  | OpSet key v ttlMs now => set key v ttlMs now store
  end.

Definition applyOps (ops : list Op) (store : gmap string CacheEntry)
  : gmap string CacheEntry :=
  fold_left applyOp ops store.

(** [op] leaves alone the entry of [key] that expires at [deadline]: it
    is no write to [key], and no read of [key] after [deadline]. *)
Definition keeps (key : string) (deadline : Z) (op : Op) : Prop :=
  match op with
  | OpGet key' now => key' <> key \/ now <= deadline
  | OpSet key' _ _ _ => key' <> key
  end.
End WithValue.

Arguments CacheEntry : clear implicits.
Arguments Op : clear implicits.

(** The cache object together with the rest of the world [W] (clock,
    network) that a producer may act on. *)
Record St (T W : Type) := mkSt {
  store : gmap string (CacheEntry T);
  world : W
}.
Arguments mkSt {T W}.
Arguments store {T W}.
Arguments world {T W}.

Section With.
Import Eff Eff.Notations.
Context {T W : Type}.
(** [Date.now()] *)
Variable Date_now : W -> Z.

Definition getM (key : string) : M (St T W) (option T) :=
  fun s =>
    let '(r, store') := get key (Date_now (world s)) (store s) in
    (inr r, mkSt store' (world s)).

Definition setM (key : string) (v : option T) (ttlMs : Z)
  : M (St T W) unit :=
  fun s =>
    (inr tt, mkSt (set key v ttlMs (Date_now (world s)) (store s)) (world s)).

(** The path of [with] after [cached !== undefined] has failed: run
    the producer, store what it resolves to, return it.  The clock is
    read again by [set] after the [await]. *)
Definition storeFresh (key : string) (fn : M (St T W) (option T)) (ttlMs : Z)
  : M (St T W) (option T) :=
  await fresh <- fn;
  await _ <- setM key fresh ttlMs;
  ret fresh.

(** [with]: the producer [fn] runs on the whole state. *)
Definition with_ (key : string) (fn : M (St T W) (option T)) (ttlMs : Z)
  : M (St T W) (option T) :=
  await cached <- getM key;
  match cached with
  | Some c => ret (Some c)
  | None => storeFresh key fn ttlMs
  end.

(** A call that acts on the world only, seen from the code that also
    holds the cache. *)
Definition liftW {A} (m : M W A) : M (St T W) A :=
  fun s =>
    let '(r, w') := m (world s) in (r, mkSt (store s) w').
End With.

Definition defaultTtlMs : Z := 30000.

(** [sharedCache = new TTLCache(45_000)] *)
Definition sharedCache_defaultTtlMs : Z := 45000.

End TTLCache.

(** ** The callback store ([utils/cbStore]) *)
Module CbStore.

Section WithValue.
Context {V : Type}.

(** The entries [{ v, exp }] of [store]. *)
Record Entry := mkEntry { v : V; exp : Z }.

Definition TTL_MS : Z := 5 * 60 * 1000.

(** [gc]: drop every entry with [exp < now]. *)
Definition gc (now : Z) (store : gmap string Entry) : gmap string Entry :=
  filter (fun kv => ¬ (exp kv.2 < now)) store.

Definition chars : string :=
  "abcdefghijklmnopqrstuvwxyzABCDEFGHIJKLMNOPQRSTUVWXYZ0123456789-_".

(** [randomId]: one character of [chars] per draw; a draw
    [Math.floor(Math.random() * chars.length)] is an index below 64,
    given here as a number reduced modulo 64. *)
Fixpoint randomId (draws : list nat) : string :=
  match draws with
  | [] => EmptyString
  | d :: rest =>
    match String.get (d mod 64)%nat chars with
    | Some c => String c (randomId rest)
    | None => randomId rest
    end
  end.

(** [putPayload]; [draws] are the (12) draws [randomId] makes. *)
Definition putPayload (value : V) (ttlMs : Z) (now : Z) (draws : list nat)
    (store : gmap string Entry) : string * gmap string Entry :=
  let store1 := gc now store in
  let id := randomId draws in
  (id, <[id := {| v := value; exp := now + ttlMs |}]> store1).

(** [takePayload]: [None] is the [null] of a miss. *)
Definition takePayload (id : string) (now : Z) (store : gmap string Entry)
  : option V * gmap string Entry :=
  let store1 := gc now store in
  match store1 !! id with
  | None => (None, store1)
  | Some hit => (Some (v hit), delete id store1)
  end.

(** A call by some other user of the store. *)
Inductive Op :=
| OpPut (value : V) (ttlMs : Z) (now : Z) (draws : list nat)
| OpTake (id : string) (now : Z).

Definition applyOp (store : gmap string Entry) (op : Op) : gmap string Entry :=
  match op with
  | OpPut value ttlMs now draws => (putPayload value ttlMs now draws store).2
  | OpTake id now => (takePayload id now store).2
  end.

Definition applyOps (ops : list Op) (store : gmap string Entry)
  : gmap string Entry :=
  fold_left applyOp ops store.

(** [op] draws another identifier than [id] when it stores. *)
Definition noClash (id : string) (op : Op) : Prop :=
  match op with
  | OpPut _ _ _ draws => randomId draws <> id
  | OpTake _ _ => True
  end.

(** [op] leaves alone the entry of [id] that expires at [deadline]: it
    happens no later than [deadline], stores under another identifier
    and takes another identifier. *)
Definition keeps (id : string) (deadline : Z) (op : Op) : Prop :=
  match op with
  | OpPut _ _ now draws => randomId draws <> id /\ now <= deadline
  | OpTake id' now => id' <> id /\ now <= deadline
  end.
End WithValue.

Arguments Entry : clear implicits.
Arguments Op : clear implicits.

End CbStore.

(** ** The DexScreener client ([src/services/dexscreener.ts]) *)
Module Dexscreener.
Import Eff Eff.Notations.

(** The fields of a pair as the services read them: every access in the
    code is guarded ([p?.baseToken?.address], [?? 0]), so every field may
    be missing.  A [null] element of the array behaves as a pair with
    every field missing.  Amounts in USD are rationals. *)
Record Token := mkToken {
  address : option string;
  name : option string;
  symbol : option string
}.

Record DexPair := mkPair {
  chainId : option string;
  dexId : option string;
  pairAddress : option string;
  baseToken : option Token;
  quoteToken : option Token;
  liquidity_usd : option Q;
  volume_h24 : option Q
}.

Section Client.
Context {W : Type}.
Variable Date_now : W -> Z.
(** [data?.pairs] of
    [GET https://api.dexscreener.com/latest/dex/pairs/{chainId}/{pairAddress}] *)
Variable http_get_pairs : string -> string -> M W (option (list DexPair)).

(** The producer of [getPairByChainAndAddress]:
    [(data?.pairs ?? [])[0]]. *)
Definition fetchPair (chainId pairAddress : string) : M W (option DexPair) :=
  await data <- http_get_pairs chainId pairAddress;
  ret (head (default [] data)).

Definition pairKey (chainId pairAddress : string) : string :=
  ("dex:pair:" ++ chainId ++ ":" ++ pairAddress)%string.

(** [getPairByChainAndAddress], on the part of [sharedCache] that holds
    pairs (the keys [dex:pair:...]). *)
Definition getPairByChainAndAddress (chainId pairAddress : string)
  : M (TTLCache.St DexPair W) (option DexPair) :=
  TTLCache.with_ Date_now (pairKey chainId pairAddress)
    (TTLCache.liftW (fetchPair chainId pairAddress)) 60000.
End Client.

End Dexscreener.

(** ** The CoinGecko client ([src/services/coingecko.ts]) *)
Module CoinGecko.
Import Eff Eff.Notations JS.

Record CoinInfo := mkCoinInfo {
  id : string;
  symbol : string;
  name : string;
  price : Q;
  marketCap : Q;
  volume24h : Q;
  liquidityScore : option Q
}.

(** An element of [search.coins]. *)
Record SearchCoin := mkSearchCoin {
  sc_id : string;
  sc_symbol : option string;
  sc_market_cap_rank : option Z
}.

(** An element of the [/coins/markets] response. *)
Record Market := mkMarket {
  m_id : string;
  m_symbol : option string;
  m_name : option string;
  m_current_price : option Q;
  m_market_cap : option Q;
  m_total_volume : option Q;
  m_market_cap_rank : option Z
}.

(** The fields read from the [/coins/{id}] response. *)
Record Full := mkFull {
  f_name : option string;
  f_current_price_usd : option Q;
  f_market_cap_usd : option Q;
  f_total_volume_usd : option Q;
  f_liquidity_score : option Q
}.

(** The rank a coin sorts by: [market_cap_rank ?? 1e9]. *)
Definition rankKey (r : option Z) : Z := default 1000000000 r.

(** [pickBestByMarketCap]: [filter(Boolean)], sort by rank, first. *)
Definition pickBestByMarketCap (coins : list (option Market)) : option Market :=
  head (sort
          (fun a b => rankKey (m_market_cap_rank a) - rankKey (m_market_cap_rank b) <=? 0)
          (omap (fun c => c) coins)).

Section Engine.
Context {CM : CaseMapping}.

(** [c?.symbol?.toLowerCase() === sym] *)
Definition isExact (sym : string) (c : SearchCoin) : bool :=
  match sc_symbol c with
  | Some s => bool_decide (toLowerCase s = sym)
  | None => false
  end.

(** [exact.length ? exact : coins] *)
Definition candidatesOf (sym : string) (coins : list SearchCoin) : list SearchCoin :=
  let exact := filter (fun c => isExact sym c = true) coins in
  match exact with
  | [] => coins
  | _ :: _ => exact
  end.

(** [candidates.slice(0, 5).map(c => c.id).join(',')] *)
Definition topIds (candidates : list SearchCoin) : string :=
  join "," (map sc_id (take 5 candidates)).

(** [e?.response?.status === 429 || (status && status >= 500)] *)
Definition retryable (e : Err) : bool :=
  match status e with
  | Some st => (st =? 429) || (negb (st =? 0) && (500 <=? st))
  | None => false
  end.

Section Client.
Context {W : Type}.
(** [search?.coins] of [GET /api/v3/search?query=] *)
Variable http_get_search : string -> M W (option (list SearchCoin)).
(** The array of [GET /api/v3/coins/markets?vs_currency=usd&ids=] *)
Variable http_get_markets : string -> M W (list (option Market)).
(** The body of [GET /api/v3/coins/{id}] *)
Variable http_get_coin : string -> M W (option Full).
(** [sleep(ms)] *)
Variable sleep : Z -> W -> W.

(** The record [doFetch] returns, from the winner and its profile. *)
Definition coinInfoOf (sym : string) (best : Market) (full : option Full) : CoinInfo :=
  {| id := m_id best;
     symbol := toUpperCase (default EmptyString (m_symbol best));
     name := default (default (toUpperCase sym) (full ≫= f_name)) (m_name best);
     price := default (default 0%Q (full ≫= f_current_price_usd)) (m_current_price best);
     marketCap := default (default 0%Q (full ≫= f_market_cap_usd)) (m_market_cap best);
     volume24h := default (default 0%Q (full ≫= f_total_volume_usd)) (m_total_volume best);
     liquidityScore := full ≫= f_liquidity_score |}.

(** [doFetch], from the markets response on. *)
Definition afterMarkets (sym : string) (markets : list (option Market))
  : M W CoinInfo :=
  match pickBestByMarketCap markets with
  | None =>
    throw (mkErr None ("No market data for $" ++ toUpperCase sym))
  | Some best =>
    await full <- http_get_coin (m_id best);
    ret (coinInfoOf sym best full)
  end.

(** [doFetch] *)
Definition doFetch (sym : string) : M W CoinInfo :=
  await search <- http_get_search sym;
  let coins := default [] search in
  let candidates := candidatesOf sym coins in
  match candidates with
  | [] =>
    throw (mkErr None
             ("Symbol $" ++ toUpperCase sym ++ " not found on CoinGecko"))
  | _ :: _ =>
    await markets <- http_get_markets (topIds candidates);
    afterMarkets sym markets
  end.

(** [fetchFromCoinGecko] *)
Definition fetchFromCoinGecko (sym : string) : M W CoinInfo :=
  try_catch (doFetch sym)
    (fun e =>
       if retryable e then
         fun w => doFetch sym (sleep 400 w)
       else throw e).
End Client.
End Engine.

End CoinGecko.

(** ** The contract resolver ([services/resolver]) *)
Module Resolver.
Import Eff Eff.Notations JS Dexscreener.

Definition GOOD_QUOTES : list string :=
  ["USDC"; "USDT"; "WETH"; "WBNB"; "BUSD"; "WBTC"]%string.

(** The members every object inherits from [Object.prototype]: a lookup
    [SPECIAL_MAP[q]] under one of these names finds the inherited member, a
    function or an object, which has no [address] and no [note]. *)
Definition inheritedNames : list string :=
  ["constructor"; "__defineGetter__"; "__defineSetter__"; "hasOwnProperty";
   "__lookupGetter__"; "__lookupSetter__"; "isPrototypeOf";
   "propertyIsEnumerable"; "toString"; "valueOf"; "__proto__";
   "toLocaleString"]%string.

(** What [SPECIAL_MAP[q]] finds: one of the two entries of the table, or
    an inherited member. *)
Inductive SpecialHit :=
| Entry (address note : string)
| Inherited.

(** [SPECIAL_MAP[q]]; [None] is [undefined]. *)
Definition SPECIAL_MAP (q : string) : option SpecialHit :=
  if String.eqb q "eth" then
    Some (Entry "0xC02aaA39b223FE8D0A0e5C4F27eAD9083C756Cc2" "Mapped to WETH (Ethereum)")
  else if String.eqb q "btc" then
    Some (Entry "0x2260FAC5E5542a773Aa44fBCfeDf7C193bc2C599" "Mapped to WBTC (Ethereum)")
  else if bool_decide (q ∈ inheritedNames) then Some Inherited
  else None.

Definition isHexChar (c : ascii) : bool :=
  let n := nat_of_ascii c in
  (((48 <=? n) && (n <=? 57)) || ((65 <=? n) && (n <=? 70))
   || ((97 <=? n) && (n <=? 102)))%nat.

Fixpoint allHex (s : string) : bool :=
  match s with
  | EmptyString => true
  | String c s' => isHexChar c && allHex s'
  end.

(** [isAddress]: the regular expression [/^0x[a-fA-F0-9]{40}$/]. *)
Definition isAddress (s : string) : bool :=
  match s with
  | String "0" (String "x" rest) =>
    (String.length rest =? 40)%nat && allHex rest
  | _ => false
  end.

(** [source: "dex" | "pair" | "coingecko" | "special"] *)
Inductive Source := dex | pair | coingecko | special.

(** The string each value of the union is. *)
Definition source_tag (src : Source) : string :=
  match src with
  | dex => "dex"
  | pair => "pair"
  | coingecko => "coingecko"
  | special => "special"
  end.

(** [ResolveResult]; the address is [undefined] in one case, that of an
    inherited member found in the table. *)
Record ResolveResult := mkResult {
  r_address : option string;
  r_source : Source;
  r_note : option string
}.

(** [p?.baseToken?.address] when it is an address. *)
Definition baseAddress (p : DexPair) : option string :=
  match baseToken p ≫= address with
  | Some a => if isAddress a then Some a else None
  | None => None
  end.

(** The predicate of [pairs.filter(...)]. *)
Definition hasAddr (p : DexPair) : bool := bool_decide (is_Some (baseAddress p)).

Section Engine.
Context {CM : CaseMapping}.

(** [GOOD_QUOTES.has((p?.quoteToken?.symbol || "").toUpperCase()) ? 1 : 0] *)
Definition goodQuote (p : DexPair) : bool :=
  bool_decide
    (toUpperCase (default EmptyString (quoteToken p ≫= symbol)) ∈ GOOD_QUOTES).

Definition quoteScore (p : DexPair) : Q := if goodQuote p then 1%Q else 0%Q.

(** [p?.liquidity?.usd ?? 0] *)
Definition liquidity (p : DexPair) : Q := default 0%Q (liquidity_usd p).

(** The comparator of [withAddr.sort]:
    [qb - qa || (liquidity b) - (liquidity a)]. *)
Definition comparePairs (a b : DexPair) : Q :=
  let d := (quoteScore b - quoteScore a)%Q in
  if Qeq_bool d 0 then (liquidity b - liquidity a)%Q else d.

(** [withAddr] after the sort. *)
Definition rankedWithAddr (pairs : list DexPair) : list DexPair :=
  sort (fun a b => Qle_bool (comparePairs a b) 0)
       (filter (fun p => hasAddr p = true) pairs).

(** The platforms scanned, in order. *)
Definition PLATFORMS : list string :=
  ["ethereum"; "bsc"; "polygon_pos"; "arbitrum_one"; "avalanche"; "base";
   "optimism"; "fantom"]%string.

(** [candidates.find(isAddress)] over the non-empty platform addresses. *)
Definition evmAddress (platforms : gmap string string) : option string :=
  List.find isAddress
    (List.filter (fun a => truthy (Some a))
       (omap (fun k => platforms !! k) PLATFORMS)).

(** An element of [search.coins], as far as the resolver reads it. *)
Record Coin := mkCoin { c_id : string; c_market_cap_rank : option Z }.

Definition compareCoins (a b : Coin) : Z :=
  default 1000000000 (c_market_cap_rank a)
  - default 1000000000 (c_market_cap_rank b).

Section Resolve.
(** The state the imported clients act on (cache, network). *)
Context {S : Type}.
(** [searchDexPairs] and [getPairByChainAndAddress] of the DexScreener
    client. *)
Variable searchDexPairs : string -> Z -> M S (list DexPair).
Variable getPairByChainAndAddress : string -> string -> M S (option DexPair).
(** [search?.coins] of [http.get(".../api/v3/search", {params: {query}})] *)
Variable http_get_search : string -> M S (option (list Coin)).
(** [full?.platforms] of [http.get(".../api/v3/coins/" + id)] *)
Variable http_get_coin : string -> M S (option (gmap string string)).

(** One round of the loop of stage 2: the [try] block with its empty
    [catch]; [Some addr] is the [return] from inside it. *)
Definition tryPairDetail (p : DexPair) : M S (option string) :=
  match pairAddress p, chainId p with
  | Some pa, Some ch =>
    if truthy (Some pa) && truthy (Some ch) then
      try_catch
        (await detail <- getPairByChainAndAddress ch pa;
         ret (detail ≫= baseAddress))
        (fun _ => ret None)
    else ret None
  | _, _ => ret None
  end.

(** [for (const p of pairs) ...] *)
Fixpoint pairDetailLoop (pairs : list DexPair) : M S (option ResolveResult) :=
  match pairs with
  | [] => ret None
  | p :: rest =>
    await found <- tryPairDetail p;
    match found with
    | Some addr => ret (Some (mkResult (Some addr) pair None))
    | None => pairDetailLoop rest
    end
  end.

(** Stage 3, the [try] block with its empty [catch]. *)
Definition coingeckoStage (q : string) : M S (option ResolveResult) :=
  try_catch
    (await search <- http_get_search q;
     let coins := default [] search in
     match sort (fun a b => compareCoins a b <=? 0) coins with
     | [] => ret None
     | top :: _ =>
       await platforms <- http_get_coin (c_id top);
       match evmAddress (default ∅ platforms) with
       | Some evm => ret (Some (mkResult (Some evm) coingecko None))
       | None => ret None
       end
     end)
    (fun _ => ret None).

(** [resolveContractFromQuery] *)
Definition resolveContractFromQuery (query : string)
  : M S (option ResolveResult) :=
  let q := toLowerCase (trim query) in
  if isAddress q then ret (Some (mkResult (Some q) dex None))
  else
    await pairs <- searchDexPairs q 8;
    match rankedWithAddr pairs with
    | best :: _ =>
      ret (Some (mkResult (baseToken best ≫= address) dex None))
    | [] =>
      await viaPair <- pairDetailLoop pairs;
      match viaPair with
      | Some r => ret (Some r)
      | None =>
        await viaCoinGecko <- coingeckoStage q;
        match viaCoinGecko with
        | Some r => ret (Some r)
        | None =>
          match SPECIAL_MAP q with
          | Some (Entry addr note) =>
            ret (Some (mkResult (Some addr) special (Some note)))
          | Some Inherited => ret (Some (mkResult None special None))
          | None => ret None
          end
        end
      end
    end.
End Resolve.
End Engine.

(** The pair-detail client never yields a usable base address: in every
    state it throws, finds no pair, or finds one without a valid base
    address. *)
Definition pairDetailBarren {S : Type}
    (getPairByChainAndAddress : string -> string -> M S (option DexPair)) : Prop :=
  forall chainId pairAddress s,
    match (getPairByChainAndAddress chainId pairAddress s).1 with
    | inl _ => True
    | inr detail => detail ≫= baseAddress = None
    end.

(** The aggregator never yields a usable address for [q]: in every state
    the search throws or lists no coin, or the profile request for the
    best-ranked coin throws or lists no valid address on the platforms
    scanned. *)
Definition aggregatorBarren {S : Type}
    (http_get_search : string -> M S (option (list Coin)))
    (http_get_coin : string -> M S (option (gmap string string)))
    (q : string) : Prop :=
  forall s,
    match http_get_search q s with
    | (inl _, _) => True
    | (inr search, s') =>
      match sort (fun a b => compareCoins a b <=? 0) (default [] search) with
      | [] => True
      | top :: _ =>
        match (http_get_coin (c_id top) s').1 with
        | inl _ => True
        | inr platforms => evmAddress (default ∅ platforms) = None
        end
      end
    end.

(** What a result of one of the first three stages looks like. *)
Definition foundBy (src : Source) (res : ResolveResult) : Prop :=
  (exists a, r_address res = Some a /\ isAddress a = true)
  /\ r_source res = src /\ r_note res = None.

(** Stub clients that record each call and answer from a script: the
    state is the list of calls made so far, most recent first. *)
Module Stub.
Inductive Call :=
| CallSearchDexPairs (q : string) (limit : Z)
| CallGetPair (chainId pairAddress : string)
| CallHttpSearch (q : string)
| CallHttpCoin (id : string).

Record Script := mkScript {
  onSearchDexPairs : list Call -> string -> Z -> Err + list DexPair;
  onGetPair : list Call -> string -> string -> Err + option DexPair;
  onHttpSearch : list Call -> string -> Err + option (list Coin);
  onHttpCoin : list Call -> string -> Err + option (gmap string string)
}.

Definition resolve {CM : CaseMapping} (sc : Script) (query : string)
  : M (list Call) (option ResolveResult) :=
  resolveContractFromQuery
    (fun q limit log =>
       (onSearchDexPairs sc log q limit, CallSearchDexPairs q limit :: log))
    (fun ch pa log => (onGetPair sc log ch pa, CallGetPair ch pa :: log))
    (fun q log => (onHttpSearch sc log q, CallHttpSearch q :: log))
    (fun id log => (onHttpCoin sc log id, CallHttpCoin id :: log))
    query.

Definition unavailable : Err := mkErr (Some 503) "upstream unavailable".

(** Every client throws. *)
Definition allFail : Script :=
  mkScript (fun _ _ _ => inl unavailable) (fun _ _ _ => inl unavailable)
           (fun _ _ => inl unavailable) (fun _ _ => inl unavailable).

(** The DEX search answers with [pairs]; every other client throws. *)
Definition searchOnly (pairs : list DexPair) : Script :=
  mkScript (fun _ _ _ => inr pairs) (fun _ _ _ => inl unavailable)
           (fun _ _ => inl unavailable) (fun _ _ => inl unavailable).
End Stub.

End Resolver.

(** ** Scripted upstreams used in the examples *)
Module Scenario.

(** An upstream that counts the searches it has received, answers the
    first with status 429 and the later ones with one coin, ranked 1 on the
    markets endpoint. *)
Definition flakySearch (sym : string) (n : nat)
  : (Eff.Err + option (list CoinGecko.SearchCoin)) * nat :=
  match n with
  | O => (inl (Eff.mkErr (Some 429) "Too Many Requests"), 1%nat)
  | Datatypes.S _ =>
    (inr (Some [CoinGecko.mkSearchCoin "bitcoin" (Some "btc") (Some 1)]),
     Datatypes.S n)
  end.

Definition steadyMarkets (ids : string) (n : nat)
  : (Eff.Err + list (option CoinGecko.Market)) * nat :=
  (inr [Some (CoinGecko.mkMarket "bitcoin" (Some "btc") (Some "Bitcoin")
                (Some 60000%Q) None None (Some 1))], n).

Definition steadyCoin (id : string) (n : nat)
  : (Eff.Err + option CoinGecko.Full) * nat :=
  (inr None, n).

(** Two entries of a markets response: one ranked 2 000 000 000, the
    other without a rank. *)
Definition rankedFar : CoinGecko.Market :=
  CoinGecko.mkMarket "x-ranked" (Some "x") None None None None (Some 2000000000).

Definition unranked : CoinGecko.Market :=
  CoinGecko.mkMarket "x-unranked" (Some "x") None None None None None.

(** The no-break space U+00A0, in UTF-8. *)
Definition nbsp : string := String "194" (String "160" EmptyString).

(** Two search results for one token: a pool against USDC with little
    liquidity, and a pool against an unknown token with much more. *)
Definition tokenAddr : string := "0x6982508145454Ce325dDbE47a25d4ec3d2311933".
Definition otherAddr : string := "0x1111111111111111111111111111111111111111".

Definition usdcPool : Dexscreener.DexPair :=
  Dexscreener.mkPair (Some "ethereum") (Some "uniswap") (Some "0xpool1")
    (Some (Dexscreener.mkToken (Some tokenAddr) (Some "Pepe") (Some "PEPE")))
    (Some (Dexscreener.mkToken None (Some "USD Coin") (Some "USDC")))
    (Some 10%Q) None.

Definition xyzPool : Dexscreener.DexPair :=
  Dexscreener.mkPair (Some "ethereum") (Some "uniswap") (Some "0xpool2")
    (Some (Dexscreener.mkToken (Some otherAddr) (Some "Pepe 2") (Some "PEPE")))
    (Some (Dexscreener.mkToken None (Some "Xyz") (Some "XYZ")))
    (Some 1000%Q) None.

End Scenario.

(** ** Per-chat settings ([state/settings], and the commands that write
    them in [src/bot/index.ts]) *)
Module Settings.
Import JS.

(** [type Settings = { defaultChain?: string; provider?: ProviderPref }];
    a missing key is [None].  A [Partial<Settings>] patch has the same
    shape. *)
Record Settings := mkSettings {
  defaultChain : option string;
  provider : option string
}.

(** [getSettings]: the stored record, or [{ provider: 'auto' }]. *)
Definition getSettings (chatId : Z) (store : gmap Z Settings) : Settings :=
  match store !! chatId with
  | Some s => s
  | None => {| defaultChain := None; provider := Some "auto"%string |}
  end.

(** [{ ...cur, ...patch }]: a key of the patch wins over the current one. *)
Definition merge (cur patch : Settings) : Settings :=
  {| defaultChain :=
       match defaultChain patch with Some c => Some c | None => defaultChain cur end;
     provider :=
       match provider patch with Some p => Some p | None => provider cur end |}.

(** [setSettings] *)
Definition setSettings (chatId : Z) (patch : Settings) (store : gmap Z Settings)
  : Settings * gmap Z Settings :=
  let cur := getSettings chatId store in
  let next := merge cur patch in
  (next, <[chatId := next]> store).

(** [text.split(/\s+/)]: the pieces between the runs of white space; a run
    at either end leaves an empty piece there.  [cur] is the piece being
    read, [inRun] tells that the previous character was white space.  A
    white space character has one, two or three bytes. *)
Fixpoint splitWs_go (cur : string) (inRun : bool) (s : string) : list string :=
  match s with
  | EmptyString => [cur]
  | String x s1 =>
    if isAsciiSpace x then
      if inRun then splitWs_go cur true s1
      else cur :: splitWs_go EmptyString true s1
    else
      match s1 with
      | EmptyString => splitWs_go (cur ++ String x EmptyString) false s1
      | String y s2 =>
        if isSpace2 x y then
          if inRun then splitWs_go cur true s2
          else cur :: splitWs_go EmptyString true s2
        else
          match s2 with
          | EmptyString => splitWs_go (cur ++ String x EmptyString) false s1
          | String z s3 =>
            if isSpace3 x y z then
              if inRun then splitWs_go cur true s3
              else cur :: splitWs_go EmptyString true s3
            else splitWs_go (cur ++ String x EmptyString) false s1
          end
      end
  end.

Definition splitWs (s : string) : list string := splitWs_go EmptyString false s.

Section Engine.
Context {CM : CaseMapping}.

(** [(ctx.message.text || "").split(/\s+/)[1]?.toLowerCase()] *)
Definition commandArg (text : string) : option string :=
  toLowerCase <$> (splitWs text !! 1%nat).

Definition CHAINS : list string :=
  ["ethereum"; "bsc"; "polygon"; "solana"; "base"; "arbitrum"; "optimism";
   "fantom"]%string.

Definition PROVIDERS : list string := ["auto"; "openai"; "gemini"]%string.

(** What a command answers: the usage text, or the confirmation with the
    value set. *)
Inductive Reply := Usage | Done (value : string).

(** [bot.command("setchain", ...)] *)
Definition setchain (chatId : Z) (text : string) (store : gmap Z Settings)
  : Reply * gmap Z Settings :=
  match commandArg text with
  | Some arg =>
    if truthy (Some arg) && bool_decide (arg ∈ CHAINS) then
      (Done arg, (setSettings chatId (mkSettings (Some arg) None) store).2)
    else (Usage, store)
  | None => (Usage, store)
  end.

(** [bot.command("provider", ...)] *)
Definition providerCommand (chatId : Z) (text : string) (store : gmap Z Settings)
  : Reply * gmap Z Settings :=
  match commandArg text with
  | Some arg =>
    if truthy (Some arg) && bool_decide (arg ∈ PROVIDERS) then
      (Done arg, (setSettings chatId (mkSettings None (Some arg)) store).2)
    else (Usage, store)
  | None => (Usage, store)
  end.

(** A command of either kind from some chat. *)
Inductive Command :=
| SetChain (chatId : Z) (text : string)
| Provider (chatId : Z) (text : string).

Definition runCommand (store : gmap Z Settings) (c : Command) : gmap Z Settings :=
  match c with
  | SetChain chatId text => (setchain chatId text store).2
  | Provider chatId text => (providerCommand chatId text store).2
  end.

Definition runCommands (cs : list Command) (store : gmap Z Settings)
  : gmap Z Settings :=
  fold_left runCommand cs store.

(** The command is a [/provider] of the chat [chatId] that names a
    provider of the list: one that sets the provider of that chat. *)
Definition setsProvider (chatId : Z) (c : Command) : bool :=
  match c with
  | Provider id text =>
    bool_decide (id = chatId)
    && match commandArg text with
       | Some arg => bool_decide (arg ∈ PROVIDERS)
       | None => false
       end
  | SetChain _ _ => false
  end.
End Engine.


(** The settings the commands can leave: a chain of the list or none, and
    a provider of the list. *)
Definition valid (s : Settings) : Prop :=
  (forall c, defaultChain s = Some c -> c ∈ CHAINS)
  /\ exists p, provider s = Some p /\ p ∈ PROVIDERS.

End Settings.

(** ** The DexScreener client: the calls that return lists of pairs
    ([src/services/dexscreener.ts], [searchDexPairs] and
    [getDexByContract]) *)
Module DexLists.
Import Eff Eff.Notations JS Dexscreener.

(** [p?.liquidity?.usd ?? 0], [p?.volume?.h24 ?? 0] *)
Definition liquidity (p : DexPair) : Q := default 0%Q (liquidity_usd p).
Definition volume (p : DexPair) : Q := default 0%Q (volume_h24 p).

(** The comparator of [searchDexPairs]:
    [(liquidity b - liquidity a) || (volume b - volume a)]. *)
Definition compareSearch (a b : DexPair) : Q :=
  let d := (liquidity b - liquidity a)%Q in
  if Qeq_bool d 0 then (volume b - volume a)%Q else d.

(** The order that comparator stands for: more liquidity first, and among
    equal liquidity more volume first. *)
Definition searchOrder (a b : DexPair) : Prop :=
  (liquidity b < liquidity a)%Q
  \/ ((liquidity b == liquidity a)%Q /\ (volume b <= volume a)%Q).

(** The comparator of [getDexByContract]. *)
Definition compareLiquidity (a b : DexPair) : Q :=
  (liquidity b - liquidity a)%Q.

(** [xs.slice(0, limit)]: a negative [limit] counts from the end. *)
Definition slice0 {A} (limit : Z) (xs : list A) : list A :=
  if limit <? 0 then take (length xs - Z.to_nat (- limit)) xs
  else take (Z.to_nat limit) xs.

Section Engine.
Context {CM : CaseMapping}.

Definition searchKey (query : string) (limit : Z) : string :=
  ("dex:search:" ++ toLowerCase query ++ ":" ++ pretty limit)%string.

Definition contractKey (contracts : string) : string :=
  ("dex:contract:" ++ toLowerCase contracts)%string.

Definition noPairs : Err :=
  mkErr None "No pairs found for that contract on Dexscreener".

Section Client.
Context {W : Type}.
Variable Date_now : W -> Z.
(** [data?.pairs] of
    [GET https://api.dexscreener.com/latest/dex/search?q=] *)
Variable http_get_search : string -> M W (option (list DexPair)).
(** [res.data?.pairs] of
    [GET https://api.dexscreener.com/latest/dex/tokens/{contracts}] *)
Variable http_get_tokens : string -> M W (option (list DexPair)).

(** The producer of [searchDexPairs]. *)
Definition fetchSearch (query : string) (limit : Z)
  : M W (option (list DexPair)) :=
  await data <- http_get_search query;
  ret (Some (slice0 limit
               (sort (fun a b => Qle_bool (compareSearch a b) 0)
                  (default [] data)))).

(** [searchDexPairs], on the part of [sharedCache] that holds lists of
    pairs.  The result is never [undefined]: [None] does not occur. *)
Definition searchDexPairs (query : string) (limit : Z)
  : M (TTLCache.St (list DexPair) W) (option (list DexPair)) :=
  TTLCache.with_ Date_now (searchKey query limit)
    (TTLCache.liftW (fetchSearch query limit)) 60000.

(** The producer of [getDexByContract]. *)
Definition fetchContract (contracts : string) : M W (option (list DexPair)) :=
  await data <- http_get_tokens contracts;
  match default [] data with
  | [] => throw noPairs
  | pairs => ret (Some (sort (fun a b => Qle_bool (compareLiquidity a b) 0) pairs))
  end.

(** [getDexByContract] *)
Definition getDexByContract (contracts : string)
  : M (TTLCache.St (list DexPair) W) (option (list DexPair)) :=
  TTLCache.with_ Date_now (contractKey contracts)
    (TTLCache.liftW (fetchContract contracts)) 45000.
End Client.
End Engine.

End DexLists.

(** ** The CoinGecko client behind its two caches
    ([src/services/coingecko.ts], [getCoinGeckoBySymbol]) *)
Module PriceCache.
Import Eff Eff.Notations JS CoinGecko.

Definition MEM_TTL_MS : Z := 45000.
Definition DB_TTL_SEC : Z := 45.

(** A row of the [priceCache] table, as far as it is read: the payload
    and [ttlAt], as milliseconds. *)
Record DbRow := mkDbRow { payload : CoinInfo; ttlAt : Z }.

Definition symbolKey (sym : string) : string := ("cg:symbol:" ++ sym)%string.

Section Client.
Context {CM : CaseMapping} {W : Type}.
Variable Date_now : W -> Z.
(** [prisma.priceCache.findUnique({ where: { key } })] *)
Variable findUnique : string -> M W (option DbRow).
(** [prisma.priceCache.upsert] of [key] with the payload and [ttlAt] *)
Variable upsert : string -> CoinInfo -> Z -> M W unit.
(** The requests and the sleep of [fetchFromCoinGecko]. *)
Variable http_get_search : string -> M W (option (list SearchCoin)).
Variable http_get_markets : string -> M W (list (option Market)).
Variable http_get_coin : string -> M W (option Full).
Variable sleep : Z -> W -> W.

Definition liveFetch (sym : string) : M W CoinInfo :=
  fetchFromCoinGecko http_get_search http_get_markets http_get_coin sleep sym.

(** Steps 3 and 4: the live fetch and the write-through to the table and
    to the memory cache. *)
Definition fetchAndStore (sym : string) : M (TTLCache.St CoinInfo W) CoinInfo :=
  let key := symbolKey sym in
  await value <- TTLCache.liftW (liveFetch sym);
  await ttlAt <-
    (fun s => (inr (Date_now (TTLCache.world s) + DB_TTL_SEC * 1000), s));
  await _ <- TTLCache.liftW (upsert key value ttlAt);
  await _ <- TTLCache.setM Date_now key (Some value) MEM_TTL_MS;
  ret value.

(** Steps 2 to 4, after the memory cache gave nothing.  [now] is read
    before the table is asked and compared with [ttlAt] after. *)
Definition fromTableOrLive (sym : string) : M (TTLCache.St CoinInfo W) CoinInfo :=
  let key := symbolKey sym in
  await now <- (fun s => (inr (Date_now (TTLCache.world s)), s));
  await dbRow <- TTLCache.liftW (findUnique key);
  match dbRow with
  | Some row =>
    if now <? ttlAt row then
      await _ <- TTLCache.setM Date_now key (Some (payload row)) MEM_TTL_MS;
      ret (payload row)
    else fetchAndStore sym
  | None => fetchAndStore sym
  end.

(** [getCoinGeckoBySymbol] *)
Definition getCoinGeckoBySymbol (symbol : string)
  : M (TTLCache.St CoinInfo W) CoinInfo :=
  let sym := toLowerCase (trim symbol) in
  await mem <- TTLCache.getM Date_now (symbolKey sym);
  match mem with
  | Some v => ret v
  | None => fromTableOrLive sym
  end.
End Client.

End PriceCache.

(** ** Helpers of the bot ([src/bot/index.ts]) *)
Module BotUtil.
Import Eff JS.

(** [s.replace(/c/g, by)] for a pattern that is the one character [c]. *)
Fixpoint replaceChar (c : ascii) (by_ : string) (s : string) : string :=
  match s with
  | EmptyString => EmptyString
  | String x s' =>
    if Ascii.eqb x c then (by_ ++ replaceChar c by_ s')%string
    else String x (replaceChar c by_ s')
  end.

(** [c] occurs in [s]. *)
Fixpoint occurs (c : ascii) (s : string) : Prop :=
  match s with
  | EmptyString => False
  | String x s' => x = c \/ occurs c s'
  end.

(** [html]: the three replacements, in the order of the source. *)
Definition html (s : string) : string :=
  replaceChar ">" "&gt;" (replaceChar "<" "&lt;" (replaceChar "&" "&amp;" s)).

(** What the three passes of [html] write for one character. *)
Definition htmlChar (x : ascii) : string :=
  if Ascii.eqb x "&" then "&amp;"
  else if Ascii.eqb x "<" then "&lt;"
  else if Ascii.eqb x ">" then "&gt;"
  else String x EmptyString.

(** The character class of [mdEscape]: [_*[\]()~`>#+\-=|{}.!]. *)
Definition mdSpecials : list ascii :=
  list_ascii_of_string "_*[]()~`>#+-=|{}.!".

Definition isMdSpecial (c : ascii) : bool := bool_decide (c ∈ mdSpecials).

(** [mdEscape]: a backslash before every character of the class. *)
Fixpoint mdEscape (s : string) : string :=
  match s with
  | EmptyString => EmptyString
  | String x s' =>
    if isMdSpecial x then String "\" (String x (mdEscape s'))
    else String x (mdEscape s')
  end.

(** [s.includes(sub)] *)
Fixpoint includes (s sub : string) : bool :=
  String.prefix sub s
  || match s with
     | EmptyString => false
     | String _ s' => includes s' sub
     end.

Definition notFoundText : string := "I couldn’t find that token.".
Definition busyText : string := "AI is busy right now — try again in a moment.".
Definition badAddressText : string :=
  "That doesn’t look like a valid contract address.".

(** [userError]; [e?.message || ""] is the message of the error. *)
Definition userError {CM : CaseMapping} (e : Err) (fallback : string) : string :=
  let msg := toLowerCase (message e) in
  if includes msg "not found" then notFoundText
  else if includes msg "quota" || includes msg "429" then busyText
  else if includes msg "address" then badAddressText
  else fallback.

End BotUtil.

(** ** The heuristic safety score ([services/ai], [heuristicScore]) *)
Module AI.

(** JavaScript numbers are doubles: Rocq's primitive floats. *)
Definition gt (a b : float) : bool := PrimFloat.ltb b a.

(** Truthiness of an optional number: present, not zero and not NaN. *)
Definition truthyNum (x : option float) : bool :=
  match x with
  | Some f => negb (PrimFloat.eqb f 0%float) && negb (PrimFloat.is_nan f)
  | None => false
  end.

(** [heuristicScore].  [s] starts at 50 and only moves by whole numbers,
    so it is kept as an integer and [Math.round(s)] is [s]. *)
Definition heuristicScore (liquidityUsd volume24h : float)
    (fdv buys24h sells24h : option float) : Z :=
  let s := 50 in
  let s :=
    if gt liquidityUsd 100000%float then s + 15
    else if PrimFloat.ltb liquidityUsd 10000%float then s - 15
    else s in
  let s :=
    if gt volume24h 1000000%float then s + 15
    else if PrimFloat.ltb volume24h 25000%float then s - 10
    else s in
  let s :=
    if truthyNum fdv && gt liquidityUsd 0%float then
      let r := PrimFloat.div liquidityUsd (default 0%float fdv) in
      (* the doubles written 0.01 and 0.001 *)
      if gt r 0x1.47ae147ae147bp-7%float then s + 10
      else if PrimFloat.ltb r 0x1.0624dd2f1a9fcp-10%float then s - 10
      else s
    else s in
  let s :=
    if PrimFloat.ltb
         (PrimFloat.add (default 0%float buys24h) (default 0%float sells24h))
         100%float
    then s - 5 else s in
  Z.max 0 (Z.min 100 s).

End AI.

(** ** The safety insight ([services/ai], [runChain] and
    [aiSafetyInsight]) *)
Module Insight.
Import Eff Eff.Notations JS.

(** A parsed JSON value, as the output parser of the chain returns it. *)
Unset Elimination Schemes.
Inductive Json :=
| JNull
| JBool (b : bool)
| JNum (f : float)
| JStr (s : string)
| JArr (items : list Json)
| JObj (fields : list (string * Json)).
Set Elimination Schemes.

(** [raw?.key]: a property of an object (the last binding of the key);
    [undefined] on anything else. *)
Definition field (key : string) (raw : Json) : option Json :=
  match raw with
  | JObj fields =>
    snd <$> List.find (fun kv => String.eqb (fst kv) key) (rev fields)
  | _ => None
  end.

Inductive Provider := openai | gemini | mock.

(** [type SafetyResult] *)
Record SafetyResult := mkResult {
  score : float;
  explanation : string;
  provider : Provider
}.

(** [SafetySchema.safeParse(raw)]: an object whose [score] is a number
    (not NaN) from 0 to 100 and whose [explanation] is a string of at
    least 10 characters. *)
Definition safeParse (raw : Json) : option (float * string) :=
  match field "score" raw, field "explanation" raw with
  | Some (JNum f), Some (JStr s) =>
    if negb (PrimFloat.is_nan f) && PrimFloat.leb 0%float f
       && PrimFloat.leb f 100%float && (10 <=? String.length s)%nat
    then Some (f, s) else None
  | _, _ => None
  end.

(** [s.replace("%", "")]: the first [%] is removed. *)
Fixpoint dropFirstPercent (s : string) : string :=
  match s with
  | EmptyString => EmptyString
  | String c s' => if Ascii.eqb c "%" then s' else String c (dropFirstPercent s')
  end.

(** [Number.isFinite(x)] for a number. *)
Definition isFinite (f : float) : bool :=
  negb (PrimFloat.is_nan f) && negb (PrimFloat.is_infinity f).

(** [Math.max(0, Math.min(100, y))] *)
Definition clamp (y : float) : float :=
  let m :=
    if PrimFloat.is_nan y then y
    else if PrimFloat.ltb y 100%float then y else 100%float in
  if PrimFloat.is_nan m then m
  else if PrimFloat.ltb 0%float m then m else 0%float.

(** The fields of the prompt; a metric that is missing is shown as
    ["N/A"]. *)
Record PromptInputs := mkInputs {
  p_name : string;
  p_symbol : string;
  p_chain : string;
  p_priceUsd : option float;
  p_liquidityUsd : option float;
  p_volume24h : option float;
  p_fdv : option float;
  p_buys24h : option float;
  p_sells24h : option float;
  p_heuristicScore : Z
}.

(** The argument of [aiSafetyInsight]. *)
Record Data := mkData {
  d_name : string;
  d_symbol : string;
  d_chain : string;
  d_priceUsd : option float;
  d_liquidityUsd : option float;
  d_volume24h : option float;
  d_fdv : option float;
  d_buys24h : option float;
  d_sells24h : option float
}.

(** [heur] and [inputs] of [aiSafetyInsight]: the heuristic score of the
    metrics ([?? 0] for liquidity and volume) and the prompt inputs. *)
Definition heurOf (data : Data) : Z :=
  AI.heuristicScore (default 0%float (d_liquidityUsd data))
    (default 0%float (d_volume24h data))
    (d_fdv data) (d_buys24h data) (d_sells24h data).

Definition inputsOf (data : Data) : PromptInputs :=
  mkInputs (d_name data) (d_symbol data) (d_chain data) (d_priceUsd data)
    (d_liquidityUsd data) (d_volume24h data) (d_fdv data) (d_buys24h data)
    (d_sells24h data) (heurOf data).

(** The number a whole number from 0 to 100 is. *)
Definition ofZ (z : Z) : float := PrimFloat.of_uint63 (Uint63.of_Z z).

Definition mockText : string :=
  "⚠️ AI providers unavailable. Showing heuristic-only safety score based on liquidity, 24h volume, and FDV.".

Section Chains.
Context {CM : CaseMapping} {W : Type}.
(** [process.env[name]] *)
Variable env : string -> W -> option string.
(** [chain.invoke(inputs)] on the chain built for a provider's model
    (prompt, model, JSON output parser). *)
Variable invoke : Provider -> PromptInputs -> M W Json.
(** [Number(s)] on a string, and [Math.round]. *)
Variable Number_ : string -> float.
Variable Math_round : float -> float.

(** [runChain] *)
Definition runChain (prov : Provider) (inputs : PromptInputs) : M W SafetyResult :=
  await raw <- invoke prov inputs;
  match safeParse raw with
  | Some (f, s) => ret (mkResult f s prov)
  | None =>
    let maybeScore : option float :=
      match field "score" raw with
      | Some (JStr s) => Some (Number_ (trim (dropFirstPercent s)))
      | Some (JNum f) => Some f
      | _ => None
      end in
    let scoreNum :=
      match maybeScore with
      | Some f => if isFinite f then clamp (Math_round f) else 50%float
      | None => 50%float
      end in
    let explanation :=
      match field "explanation" raw with
      | Some (JStr s) => s
      | _ => "No explanation."%string
      end in
    ret (mkResult scoreNum explanation prov)
  end.

(** [makeOpenAI() !== null], [makeGemini() !== null]: the key is set and
    not empty. *)
Definition hasOpenAI (w : W) : bool := truthy (env "OPENAI_API_KEY" w).
Definition hasGemini (w : W) : bool := truthy (env "GOOGLE_API_KEY" w).

Definition tryOpenAI (has : bool) (inputs : PromptInputs) : M W SafetyResult :=
  if has then runChain openai inputs
  else throw (mkErr (Some 401) "OPENAI_API_KEY missing").

Definition tryGemini (has : bool) (inputs : PromptInputs) : M W SafetyResult :=
  if has then runChain gemini inputs
  else throw (mkErr (Some 401) "GOOGLE_API_KEY missing").

(** [aiSafetyInsight]; the environment is read before the first [await]. *)
Definition aiSafetyInsight (data : Data) : M W SafetyResult :=
  fun w =>
  let heur := heurOf data in
  let inputs := inputsOf data in
  let force := toLowerCase (default EmptyString (env "AI_PROVIDER" w)) in
  let o := hasOpenAI w in
  let g := hasGemini w in
  try_catch
    (if String.eqb force "openai" then tryOpenAI o inputs
     else if String.eqb force "gemini" then tryGemini g inputs
     else
       try_catch (tryOpenAI o inputs)
         (fun e =>
            if g then try_catch (tryGemini g inputs) (fun ge => throw ge)
            else throw e))
    (fun _ => ret (mkResult (ofZ heur) mockText mock))
    w.
End Chains.

End Insight.

(** ** The query log ([src/utils/log.ts]) and the HTTP routes
    ([src/server.ts]) *)
Module Server.
Import Eff Eff.Notations JS.

(** The [data] of [prisma.queryLog.create]. *)
Record LogRow := mkLogRow {
  l_chatId : Z;
  l_type : string;
  l_input : string;
  l_outcome : string;
  l_latencyMs : option Z;
  l_provider : option string;
  l_cacheKey : option string
}.

(** The argument of [logQuery]. *)
Record LogParams := mkLogParams {
  lp_chatId : Z;
  lp_type : string;
  lp_input : string;
  lp_outcome : option string;
  lp_latencyMs : option Z;
  lp_provider : option string;
  lp_cacheKey : option string
}.

(** [fmtErr]: [e?.message ? String(e.message) : "Internal error"] *)
Definition fmtErr (e : Err) : string :=
  if truthy (Some (message e)) then message e else "Internal error"%string.

(** What a route answers: the status code and the body. *)
Inductive Body :=
| ErrorBody (error : string)
| PriceBody (symbol : string) (price marketCap volume24h : Q)
| TokenBody (data : Insight.Data) (ai : Insight.SafetyResult).

Record Response := mkResponse { code : Z; body : Body }.

(** The first pair of a contract lookup, as the token route reads it. *)
Record TopPair := mkTopPair {
  tp_name : option string;
  tp_symbol : option string;
  tp_chainId : option string;
  tp_priceUsd : option string;
  tp_liquidityUsd : option float;
  tp_volume24h : option float;
  tp_fdv : option float;
  tp_buys24h : option float;
  tp_sells24h : option float
}.

Definition providerName (p : Insight.Provider) : string :=
  match p with
  | Insight.openai => "openai"
  | Insight.gemini => "gemini"
  | Insight.mock => "mock"
  end.

Definition invalidAddressText : string :=
  "Invalid contract address (expected 0x…40 hex).".

Section Routes.
Context {CM : CaseMapping} {S : Type}.
Variable Date_now : S -> Z.
(** [prisma.queryLog.create({ data })] *)
Variable create : LogRow -> M S unit.
(** The imported clients. *)
Variable getCoinGeckoBySymbol : string -> M S CoinGecko.CoinInfo.
Variable getDexByContract : string -> M S (list TopPair).
Variable aiSafetyInsight : Insight.Data -> M S Insight.SafetyResult.
(** [Number(s)] on a string. *)
Variable Number_ : string -> float.

(** [logQuery] *)
Definition logQuery (params : LogParams) : M S unit :=
  try_catch
    (create
       (mkLogRow (lp_chatId params) (lp_type params)
          (String.substring 0 2000 (lp_input params))
          (default "ok"%string (lp_outcome params))
          (lp_latencyMs params) (lp_provider params) (lp_cacheKey params)))
    (fun _ => ret tt).

(** A write to the log inside [try { ... } catch {}]. *)
Definition bestEffortLog (row : LogRow) : M S unit :=
  try_catch (create row) (fun _ => ret tt).

Definition now_ : M S Z := fun s => (inr (Date_now s), s).

(** The handler of [GET /price/:symbol]. *)
Definition priceRoute (symbol : string) : M S Response :=
  await t0 <- now_;
  try_catch
    (await info <- getCoinGeckoBySymbol symbol;
     await t1 <- now_;
     await _ <- bestEffortLog
                  (mkLogRow 0 "price" symbol "ok" (Some (t1 - t0)) None None);
     ret (mkResponse 200
            (PriceBody (CoinGecko.symbol info) (CoinGecko.price info)
               (CoinGecko.marketCap info) (CoinGecko.volume24h info))))
    (fun e =>
       await t1 <- now_;
       await _ <- bestEffortLog
                    (mkLogRow 0 "error" symbol (fmtErr e) (Some (t1 - t0)) None None);
       ret (mkResponse 500 (ErrorBody (fmtErr e)))).

(** [tokenInfo] and [metrics] of the token route. *)
Definition dataOf (top : TopPair) : Insight.Data :=
  Insight.mkData
    (default "Unknown"%string (tp_name top))
    (default "???"%string (tp_symbol top))
    (toUpperCase (default EmptyString (tp_chainId top)))
    (if truthy (tp_priceUsd top)
     then Number_ <$> tp_priceUsd top else None)
    (Some (default 0%float (tp_liquidityUsd top)))
    (Some (default 0%float (tp_volume24h top)))
    (tp_fdv top) (tp_buys24h top) (tp_sells24h top).

(** The handler of [GET /token/:address]. *)
Definition tokenRoute (address : string) : M S Response :=
  await t0 <- now_;
  if negb (truthy (Some address)) || negb (Resolver.isAddress address) then
    ret (mkResponse 400 (ErrorBody invalidAddressText))
  else
    try_catch
      (await pairs <- getDexByContract address;
       match head pairs with
       | None => ret (mkResponse 404 (ErrorBody "Token not found on Dexscreener"))
       | Some top =>
         let data := dataOf top in
         await ai <- aiSafetyInsight data;
         await t1 <- now_;
         await _ <- bestEffortLog
                      (mkLogRow 0 "analyze" address "ok" (Some (t1 - t0))
                         (Some (providerName (Insight.provider ai))) None);
         ret (mkResponse 200 (TokenBody data ai))
       end)
      (fun e =>
         await t1 <- now_;
         await _ <- bestEffortLog
                      (mkLogRow 0 "error" address (fmtErr e) (Some (t1 - t0))
                         None None);
         ret (mkResponse 500 (ErrorBody (fmtErr e)))).
End Routes.

End Server.

(** ** Runs of the rate limiter seen from one chat *)
Module RateLimiterRuns.
Import RateLimiter.

(** The update comes from the chat [cid]. *)
Definition of_chat (cid : Z) (call : Z * option Z) : bool :=
  bool_decide (call.2 = Some cid).

(** Among the outcomes [os] of the updates [calls], those of the updates
    that come from the chat [cid]. *)
Fixpoint outcomes_of (cid : Z) (calls : list (Z * option Z)) (os : list Outcome)
  : list Outcome :=
  match calls, os with
  | c :: calls', o :: os' =>
    if of_chat cid c then o :: outcomes_of cid calls' os'
    else outcomes_of cid calls' os'
  | _, _ => []
  end.

End RateLimiterRuns.

(** ** The buttons that carry a stored payload ([src/bot/index.ts], the
    callback data [CB:<id>] and the action [/CB:([A-Za-z0-9_-]{6,32})/]) *)
Module CbButton.

(** The character class [[A-Za-z0-9_-]]. *)
Definition isIdChar (c : ascii) : bool :=
  let n := nat_of_ascii c in
  (((65 <=? n) && (n <=? 90)) || ((97 <=? n) && (n <=? 122))
   || ((48 <=? n) && (n <=? 57)) || (n =? 95) || (n =? 45))%nat.

(** The longest run of at most [n] characters of the class at the start
    of [s]: what the greedy [{6,32}] takes. *)
Fixpoint takeClass (n : nat) (s : string) : string :=
  match n, s with
  | Datatypes.S n', String c s' =>
    if isIdChar c then String c (takeClass n' s') else EmptyString
  | _, _ => EmptyString
  end.

(** The match of the pattern at the start of the data, which is the
    match the action handler gets when there is one there: [Some id] is
    [ctx.match[1]]. *)
Definition matchAtStart (data : string) : option string :=
  match data with
  | String "C" (String "B" (String ":" rest)) =>
    let id := takeClass 32 rest in
    if (6 <=? String.length id)%nat then Some id else None
  | _ => None
  end.

(** The data of the button: [`CB:${id}`]. *)
Definition callbackData (id : string) : string := ("CB:" ++ id)%string.

End CbButton.

(** ** Upstreams with a clock, used in the examples of the clients *)
Module Fixtures.
Import Eff.

(** The world is the reading of its clock. *)
Definition clock (w : Z) : Z := w.

Definition twoPools (q : string) (w : Z)
  : (Err + option (list Dexscreener.DexPair)) * Z :=
  (inr (Some [Scenario.usdcPool; Scenario.xyzPool]), w).

Definition noPools (q : string) (w : Z)
  : (Err + option (list Dexscreener.DexPair)) * Z :=
  (inr None, w).

Definition btcInfo : CoinGecko.CoinInfo :=
  CoinGecko.mkCoinInfo "bitcoin" "BTC" "Bitcoin" 60000%Q 0%Q 0%Q None.

(** A table that holds a row for every key, valid until 1000. *)
Definition rowUntil1000 (key : string) (w : Z)
  : (Err + option PriceCache.DbRow) * Z :=
  (inr (Some (PriceCache.mkDbRow btcInfo 1000)), w).

Definition noRow (key : string) (w : Z)
  : (Err + option PriceCache.DbRow) * Z :=
  (inr None, w).

Definition writeOk (key : string) (v : CoinGecko.CoinInfo) (ttlAt : Z) (w : Z)
  : (Err + unit) * Z :=
  (inr tt, w).

Definition tableDown : Err := mkErr None "database unavailable".

Definition writeFails (key : string) (v : CoinGecko.CoinInfo) (ttlAt : Z) (w : Z)
  : (Err + unit) * Z :=
  (inl tableDown, w).

Definition oneCoin (sym : string) (w : Z)
  : (Err + option (list CoinGecko.SearchCoin)) * Z :=
  (inr (Some [CoinGecko.mkSearchCoin "bitcoin" (Some "btc") (Some 1)]), w).

Definition noCoin (sym : string) (w : Z)
  : (Err + option (list CoinGecko.SearchCoin)) * Z :=
  (inr (Some []), w).

Definition btcMarkets (ids : string) (w : Z)
  : (Err + list (option CoinGecko.Market)) * Z :=
  (inr [Some (CoinGecko.mkMarket "bitcoin" (Some "btc") (Some "Bitcoin")
                (Some 60000%Q) None None (Some 1))], w).

Definition noFull (id : string) (w : Z) : (Err + option CoinGecko.Full) * Z :=
  (inr None, w).

Definition sleep (ms : Z) (w : Z) : Z := w + ms.

(** An environment with both keys set and no provider forced; an OpenAI
    chain that is out of quota and a Gemini chain that answers. *)
Definition bothKeys (name : string) (w : unit) : option string :=
  if String.eqb name "AI_PROVIDER" then None else Some "key"%string.

Definition quota : Err := mkErr (Some 429) "insufficient_quota".

Definition geminiAnswer : Insight.Json :=
  Insight.JObj [("score"%string, Insight.JNum 70%float);
                ("explanation"%string,
                 Insight.JStr "Deep liquidity and steady volume.")].

Definition openaiDown (p : Insight.Provider) (inputs : Insight.PromptInputs)
    (w : unit) : (Err + Insight.Json) * unit :=
  match p with
  | Insight.openai => (inl quota, w)
  | _ => (inr geminiAnswer, w)
  end.

Definition someData : Insight.Data :=
  Insight.mkData "Pepe" "PEPE" "ETHEREUM" None (Some 200000%float)
    (Some 2000000%float) None None None.

End Fixtures.

(** ** The symbol parser ([src/utils/parse.ts]) *)
Module Parse.
Import JS.

Definition STOPWORDS : list string :=
  ["what"; "whats"; "what's"; "is"; "the"; "price"; "of"; "for"; "a"; "an";
   "token"; "coin"; "current"; "now"; "how"; "much"; "worth"; "value";
   "please"; "tell"; "me"]%string.

Definition isDigitChar (c : ascii) : bool :=
  let n := nat_of_ascii c in ((48 <=? n) && (n <=? 57))%nat.

(** The class [[a-z0-9]] under the flag [i]. *)
Definition isAlnum (c : ascii) : bool :=
  isLowerChar c || isUpperChar c || isDigitChar c.

(** The class [\w], which [\b] looks at. *)
Definition isWordChar (c : ascii) : bool := isAlnum c || Ascii.eqb c "_".

(** Two characters are the same under the flag [i]. *)
Definition eqb_ci (x c : ascii) : bool := Ascii.eqb (toUpperChar x) (toUpperChar c).

Fixpoint allChars (p : ascii -> bool) (s : string) : bool :=
  match s with
  | EmptyString => true
  | String c s' => p c && allChars p s'
  end.

(** The regular expressions of the parser, written as the backtracking
    matchers the language defines them to be: a matcher takes what is to
    be matched after it (the continuation) and a position, and answers the
    result of the first way of matching that the continuation accepts.  A
    position is the character before it, if any, and the text from it
    on.  The result is the text of the one capture group. *)
Definition Pos : Type := option ascii * string.
Definition Cont : Type := Pos -> option string.

Definition orElse (a b : option string) : option string :=
  match a with
  | Some r => Some r
  | None => b
  end.

(** A run of literal characters. *)
Fixpoint lit (pat : string) (k : Cont) (pos : Pos) {struct pat} : option string :=
  match pat with
  | EmptyString => k pos
  | String c pat' =>
    match snd pos with
    | String x rest => if eqb_ci x c then lit pat' k (Some x, rest) else None
    | EmptyString => None
    end
  end.

(** [m1|m2] and [m?] *)
Definition alt (m1 m2 : Cont -> Cont) (k : Cont) (pos : Pos) : option string :=
  orElse (m1 k pos) (m2 k pos).

Definition opt (m : Cont -> Cont) (k : Cont) (pos : Pos) : option string :=
  orElse (m k pos) (k pos).

(** A character class under a greedy quantifier [{min,max}] ([max] is
    [None] for [+] and [*]): one more character is tried first, and the
    continuation only when that way fails and [min] has been reached.
    [acc] is the text taken so far, which the continuation receives. *)
Fixpoint rep (p : ascii -> bool) (min : nat) (max : option nat)
    (k : string -> Cont) (acc : string) (prev : option ascii) (rest : string)
    {struct rest} : option string :=
  let stop := if (min =? 0)%nat then k acc (prev, rest) else None in
  match rest with
  | String x rest' =>
    if p x && negb (bool_decide (max = Some 0%nat)) then
      orElse
        (rep p (Nat.pred min) (Nat.pred <$> max) k
           (acc ++ String x EmptyString) (Some x) rest')
        stop
    else stop
  | EmptyString => stop
  end.

(** The class [\s] under the greedy quantifiers [+] ([min] is 1) and [*]
    ([min] is 0): a white space character has one, two or three bytes. *)
Fixpoint spacesFrom (min : nat) (k : Cont) (prev : option ascii) (rest : string)
    {struct rest} : option string :=
  let stop := if (min =? 0)%nat then k (prev, rest) else None in
  match rest with
  | EmptyString => stop
  | String x s1 =>
    if isAsciiSpace x then
      orElse (spacesFrom (Nat.pred min) k (Some x) s1) stop
    else
      match s1 with
      | EmptyString => stop
      | String y s2 =>
        if isSpace2 x y then
          orElse (spacesFrom (Nat.pred min) k (Some y) s2) stop
        else
          match s2 with
          | EmptyString => stop
          | String z s3 =>
            if isSpace3 x y z then
              orElse (spacesFrom (Nat.pred min) k (Some z) s3) stop
            else stop
          end
      end
  end.

(** [\s+] and [\s*] *)
Definition spaces (min : nat) (k : Cont) (pos : Pos) : option string :=
  spacesFrom min k (fst pos) (snd pos).

(** [\b] *)
Definition wordBoundary (k : Cont) (pos : Pos) : option string :=
  let a := match fst pos with Some c => isWordChar c | None => false end in
  let b := match snd pos with String c _ => isWordChar c | EmptyString => false end in
  if xorb a b then k pos else None.

(** The end shared by the three expressions: [([a-z0-9]{2,15})\b]. *)
Definition symbolThenBoundary (pos : Pos) : option string :=
  rep isAlnum 2 (Some 15%nat) (fun cap => wordBoundary (fun _ => Some cap))
    EmptyString (fst pos) (snd pos).

(** [text.match(re)] for an expression without the flag [g]: the match at
    the leftmost position that has one. *)
Fixpoint search (re : Cont) (prev : option ascii) (text : string) : option string :=
  orElse (re (prev, text))
    match text with
    | String x rest => search re (Some x) rest
    | EmptyString => None
    end.

Definition match_ (re : Cont) (text : string) : option string :=
  search re None text.

(** Every result a continuation gives satisfies [Q]. *)
Definition yields (Q : string -> Prop) (k : Cont) : Prop :=
  forall pos r, k pos = Some r -> Q r.

(** [/\$([a-z0-9]{2,15})\b/i] *)
Definition reDollar : Cont := lit "$" symbolThenBoundary.

(** [/(?:price|value|worth)\s+(?:of|for)?\s*\$?([a-z0-9]{2,15})\b/i] *)
Definition rePriceOf : Cont :=
  alt (lit "price") (alt (lit "value") (lit "worth"))
    (spaces 1
       (opt (alt (lit "of") (lit "for"))
          (spaces 0 (opt (lit "$") symbolThenBoundary)))).

(** [/what(?:'s| is)?\s+the\s+price\s+of\s+\$?([a-z0-9]{2,15})\b/i] *)
Definition reWhatPrice : Cont :=
  lit "what"
    (opt (alt (lit "'s") (lit " is"))
       (spaces 1
          (lit "the"
             (spaces 1
                (lit "price"
                   (spaces 1
                      (lit "of"
                         (spaces 1 (opt (lit "$") symbolThenBoundary))))))))).

(** [/^[a-z0-9]{2,15}$/i.test(w)]: the whole of [w] is 2 to 15 characters
    of the class. *)
Definition isSymbolToken (w : string) : bool :=
  (2 <=? String.length w)%nat && (String.length w <=? 15)%nat
  && allChars isAlnum w.

(** [.replace(/[?!.:,]/g, " ")] *)
Definition isPunct (c : ascii) : bool :=
  bool_decide (c ∈ list_ascii_of_string "?!.:,").

Fixpoint replacePunct (s : string) : string :=
  match s with
  | EmptyString => EmptyString
  | String c s' => String (if isPunct c then " "%char else c) (replacePunct s')
  end.

(** [.replace(/\s+/g, " ")]; [inRun] tells that the previous character
    was white space. *)
Fixpoint collapseSpaces (inRun : bool) (s : string) : string :=
  match s with
  | EmptyString => EmptyString
  | String x s1 =>
    if isAsciiSpace x then
      if inRun then collapseSpaces true s1
      else String " " (collapseSpaces true s1)
    else
      match s1 with
      | EmptyString => String x (collapseSpaces false s1)
      | String y s2 =>
        if isSpace2 x y then
          if inRun then collapseSpaces true s2
          else String " " (collapseSpaces true s2)
        else
          match s2 with
          | EmptyString => String x (collapseSpaces false s1)
          | String z s3 =>
            if isSpace3 x y z then
              if inRun then collapseSpaces true s3
              else String " " (collapseSpaces true s3)
            else String x (collapseSpaces false s1)
          end
      end
  end.

(** [.split(" ")]; [cur] is the piece being read. *)
Fixpoint splitSpace_go (cur : string) (s : string) : list string :=
  match s with
  | EmptyString => [cur]
  | String c s' =>
    if Ascii.eqb c " " then cur :: splitSpace_go EmptyString s'
    else splitSpace_go (cur ++ String c EmptyString) s'
  end.

Section Engine.
Context {CM : CaseMapping}.

(** [parts]: the pieces that are not empty. *)
Definition partsOf (raw : string) : list string :=
  List.filter (fun w => truthy (Some w))
    (splitSpace_go EmptyString
       (trim (collapseSpaces false (replacePunct (toLowerCase raw))))).

(** The loop of step 4 over the parts from the last one down: stop words
    are skipped, and the first other part decides. *)
Fixpoint lastNonStopword (partsFromLast : list string) : option string :=
  match partsFromLast with
  | [] => None
  | part :: before =>
    let w := toLowerCase part in
    if bool_decide (w ∈ STOPWORDS) then lastNonStopword before
    else if isSymbolToken w then Some (toUpperCase w)
    else None
  end.

(** [extractSymbolish]; [None] is [null]. *)
Definition extractSymbolish (text : string) : option string :=
  let raw := trim text in
  match match_ reDollar raw with
  | Some cap => Some (toUpperCase cap)
  | None =>
    let lower := toLowerCase raw in
    match orElse (match_ rePriceOf lower) (match_ reWhatPrice lower) with
    | Some cap => Some (toUpperCase cap)
    | None =>
      let parts := partsOf raw in
      match parts with
      | [part] =>
        if isSymbolToken part then Some (toUpperCase part)
        else lastNonStopword (rev parts)
      | _ => lastNonStopword (rev parts)
      end
    end
  end.
End Engine.

End Parse.

(** ** Texts around a symbol, for the statements on the parser *)
Module ParseTexts.
Import JS Parse.

(** The text [post] lets a symbol end before it: it is empty or starts
    with a character outside [\w]. *)
Definition endsSymbol (post : string) : bool :=
  match post with
  | EmptyString => true
  | String c _ => negb (isWordChar c)
  end.

(** No character of [s] is a dollar sign. *)
Definition noDollar (s : string) : bool :=
  allChars (fun c => negb (Ascii.eqb c "$")) s.

(** A character below 128 that is no white space: no byte of a white
    space character. *)
Definition plain (c : ascii) : bool := isAsciiChar c && negb (isAsciiSpace c).

(** The character before the position reached after [w]. *)
Fixpoint lastOf (prev : option ascii) (w : string) : option ascii :=
  match w with
  | EmptyString => prev
  | String x w' => lastOf (Some x) w'
  end.

End ParseTexts.

(** * Properties *)

(** ** Rate limiter *)
Section RateLimiterProps.
Import RateLimiter.

Lemma refill_idle now b :
  now - last b < REFILL_MS -> refill now b = b.
Proof.
  unfold refill, REFILL_MS. intros H.
  destruct (0 <? now - last b) eqn:E; [|done].
  apply Z.ltb_lt in E.
  rewrite Z.div_small by lia. done.
Qed.

Lemma refill_tokens now b :
  bucket_ok b -> tokens b <= tokens (refill now b) <= CAPACITY.
Proof.
  unfold bucket_ok, refill, CAPACITY, REFILL_MS. intros H.
  destruct (0 <? now - last b); [|simpl; lia].
  destruct (0 <? (now - last b) / 6000) eqn:E; simpl; lia.
Qed.

Lemma refill_last now b :
  last (refill now b) = last b \/ (last (refill now b) = now /\ last b < now).
Proof.
  unfold refill.
  destruct (0 <? now - last b) eqn:E; [|by left].
  apply Z.ltb_lt in E.
  destruct (0 <? _); simpl; [right; lia | by left].
Qed.

Lemma refill_lastHit now b : lastHit (refill now b) = lastHit b.
Proof. unfold refill. by repeat case_match. Qed.

(** What one admission does to the bucket it works on. *)
Lemma admission_spec now b0 :
  let b1 := refill now b0 in
  let '(o, b') := admission now b0 in
  last b' = last b1 /\
  ((o = Next /\ 0 < tokens b1 /\ MIN_GAP_MS <= now - lastHit b0
    /\ tokens b' = tokens b1 - 1 /\ lastHit b' = now)
   \/ (o <> Next /\ b' = b1)).
Proof.
  unfold admission. simpl. rewrite <- (refill_lastHit now b0).
  destruct (now - lastHit (refill now b0) <? MIN_GAP_MS) eqn:G.
  { split; [done|]. by right. }
  apply Z.ltb_ge in G.
  destruct (tokens (refill now b0) <=? 0) eqn:E.
  { split; [done|]. by right. }
  apply Z.leb_gt in E. simpl. split; [done|]. left. done.
Qed.

Lemma admission_ok now b : bucket_ok b -> bucket_ok (admission now b).2.
Proof.
  intros Hb. pose proof (refill_tokens now b Hb) as Hr.
  pose proof (admission_spec now b) as Hs. simpl in Hs.
  destruct (admission now b) as [o b']. simpl.
  unfold bucket_ok, CAPACITY in *.
  destruct Hs as [_ [(_ & ? & _ & -> & _) | [_ ->]]]; lia.
Qed.

Lemma bucketOf_ok now cid buckets :
  buckets_ok buckets -> bucket_ok (bucketOf now cid buckets).
Proof.
  intros H. unfold bucketOf.
  destruct (buckets !! cid) eqn:E; [by eapply H|].
  unfold bucket_ok, CAPACITY. simpl. lia.
Qed.

Lemma rateLimiter_ok now chatId buckets :
  buckets_ok buckets -> buckets_ok (rateLimiter now chatId buckets).2.
Proof.
  intros H. unfold rateLimiter.
  destruct chatId as [cid|]; [|done].
  destruct (decide (cid = 0)); [done|].
  pose proof (admission_ok now _ (bucketOf_ok now cid _ H)) as Ha.
  destruct (admission now (bucketOf now cid buckets)) as [o b]. simpl in *.
  intros k bk. rewrite lookup_insert. case_decide; [|by apply H].
  by intros [= <-].
Qed.

Lemma run_ok calls buckets :
  buckets_ok buckets -> buckets_ok (run calls buckets).2.
Proof.
  revert buckets. induction calls as [|[now chatId] rest IH]; intros buckets H.
  - done.
  - simpl. pose proof (rateLimiter_ok now chatId _ H) as H1.
    destruct (rateLimiter now chatId buckets) as [o b1]. simpl in H1.
    specialize (IH _ H1). by destruct (run rest b1).
Qed.

Lemma empty_ok : buckets_ok ∅.
Proof. intros k b. by rewrite lookup_empty. Qed.

(** The call of a chat with an id: the outcome of [admission] on its bucket,
    stored back under its id. *)
Lemma rateLimiter_chat now cid buckets :
  cid <> 0 ->
  rateLimiter now (Some cid) buckets =
    ((admission now (bucketOf now cid buckets)).1,
     <[cid := (admission now (bucketOf now cid buckets)).2]> buckets).
Proof.
  intros H. unfold rateLimiter. destruct (decide (cid = 0)); [done|].
  by destruct (admission _ _).
Qed.

Lemma bucketOf_insert now cid b buckets :
  bucketOf now cid (<[cid := b]> buckets) = b.
Proof. unfold bucketOf. by rewrite lookup_insert_eq. Qed.

(** C9. Along every sequence of updates from any chats, starting with no
    bucket, every bucket holds between 0 and 5 tokens before and after each
    call.  In a call the refill never lowers the tokens of the bucket and
    never raises them above 5; the bucket loses exactly one token when the
    call is admitted, which needs a positive count after the refill, and
    none when it is denied; the refill timestamp of every bucket stays or
    moves to a later instant (it moves only to [now], and only when [now]
    is later); the buckets of the other chats are untouched. *)
Theorem C9_bucket_invariant
    (calls : list (Z * option Z)) (now : Z) (chatId : option Z) :
  let buckets := (run calls ∅).2 in
  let o := (rateLimiter now chatId buckets).1 in
  let buckets' := (rateLimiter now chatId buckets).2 in
  buckets_ok buckets /\ buckets_ok buckets' /\
  (forall k b, buckets !! k = Some b ->
     exists b', buckets' !! k = Some b' /\ last b <= last b') /\
  (forall k, chatId <> Some k -> buckets' !! k = buckets !! k) /\
  (forall cid, chatId = Some cid -> cid <> 0 ->
     let b0 := bucketOf now cid buckets in
     let b1 := refill now b0 in
     tokens b0 <= tokens b1 <= CAPACITY /\
     (last b1 = last b0 \/ (last b1 = now /\ last b0 < now)) /\
     exists b', buckets' !! cid = Some b' /\ last b' = last b1 /\
       ((o = Next /\ 0 < tokens b1 /\ tokens b' = tokens b1 - 1)
        \/ (o <> Next /\ tokens b' = tokens b1))).
Proof.
  intros buckets o buckets'.
  assert (Hok : buckets_ok buckets) by (apply run_ok, empty_ok).
  split; [done|]. split; [by apply rateLimiter_ok|].
  split; [|split].
  - intros k b Hk. subst buckets'. unfold rateLimiter.
    destruct chatId as [cid|]; [|exists b; split; [done|lia]].
    destruct (decide (cid = 0)); [exists b; split; [done|lia]|].
    pose proof (admission_spec now (bucketOf now cid buckets)) as Hs. simpl in Hs.
    destruct (admission now (bucketOf now cid buckets)) as [o1 b1]. simpl.
    destruct (decide (cid = k)) as [->|Hne].
    + exists b1. rewrite lookup_insert_eq. split; [done|].
      destruct Hs as [-> _]. unfold bucketOf. rewrite Hk.
      destruct (refill_last now b) as [->|[-> ?]]; lia.
    + exists b. rewrite lookup_insert_ne by done. split; [done|lia].
  - intros k Hk. subst buckets'. unfold rateLimiter.
    destruct chatId as [cid|]; [|done].
    destruct (decide (cid = 0)); [done|].
    destruct (admission now (bucketOf now cid buckets)) as [o1 b1]. simpl.
    apply lookup_insert_ne. congruence.
  - intros cid -> Hcid b0 b1.
    split; [apply refill_tokens, bucketOf_ok, Hok|].
    split; [apply refill_last|].
    subst o buckets'. rewrite rateLimiter_chat by done. simpl.
    pose proof (admission_spec now b0) as Hs. simpl in Hs. fold b0.
    destruct (admission now b0) as [o1 b']. simpl.
    exists b'. rewrite lookup_insert_eq. split; [done|].
    destruct Hs as [Hl Hs]. split; [done|].
    destruct Hs as [(-> & ? & _ & ? & _) | [? ->]]; [left | right]; done.
Qed.

Lemma run_admissions cid ts b buckets :
  cid <> 0 ->
  (run (at_times cid ts) (<[cid := b]> buckets)).1 = admissions ts b.
Proof.
  intros Hcid. revert b buckets.
  induction ts as [|t rest IH]; intros b buckets; [done|].
  cbn [run at_times map]. rewrite rateLimiter_chat by done.
  rewrite bucketOf_insert. cbn [admissions].
  destruct (admission t b) as [o b'] eqn:E. simpl.
  rewrite insert_insert_eq. specialize (IH b' buckets).
  destruct (run _ _). simpl in *. by rewrite IH.
Qed.

Lemma run_admissions_fresh cid t ts buckets :
  cid <> 0 -> buckets !! cid = None ->
  (run (at_times cid (t :: ts)) buckets).1 =
    admissions (t :: ts) {| tokens := CAPACITY; last := t; lastHit := 0 |}.
Proof.
  intros Hcid Hnone. cbn [run at_times map admissions].
  rewrite rateLimiter_chat by done.
  unfold bucketOf. rewrite Hnone.
  destruct (admission t _) as [o b'] eqn:E. simpl.
  pose proof (run_admissions cid ts b' buckets Hcid) as H.
  destruct (run _ _). simpl in *. by rewrite H.
Qed.

(** An admission whatever the refill: a token is left and the gap is
    respected. *)
Lemma admission_next now b :
  bucket_ok b -> 0 < tokens b -> MIN_GAP_MS <= now - lastHit b ->
  exists b', admission now b = (Next, b') /\ bucket_ok b'
             /\ tokens b - 1 <= tokens b' /\ lastHit b' = now.
Proof.
  intros Hok Ht Hg. pose proof (refill_tokens now b Hok) as Hr.
  unfold admission. rewrite refill_lastHit.
  destruct (now - lastHit b <? MIN_GAP_MS) eqn:G; [apply Z.ltb_lt in G; lia|].
  destruct (tokens (refill now b) <=? 0) eqn:E; [apply Z.leb_le in E; lia|].
  eexists. split; [done|]. unfold bucket_ok, CAPACITY in *. simpl. lia.
Qed.

(** The same within the refill interval: the bucket is known exactly. *)
Lemma admission_next_idle now b :
  now - last b < REFILL_MS -> 0 < tokens b -> MIN_GAP_MS <= now - lastHit b ->
  admission now b = (Next, {| tokens := tokens b - 1; last := last b; lastHit := now |}).
Proof.
  intros Hi Ht Hg. unfold admission. rewrite refill_idle by done.
  destruct (now - lastHit b <? MIN_GAP_MS) eqn:G; [apply Z.ltb_lt in G; lia|].
  destruct (tokens b <=? 0) eqn:E; [apply Z.leb_le in E; lia|]. done.
Qed.

(** An empty bucket within the refill interval denies, and stays as it is. *)
Lemma admission_deny_idle now b :
  now - last b < REFILL_MS -> tokens b <= 0 ->
  (admission now b).1 <> Next /\ (admission now b).2 = b.
Proof.
  intros Hi Ht. unfold admission. rewrite refill_idle by done.
  destruct (now - lastHit b <? MIN_GAP_MS); [done|].
  destruct (tokens b <=? 0) eqn:E; [done|apply Z.leb_gt in E; lia].
Qed.

(** One whole interval later, and less than two: one token comes back. *)
Lemma refill_one now b :
  REFILL_MS <= now - last b < 2 * REFILL_MS ->
  refill now b =
    {| tokens := Z.min CAPACITY (tokens b + 1); last := now; lastHit := lastHit b |}.
Proof.
  unfold refill, REFILL_MS. intros H.
  assert ((now - last b) / 6000 = 1) as -> by (symmetry; apply (Z.div_unique _ _ 1 (now - last b - 6000)); lia).
  destruct (0 <? now - last b) eqn:E; [done|apply Z.ltb_ge in E; lia].
Qed.

(** A call less than the minimum gap after the last admitted one is sent
    back with the slow-down reply, and costs no token. *)
Lemma admission_gap now b :
  now - lastHit b < MIN_GAP_MS -> admission now b = (SlowDown, refill now b).
Proof.
  intros H. unfold admission. rewrite refill_lastHit.
  destruct (now - lastHit b <? MIN_GAP_MS) eqn:G; [done|apply Z.ltb_ge in G; lia].
Qed.

(** Arithmetic on the limiter's constants and on bucket fields. *)
Ltac rl_arith :=
  unfold bucket_ok, MIN_GAP_MS, REFILL_MS, CAPACITY in *; simpl in *; lia.

(** C3 as stated fails twice.  After five admissions from 1000 ms on and a
    denied sixth call at 5500 ms, a wait of 12000 ms (at least 6000 ms) is
    followed by two admissions, not exactly one.  And a call at 1950 ms,
    450 ms after the call at 1500 ms, is admitted with tokens left: the
    call at 1500 ms was itself denied, so the gap is counted from the
    admission at 1000 ms. *)
Lemma C3_counterexample :
  (run (at_times 42 [1000; 1900; 2800; 3700; 4600; 5500; 17500; 18400]) ∅).1
    = [Next; Next; Next; Next; Next; TooMany 2; Next; Next]
  /\ (run (at_times 42 [1000; 1500; 1950]) ∅).1 = [Next; SlowDown; Next].
Proof. split; vm_compute; reflexivity. Qed.

(** C3, amended.  For a chat with a non-zero id and no bucket yet, with a
    clock at least 900 ms past the epoch: five calls spaced at least 900 ms
    apart are all admitted; a sixth call less than 6000 ms after the first
    is denied; a seventh call at least 6000 ms after the sixth and less than
    12000 ms after the first is admitted, and an eighth call less than
    6000 ms after the seventh is denied.  In any state, a call less than
    900 ms after an admitted call of the same chat gets the slow-down reply
    whatever the tokens left, and consumes none. *)
Theorem C3_fresh_conversation
    (cid t1 t2 t3 t4 t5 : Z) (buckets : gmap Z Bucket) :
  cid <> 0 -> buckets !! cid = None ->
  MIN_GAP_MS <= t1 ->
  t1 + MIN_GAP_MS <= t2 -> t2 + MIN_GAP_MS <= t3 ->
  t3 + MIN_GAP_MS <= t4 -> t4 + MIN_GAP_MS <= t5 ->
  (run (at_times cid [t1; t2; t3; t4; t5]) buckets).1
    = [Next; Next; Next; Next; Next]
  /\ (forall t6 t7 t8,
        t5 <= t6 -> t6 - t1 < REFILL_MS ->
        t6 + REFILL_MS <= t7 -> t7 - t1 < 2 * REFILL_MS ->
        t8 - t7 < REFILL_MS ->
        exists d6 d8,
          (run (at_times cid [t1; t2; t3; t4; t5; t6; t7; t8]) buckets).1
            = [Next; Next; Next; Next; Next; d6; Next; d8]
          /\ d6 <> Next /\ d8 <> Next)
  /\ (forall bs t t',
        (rateLimiter t (Some cid) bs).1 = Next ->
        t' - t < MIN_GAP_MS ->
        let bs1 := (rateLimiter t (Some cid) bs).2 in
        rateLimiter t' (Some cid) bs1
          = (SlowDown, <[cid := refill t' (bucketOf t' cid bs1)]> bs1)).
Proof.
  intros Hcid Hnone H1 H2 H3 H4 H5. split; [|split].
  - rewrite run_admissions_fresh by done. cbn [admissions].
    destruct (admission_next t1 {| tokens := CAPACITY; last := t1; lastHit := 0 |})
      as (b1 & -> & Hb1 & Hk1 & Hh1); [rl_arith ..|].
    destruct (admission_next t2 b1) as (b2 & -> & Hb2 & Hk2 & Hh2); [rl_arith ..|].
    destruct (admission_next t3 b2) as (b3 & -> & Hb3 & Hk3 & Hh3); [rl_arith ..|].
    destruct (admission_next t4 b3) as (b4 & -> & Hb4 & Hk4 & Hh4); [rl_arith ..|].
    destruct (admission_next t5 b4) as (b5 & -> & Hb5 & Hk5 & Hh5); [rl_arith ..|].
    done.
  - intros t6 t7 t8 H6 H6' H7 H7' H8.
    rewrite run_admissions_fresh by done. cbn [admissions].
    do 5 (rewrite admission_next_idle by rl_arith; cbn [tokens last lastHit]).
    set (b5 := {| tokens := _; last := t1; lastHit := t5 |}).
    destruct (admission_deny_idle t6 b5) as [Hd6 Hs6]; [subst b5; rl_arith ..|].
    destruct (admission t6 b5) as [d6 b6]. simpl in Hd6, Hs6. subst b6.
    assert (admission t7 b5 = (Next, {| tokens := 0; last := t7; lastHit := t7 |}))
      as ->.
    { unfold admission. rewrite refill_one by (subst b5; rl_arith).
      subst b5. unfold MIN_GAP_MS, CAPACITY. cbn [tokens last lastHit].
      destruct (t7 - t5 <? 900) eqn:G; [apply Z.ltb_lt in G; rl_arith|].
      done. }
    destruct (admission_deny_idle t8 {| tokens := 0; last := t7; lastHit := t7 |})
      as [Hd8 _]; [rl_arith ..|].
    destruct (admission t8 _) as [d8 b8]. simpl in Hd8.
    by exists d6, d8.
  - intros bs t t' Hadm Hgap bs1. subst bs1.
    rewrite (rateLimiter_chat t cid bs) in Hadm |- * by done.
    cbn [fst snd] in Hadm |- *.
    rewrite (rateLimiter_chat t') by done. rewrite bucketOf_insert.
    pose proof (admission_spec t (bucketOf t cid bs)) as Hs. cbv zeta in Hs.
    destruct (admission t (bucketOf t cid bs)) as [o b']. cbn [fst snd] in *.
    subst o.
    destruct Hs as [_ [(_ & _ & _ & _ & Hh) | [? _]]]; [|done].
    rewrite admission_gap by lia. done.
Qed.

(** The hypotheses of C3 hold for the chat 42 calling every 900 ms from
    1000 ms on. *)
Lemma C3_fresh_conversation_witness :
  (run (at_times 42 [1000; 1900; 2800; 3700; 4600]) ∅).1
    = [Next; Next; Next; Next; Next].
Proof.
  refine (proj1 (C3_fresh_conversation 42 1000 1900 2800 3700 4600 ∅
                   _ _ _ _ _ _ _));
    first [ done | apply lookup_empty | unfold MIN_GAP_MS; lia ].
Defined.

End RateLimiterProps.

(** ** TTL cache *)
Section TTLCacheProps.
Import Eff Eff.Notations TTLCache.
Context {T : Type}.
Implicit Types (store : gmap string (CacheEntry T)) (v : option T).

Lemma get_fresh key now store hit :
  store !! key = Some hit -> now <= expires hit ->
  get key now store = (value hit, store).
Proof.
  intros Hk Hn. unfold get. rewrite Hk.
  destruct (expires hit <? now) eqn:E; [apply Z.ltb_lt in E; lia|done].
Qed.

Lemma get_expired key now store hit :
  store !! key = Some hit -> expires hit < now ->
  get key now store = (None, delete key store).
Proof.
  intros Hk Hn. unfold get. rewrite Hk.
  destruct (expires hit <? now) eqn:E; [done|apply Z.ltb_ge in E; lia].
Qed.

Lemma get_other key key' now store :
  key' <> key -> (get key' now store).2 !! key = store !! key.
Proof.
  intros Hne. unfold get. destruct (store !! key') as [hit|]; [|done].
  destruct (expires hit <? now); [|done]. simpl. by apply lookup_delete_ne.
Qed.

(** An operation that keeps the entry of [key] leaves it in the store. *)
Lemma applyOp_keeps key hit op store :
  keeps key (expires hit) op -> store !! key = Some hit ->
  applyOp store op !! key = Some hit.
Proof.
  destruct op as [key' now|key' v' ttl' now]; simpl.
  - intros [Hne|Hle] Hk.
    + by rewrite get_other.
    + destruct (decide (key' = key)) as [->|Hne]; [|by rewrite get_other].
      by rewrite (get_fresh _ _ _ hit).
  - intros Hne Hk. unfold set. by rewrite lookup_insert_ne.
Qed.

Lemma applyOps_keeps key hit ops store :
  Forall (keeps key (expires hit)) ops -> store !! key = Some hit ->
  applyOps ops store !! key = Some hit.
Proof.
  unfold applyOps. revert store.
  induction ops as [|op ops IH]; intros store Hall Hk; [done|].
  inversion Hall; subst. simpl. apply IH; [done|]. by apply applyOp_keeps.
Qed.

(** C7. After [set(k, v, t)] at the instant [t0], and whatever other
    reads and writes of the cache follow that neither write [k] nor read
    it past its expiry: a [get(k)] no later than [t0 + t] returns [v] and
    leaves the store as it is; a [get(k)] strictly later returns
    [undefined] and removes the entry.  And whatever the store, a value
    returned by [get] comes from an entry whose expiry instant is not in
    the past. *)
Theorem C7_get_within_ttl
    (store : gmap string (CacheEntry T)) (k : string) (v : option T)
    (t t0 t1 : Z) (ops : list (Op T)) :
  Forall (keeps k (t0 + t)) ops ->
  let s1 := applyOps ops (set k v t t0 store) in
  (t1 <= t0 + t -> get k t1 s1 = (v, s1))
  /\ (t0 + t < t1 ->
      (get k t1 s1).1 = None /\ (get k t1 s1).2 !! k = None)
  /\ (forall (s : gmap string (CacheEntry T)) key now x,
        (get key now s).1 = Some x ->
        exists hit, s !! key = Some hit /\ value hit = Some x
                    /\ now <= expires hit).
Proof.
  intros Hops s1.
  assert (Hk : s1 !! k = Some {| value := v; expires := t0 + t |}).
  { apply applyOps_keeps; [done|]. unfold set. apply lookup_insert_eq. }
  split; [|split].
  - intros Hle. by rewrite (get_fresh _ _ _ _ Hk).
  - intros Hlt. rewrite (get_expired _ _ _ _ Hk) by done. simpl.
    split; [done|]. apply lookup_delete_eq.
  - intros s key now x. unfold get.
    destruct (s !! key) as [hit|]; [|done].
    destruct (expires hit <? now) eqn:E; [done|].
    apply Z.ltb_ge in E. simpl. intros Hx. by exists hit.
Qed.

End TTLCacheProps.

(** The hypothesis of C7 holds for a read of another key and an early
    read of the key itself. *)
Lemma C7_get_within_ttl_witness :
  let ops := [@TTLCache.OpGet nat "j" 9000; @TTLCache.OpGet nat "k" 1200] in
  let s1 := TTLCache.applyOps ops (TTLCache.set "k" (Some 7%nat) 1000 1000 ∅) in
  TTLCache.get "k" 1500 s1 = (Some 7%nat, s1).
Proof.
  intros ops s1.
  refine (proj1 (C7_get_within_ttl ∅ "k" (Some 7%nat) 1000 1000 1500 ops _) _).
  - constructor; [left; discriminate|].
    constructor; [right; simpl; lia|]. constructor.
  - lia.
Defined.

(** ** The compute-if-absent accessor *)
Section WithProps.
Import Eff Eff.Notations TTLCache.
Context {T W : Type} (Date_now : W -> Z).

(** Whenever [get] answers [undefined], [with] runs the producer. *)
Lemma with_undefined key fn ttlMs (s : St T W) :
  (get key (Date_now (world s)) (store s)).1 = None ->
  with_ Date_now key fn ttlMs s =
    storeFresh Date_now key fn ttlMs
      (mkSt (get key (Date_now (world s)) (store s)).2 (world s)).
Proof.
  intros H. unfold with_, bind at 1, getM.
  destruct (get key _ _) as [r st] eqn:E. simpl in H. subst r. done.
Qed.

(** An unexpired entry holding [undefined] is such a case, and the
    producer runs on the state as it is. *)
Lemma with_cached_undefined key fn ttlMs (s : St T W) hit :
  store s !! key = Some hit -> value hit = None ->
  Date_now (world s) <= expires hit ->
  with_ Date_now key fn ttlMs s = storeFresh Date_now key fn ttlMs s.
Proof.
  intros Hk Hv Hn.
  rewrite with_undefined; rewrite (get_fresh _ _ _ _ Hk Hn); [|done].
  simpl. by destruct s.
Qed.

(** An unexpired entry holding a value is served, and the producer is
    not run. *)
Lemma with_cached_value key fn ttlMs (s : St T W) hit x :
  store s !! key = Some hit -> value hit = Some x ->
  Date_now (world s) <= expires hit ->
  with_ Date_now key fn ttlMs s = (inr (Some x), s).
Proof.
  intros Hk Hv Hn. unfold with_, bind, getM.
  rewrite (get_fresh _ _ _ _ Hk Hn). rewrite Hv. unfold ret. by destruct s.
Qed.

(** When the producer resolves to [undefined], so does [with], and the
    entry it stores holds [undefined]. *)
Lemma storeFresh_undefined key fn ttlMs (s s1 : St T W) :
  fn s = (inr None, s1) ->
  storeFresh Date_now key fn ttlMs s =
    (inr None,
     mkSt (set key None ttlMs (Date_now (world s1)) (store s1)) (world s1)).
Proof. intros H. unfold storeFresh, bind, setM, ret. by rewrite H. Qed.

End WithProps.

Section PairDetailProps.
Import Eff Eff.Notations TTLCache Dexscreener.
Context {W : Type} (Date_now : W -> Z).
Context (http_get_pairs : string -> string -> M W (option (list DexPair))).

(** The producer of the pair lookup, when the upstream answers. *)
Lemma fetchPair_answer chainId pairAddress data (s : St DexPair W) w' :
  http_get_pairs chainId pairAddress (world s) = (inr data, w') ->
  storeFresh Date_now (pairKey chainId pairAddress)
    (liftW (fetchPair http_get_pairs chainId pairAddress)) 60000 s =
  (inr (head (default [] data)),
   mkSt (set (pairKey chainId pairAddress) (head (default [] data)) 60000
           (Date_now w') (store s)) w').
Proof.
  intros H. unfold storeFresh, bind, liftW, fetchPair, bind, setM, ret.
  by rewrite H.
Qed.

End PairDetailProps.

(** C10. If [get] serves nothing and the producer resolves to [undefined],
    [with] returns [undefined] and stores an entry holding [undefined].
    On any state holding such an entry for the key, expired or not, a call
    of [with] for that key does what it does on a miss: it runs the
    producer it is given on that state and stores its result, where an
    unexpired entry holding a value is returned without running the
    producer.  So it is with the pair-detail lookup: when the upstream
    lists no pair the lookup returns [undefined], and a later lookup of the
    same pair within the TTL sends the request again. *)
Theorem C10_cached_undefined_is_a_miss :
  (forall (T W : Type) (Date_now : W -> Z) (key : string)
          (fn : Eff.M (TTLCache.St T W) (option T)) (ttlMs : Z)
          (s s1 : TTLCache.St T W),
      (TTLCache.get key (Date_now (TTLCache.world s)) (TTLCache.store s)).1 = None ->
      fn (TTLCache.getM Date_now key s).2 = (inr None, s1) ->
      let s2 :=
        TTLCache.mkSt
          (TTLCache.set key None ttlMs (Date_now (TTLCache.world s1))
             (TTLCache.store s1))
          (TTLCache.world s1) in
      TTLCache.with_ Date_now key fn ttlMs s = (inr None, s2)
      /\ TTLCache.store s2 !! key
         = Some (TTLCache.mkEntry None (Date_now (TTLCache.world s1) + ttlMs)))
  /\ (forall (T W : Type) (Date_now : W -> Z) (key : string)
            (fn' : Eff.M (TTLCache.St T W) (option T)) (ttl' : Z)
            (s' : TTLCache.St T W) (hit : TTLCache.CacheEntry T),
        TTLCache.store s' !! key = Some hit ->
        TTLCache.value hit = None ->
        TTLCache.with_ Date_now key fn' ttl' s' =
          TTLCache.storeFresh Date_now key fn' ttl'
            (TTLCache.mkSt
               (TTLCache.get key (Date_now (TTLCache.world s')) (TTLCache.store s')).2
               (TTLCache.world s'))
        /\ (Date_now (TTLCache.world s') <= TTLCache.expires hit ->
            TTLCache.with_ Date_now key fn' ttl' s' =
              TTLCache.storeFresh Date_now key fn' ttl' s'))
  /\ (forall (T W : Type) (Date_now : W -> Z) (key : string)
            (fn' : Eff.M (TTLCache.St T W) (option T)) (ttl' : Z)
            (s' : TTLCache.St T W) (hit : TTLCache.CacheEntry T) (x : T),
        TTLCache.store s' !! key = Some hit ->
        TTLCache.value hit = Some x ->
        Date_now (TTLCache.world s') <= TTLCache.expires hit ->
        TTLCache.with_ Date_now key fn' ttl' s' = (inr (Some x), s'))
  /\ (forall (W : Type) (Date_now : W -> Z)
            (http_get_pairs :
               string -> string -> Eff.M W (option (list Dexscreener.DexPair)))
            (chainId pairAddress : string)
            (s : TTLCache.St Dexscreener.DexPair W) (w1 : W),
        let key := Dexscreener.pairKey chainId pairAddress in
        let lookup :=
          Dexscreener.getPairByChainAndAddress Date_now http_get_pairs
            chainId pairAddress in
        TTLCache.store s !! key = None ->
        (http_get_pairs chainId pairAddress (TTLCache.world s) = (inr None, w1)
         \/ http_get_pairs chainId pairAddress (TTLCache.world s)
            = (inr (Some []), w1)) ->
        let s1 :=
          TTLCache.mkSt
            (TTLCache.set key None 60000 (Date_now w1) (TTLCache.store s)) w1 in
        lookup s = (inr None, s1)
        /\ forall w2 data w3,
            let s' := TTLCache.mkSt (TTLCache.store s1) w2 in
            Date_now w2 <= Date_now w1 + 60000 ->
            http_get_pairs chainId pairAddress w2 = (inr data, w3) ->
            lookup s' =
              (inr (head (default [] data)),
               TTLCache.mkSt
                 (TTLCache.set key (head (default [] data)) 60000
                    (Date_now w3) (TTLCache.store s')) w3)).
Proof.
  split; [|split; [|split]].
  - intros T W Date_now key fn ttlMs s s1 Hget Hfn s2.
    rewrite with_undefined by done.
    unfold TTLCache.getM in Hfn.
    destruct (TTLCache.get key _ _) as [r st] eqn:E. simpl in *.
    rewrite (storeFresh_undefined _ _ _ _ _ s1 Hfn). split; [done|].
    subst s2. simpl. unfold TTLCache.set. apply lookup_insert_eq.
  - intros T W Date_now key fn' ttl' s' hit Hk Hv. split.
    + apply with_undefined. unfold TTLCache.get. rewrite Hk.
      by destruct (_ <? _).
    + intros Hn. by eapply with_cached_undefined.
  - intros T W Date_now key fn' ttl' s' hit x Hk Hv Hn.
    by eapply with_cached_value.
  - intros W Date_now http c a s w1 key lookup Hmiss Hhttp s1.
    subst key. split.
    + subst lookup s1. unfold Dexscreener.getPairByChainAndAddress.
      rewrite with_undefined; unfold TTLCache.get; rewrite Hmiss; [|done].
      destruct s as [st w]. cbn [fst snd TTLCache.world TTLCache.store] in *.
      destruct Hhttp as [H|H];
        by rewrite (fetchPair_answer Date_now http c a _ (TTLCache.mkSt st w) _ H).
    + intros w2 data w3 s' Hn Hd.
      subst lookup. unfold Dexscreener.getPairByChainAndAddress.
      rewrite (with_cached_undefined _ _ _ _ _
                 (TTLCache.mkEntry None (Date_now w1 + 60000)));
        [|unfold TTLCache.set; simpl; apply lookup_insert_eq|done|done].
      by rewrite (fetchPair_answer Date_now http c a _ s' _ Hd).
Qed.

(** The pair-detail lookup against an upstream that lists no pair and
    counts the requests it receives: two lookups 10 ms apart both return
    [undefined], and both reach the upstream. *)
Lemma C10_cached_undefined_is_a_miss_witness :
  let http (_ _ : string) (w : Z * nat)
    : (Eff.Err + option (list Dexscreener.DexPair)) * (Z * nat) :=
    (inr (Some []), (w.1 + 10, S w.2)) in
  let lookup := Dexscreener.getPairByChainAndAddress fst http "ethereum" "0xabc" in
  let s0 := TTLCache.mkSt ∅ (1000, 0%nat) in
  (lookup s0).1 = inr None
  /\ (lookup (lookup s0).2).1 = inr None
  /\ (TTLCache.world (lookup (lookup s0).2).2).2 = 2%nat.
Proof.
  intros http lookup s0.
  destruct (proj2 (proj2 (proj2 C10_cached_undefined_is_a_miss))
              (Z * nat)%type fst http "ethereum" "0xabc" s0 (1010, 1%nat)
              (lookup_empty _) (or_intror eq_refl)) as [H1 H2].
  fold lookup in H1, H2. rewrite H1. split; [done|].
  specialize (H2 (1010, 1%nat) (Some []) (1020, 2%nat)).
  cbv zeta in H2. cbn [fst snd TTLCache.store TTLCache.world] in H2 |- *.
  rewrite H2; [done | lia | done].
Defined.

(** ** Callback store *)
Section CbStoreProps.
Import CbStore.
Context {V : Type}.
Implicit Types (store : gmap string (Entry V)).

Lemma gc_lookup_Some now store id e :
  gc now store !! id = Some e <-> store !! id = Some e /\ now <= exp e.
Proof.
  unfold gc. rewrite map_lookup_filter_Some. simpl. split.
  - intros [? ?]. split; [done|lia].
  - intros [? ?]. split; [done|lia].
Qed.

Lemma gc_lookup_None now store id :
  store !! id = None -> gc now store !! id = None.
Proof.
  intros H. destruct (gc now store !! id) as [e|] eqn:E; [|done].
  apply gc_lookup_Some in E as [E _]. congruence.
Qed.

Lemma takePayload_other id id' now store :
  id' <> id ->
  (takePayload id' now store).2 !! id = gc now store !! id.
Proof.
  intros Hne. unfold takePayload.
  destruct (gc now store !! id'); simpl; [by apply lookup_delete_ne|done].
Qed.

Lemma cb_applyOp_keeps id e op store :
  keeps id (exp e) op -> store !! id = Some e ->
  applyOp store op !! id = Some e.
Proof.
  destruct op as [val ttl now draws|id' now]; simpl; intros [Hne Hle] Hk.
  - rewrite lookup_insert_ne by done. by apply gc_lookup_Some.
  - rewrite takePayload_other by done. by apply gc_lookup_Some.
Qed.

Lemma cb_applyOps_keeps id e ops store :
  Forall (keeps id (exp e)) ops -> store !! id = Some e ->
  applyOps ops store !! id = Some e.
Proof.
  unfold applyOps. revert store.
  induction ops as [|op ops IH]; intros store Hall Hk; [done|].
  inversion Hall; subst. simpl. apply IH; [done|]. by apply cb_applyOp_keeps.
Qed.

Lemma cb_applyOp_noClash id op store :
  noClash id op -> store !! id = None -> applyOp store op !! id = None.
Proof.
  destruct op as [val ttl now draws|id' now]; simpl; intros Hne Hk.
  - rewrite lookup_insert_ne by done. by apply gc_lookup_None.
  - unfold takePayload.
    destruct (gc now store !! id') eqn:E; simpl.
    + destruct (decide (id' = id)) as [->|Hd].
      * apply lookup_delete_eq.
      * rewrite lookup_delete_ne by done. by apply gc_lookup_None.
    + by apply gc_lookup_None.
Qed.

Lemma cb_applyOps_noClash id ops store :
  Forall (noClash id) ops -> store !! id = None ->
  applyOps ops store !! id = None.
Proof.
  unfold applyOps. revert store.
  induction ops as [|op ops IH]; intros store Hall Hk; [done|].
  inversion Hall; subst. simpl. apply IH; [done|]. by apply cb_applyOp_noClash.
Qed.

(** C8. Let [putPayload(p, ttl)] at the instant [t0] return [id].  After
    any calls of the store that happen before the expiry and neither draw
    nor take [id], the first [takePayload(id)], made no later than
    [t0 + ttl], returns [p] and leaves no entry under [id]; after that,
    and after any further calls that do not draw [id] again, a
    [takePayload(id)] at any instant returns [null]. *)
Theorem C8_take_once
    (store : gmap string (Entry V)) (p : V) (ttl t0 : Z) (draws : list nat)
    (ops1 ops2 : list (Op V)) (t1 t2 : Z) :
  let id := (putPayload p ttl t0 draws store).1 in
  let s0 := (putPayload p ttl t0 draws store).2 in
  Forall (keeps id (t0 + ttl)) ops1 ->
  t1 <= t0 + ttl ->
  Forall (noClash id) ops2 ->
  let first := takePayload id t1 (applyOps ops1 s0) in
  let second := takePayload id t2 (applyOps ops2 first.2) in
  first.1 = Some p /\ first.2 !! id = None
  /\ second.1 = None /\ second.2 !! id = None.
Proof.
  intros id s0 Hops1 Ht1 Hops2 first second.
  assert (Hs0 : applyOps ops1 s0 !! id = Some {| v := p; exp := t0 + ttl |}).
  { apply cb_applyOps_keeps; [done|]. subst s0 id. simpl. apply lookup_insert_eq. }
  assert (Hf : first = (Some p, delete id (gc t1 (applyOps ops1 s0)))).
  { subst first. unfold takePayload.
    assert (gc t1 (applyOps ops1 s0) !! id = Some {| v := p; exp := t0 + ttl |})
      as -> by (by apply gc_lookup_Some).
    done. }
  subst second. rewrite Hf. cbn [fst snd].
  split; [done|]. split; [apply lookup_delete_eq|].
  assert (Hs1 : applyOps ops2 (delete id (gc t1 (applyOps ops1 s0))) !! id = None).
  { apply cb_applyOps_noClash; [done|]. apply lookup_delete_eq. }
  unfold takePayload. rewrite (gc_lookup_None _ _ _ Hs1). cbn [fst snd].
  split; [done|]. by apply gc_lookup_None.
Qed.

End CbStoreProps.

(** The hypotheses of C8 hold when another payload is stored and taken in
    between under another identifier. *)
Lemma C8_take_once_witness :
  let id := CbStore.randomId [0; 1; 2; 3; 4; 5; 6; 7; 8; 9; 10; 11]%nat in
  let other := [26; 27; 28; 29; 30; 31; 32; 33; 34; 35; 36; 37]%nat in
  let s0 := (CbStore.putPayload 7%nat CbStore.TTL_MS 1000 [0; 1; 2; 3; 4; 5; 6; 7; 8; 9; 10; 11]%nat ∅).2 in
  let ops1 := [CbStore.OpPut 8%nat CbStore.TTL_MS 2000 other;
               CbStore.OpTake (V:=nat) (CbStore.randomId other) 3000] in
  let first := CbStore.takePayload id 4000 (CbStore.applyOps ops1 s0) in
  first.1 = Some 7%nat
  /\ (CbStore.takePayload id 5000 first.2).1 = None.
Proof.
  intros id other s0 ops1 first.
  destruct (C8_take_once ∅ 7%nat CbStore.TTL_MS 1000
              [0; 1; 2; 3; 4; 5; 6; 7; 8; 9; 10; 11]%nat ops1 [] 4000 5000)
    as (H1 & _ & H2 & _).
  - constructor; [split; [vm_compute; discriminate | vm_compute; discriminate]|].
    constructor; [split; [vm_compute; discriminate | vm_compute; discriminate]|].
    constructor.
  - vm_compute. discriminate.
  - constructor.
  - split; [exact H1 | exact H2].
Defined.

(** ** Sorting with a comparator *)
Section SortProps.
Import JS.
Context {A : Type} (le : A -> A -> bool).
Hypothesis le_total : forall a b, le a b = true \/ le b a = true.
Hypothesis le_trans : forall a b c, le a b = true -> le b c = true -> le a c = true.

Lemma insert_sorted_perm x (l : list A) : insert_sorted le x l ≡ₚ x :: l.
Proof.
  induction l as [|y l IH]; simpl; [done|].
  destruct (le x y); [done|]. rewrite IH. apply Permutation_swap.
Qed.

Lemma sort_perm (l : list A) : sort le l ≡ₚ l.
Proof.
  induction l as [|x l IH]; simpl; [done|].
  rewrite insert_sorted_perm. by rewrite IH.
Qed.

Lemma insert_sorted_head_least x (l : list A) :
  head_least le l -> head_least le (insert_sorted le x l).
Proof.
  destruct l as [|y l]; simpl.
  - intros _. constructor; [|constructor]. by destruct (le_total x x).
  - intros Hy. destruct (le x y) eqn:E; simpl.
    + constructor; [by destruct (le_total x x)|].
      eapply Forall_impl; [exact Hy|]. simpl. intros z Hz. by eapply le_trans.
    + assert (Hyx : le y x = true) by (destruct (le_total x y); congruence).
      inversion Hy as [|? ? Hyy Hl]; subst.
      constructor; [done|].
      rewrite insert_sorted_perm. by constructor.
Qed.

Lemma sort_head_least (l : list A) : head_least le (sort le l).
Proof.
  induction l as [|x l IH]; simpl; [done|]. by apply insert_sorted_head_least.
Qed.

(** [sorted[0]] is an element of the array and is below all of them. *)
Lemma sort_head (l : list A) h t :
  sort le l = h :: t ->
  h ∈ l /\ forall x, x ∈ l -> le h x = true.
Proof.
  intros Hs. pose proof (sort_head_least l) as Hl. rewrite Hs in Hl.
  simpl in Hl. split.
  - rewrite <- (sort_perm l), Hs. by left.
  - intros x Hx. rewrite <- (sort_perm l), Hs in Hx.
    by eapply Forall_forall in Hl.
Qed.

Lemma sort_nil_inv (l : list A) : sort le l = [] -> l = [].
Proof.
  intros Hs. apply Permutation_nil_r. by rewrite <- Hs, sort_perm.
Qed.

End SortProps.

(** ** CoinGecko client *)
Section CoinGeckoProps.
Import Eff Eff.Notations JS CoinGecko.
Context {CM : CaseMapping} {W : Type}.
Context (http_get_search : string -> M W (option (list SearchCoin))).
Context (http_get_markets : string -> M W (list (option Market))).
Context (http_get_coin : string -> M W (option Full)).
Context (sleep : Z -> W -> W).

Lemma isExact_spec sym c :
  isExact sym c = true <-> exists s, sc_symbol c = Some s /\ toLowerCase s = sym.
Proof.
  unfold isExact. destruct (sc_symbol c) as [s|].
  - rewrite bool_decide_eq_true. split; [by exists s|]. by intros (? & [= <-] & ?).
  - split; [done|]. by intros (? & ? & ?).
Qed.

Lemma candidatesOf_exact sym coins :
  (exists c, c ∈ coins /\ isExact sym c = true) ->
  candidatesOf sym coins = filter (fun c => isExact sym c = true) coins
  /\ candidatesOf sym coins <> [].
Proof.
  intros (c & Hc & He). unfold candidatesOf.
  assert (Hin : c ∈ filter (fun c => isExact sym c = true) coins)
    by (by apply list_elem_of_filter).
  destruct (filter _ coins); [by apply elem_of_nil in Hin|done].
Qed.

Lemma candidatesOf_none sym coins :
  (forall c, c ∈ coins -> isExact sym c = false) ->
  candidatesOf sym coins = coins.
Proof.
  intros Hnone. unfold candidatesOf.
  destruct (filter _ coins) as [|c l] eqn:E; [done|].
  assert (Hin : c ∈ filter (fun c => isExact sym c = true) coins)
    by (rewrite E; left).
  apply list_elem_of_filter in Hin as [He Hc]. rewrite (Hnone c Hc) in He. done.
Qed.

(** The winner is an element of the response and no element has a
    smaller sort rank. *)
Lemma pickBestByMarketCap_Some markets best :
  pickBestByMarketCap markets = Some best ->
  Some best ∈ markets
  /\ forall m, Some m ∈ markets ->
       rankKey (m_market_cap_rank best) <= rankKey (m_market_cap_rank m).
Proof.
  unfold pickBestByMarketCap. intros H.
  apply head_Some in H as [rest H].
  apply sort_head in H as [Hin Hle].
  - split.
    + apply list_elem_of_omap in Hin as (o & Ho & ->). done.
    + intros m Hm. specialize (Hle m).
      rewrite Z.leb_le in Hle. apply Z.le_sub_0, Hle.
      apply list_elem_of_omap. by exists (Some m).
  - intros a b. rewrite !Z.leb_le. lia.
  - intros a b c. rewrite !Z.leb_le. lia.
Qed.

Lemma pickBestByMarketCap_None markets :
  pickBestByMarketCap markets = None -> forall m, Some m ∉ markets.
Proof.
  unfold pickBestByMarketCap. intros H m Hm.
  destruct (sort _ _) as [|h t] eqn:E; [|done].
  apply sort_nil_inv in E.
  assert (m ∈ omap (fun c => c) markets)
    by (apply list_elem_of_omap; by exists (Some m)).
  rewrite E in H0. by apply elem_of_nil in H0.
Qed.

(** The bound on the ranks that C5 asks for: a coin without a rank sorts
    as rank 10^9, so it would come before a coin ranked beyond 10^9.
    Ranks are positions in the list of coins and stay far below. *)
Remark pickBestByMarketCap_beyond_sentinel :
  pickBestByMarketCap [Some Scenario.rankedFar; Some Scenario.unranked]
    = Some Scenario.unranked
  /\ m_market_cap_rank Scenario.rankedFar = Some 2000000000
  /\ m_market_cap_rank Scenario.unranked = None.
Proof. split; [reflexivity|]. split; reflexivity. Qed.


Lemma retryable_spec e :
  retryable e = true <->
  exists st, status e = Some st /\ (st = 429 \/ 500 <= st).
Proof.
  unfold retryable. destruct (status e) as [st|].
  - rewrite orb_true_iff, andb_true_iff, negb_true_iff, Z.eqb_eq, Z.eqb_neq,
      Z.leb_le.
    split.
    + intros H. exists st. split; [done|]. lia.
    + intros (? & [= <-] & H). lia.
  - split; [done|]. by intros (? & ? & ?).
Qed.

(** C6. A live fetch that succeeds is returned as it is.  A live fetch
    that fails with status 429 or a status of at least 500 is followed,
    after a sleep of 400 ms, by one more live fetch, and the outcome of
    that one, success or failure, is the outcome of the call: nothing runs
    after it.  A live fetch that fails otherwise (another status, or no
    status) is the failure of the call, with no further fetch. *)
Theorem C6_retry_once (sym : string) (w : W) :
  let doFetch := doFetch http_get_search http_get_markets http_get_coin in
  let fetch :=
    fetchFromCoinGecko http_get_search http_get_markets http_get_coin sleep in
  (forall v w1, doFetch sym w = (inr v, w1) -> fetch sym w = (inr v, w1))
  /\ (forall e w1 st,
        doFetch sym w = (inl e, w1) ->
        status e = Some st -> st = 429 \/ 500 <= st ->
        fetch sym w = doFetch sym (sleep 400 w1)
        /\ (forall v w2, doFetch sym (sleep 400 w1) = (inr v, w2) ->
               fetch sym w = (inr v, w2))
        /\ (forall e2 w2, doFetch sym (sleep 400 w1) = (inl e2, w2) ->
               fetch sym w = (inl e2, w2)))
  /\ (forall e w1,
        doFetch sym w = (inl e, w1) ->
        (status e = None
         \/ exists st, status e = Some st /\ st <> 429 /\ st < 500) ->
        fetch sym w = (inl e, w1)).
Proof.
  intros doFetch0 fetch. subst fetch. unfold fetchFromCoinGecko, try_catch.
  fold doFetch0. split; [|split].
  - intros v w1 ->. done.
  - intros e w1 st -> Hst Hcase.
    assert (retryable e = true) as -> by (apply retryable_spec; eauto).
    split; [done|]. split; by intros ? ? ->.
  - intros e w1 -> Hcase.
    assert (retryable e = false) as ->; [|done].
    apply not_true_iff_false. rewrite retryable_spec.
    intros (st & Hst & H). destruct Hcase as [Hn|(st' & Hst' & ? & ?)].
    + congruence.
    + assert (st' = st) by congruence. lia.
Qed.

End CoinGeckoProps.

(** A fetch that fails once with 429 and then succeeds returns the result
    of the second fetch; the upstream has seen two searches. *)
Lemma C6_retry_once_witness :
  let fetch :=
    CoinGecko.fetchFromCoinGecko (CM := JS.asciiCaseMapping)
      Scenario.flakySearch Scenario.steadyMarkets Scenario.steadyCoin
      (fun _ n => n) in
  exists info, fetch "btc" 0%nat = (inr info, 2%nat)
               /\ CoinGecko.id info = "bitcoin".
Proof.
  intros fetch.
  destruct (C6_retry_once (CM := JS.asciiCaseMapping)
              Scenario.flakySearch Scenario.steadyMarkets
              Scenario.steadyCoin (fun _ n => n)
              "btc" 0%nat) as (_ & Hretry & _).
  destruct (Hretry (Eff.mkErr (Some 429) "Too Many Requests") 1%nat 429
              eq_refl eq_refl (or_introl eq_refl)) as (Heq & _ & _).
  eexists. subst fetch. rewrite Heq. split; reflexivity.
Defined.


(** ** Contract resolver *)
Section ResolverProps.
Import Eff Eff.Notations JS Dexscreener Resolver.
Context {CM : CaseMapping} {S : Type}.
Context (searchDexPairs : string -> Z -> M S (list DexPair)).
Context (getPairByChainAndAddress : string -> string -> M S (option DexPair)).
Context (http_get_search : string -> M S (option (list Coin))).
Context (http_get_coin : string -> M S (option (gmap string string))).

Lemma tryPairDetail_barren p s :
  pairDetailBarren getPairByChainAndAddress ->
  exists s', tryPairDetail getPairByChainAndAddress p s = (inr None, s').
Proof.
  intros Hb. unfold tryPairDetail.
  destruct (pairAddress p) as [pa|]; [|by eexists].
  destruct (chainId p) as [ch|]; [|by eexists].
  destruct (truthy (Some pa) && truthy (Some ch)); [|by eexists].
  unfold try_catch, bind, ret. specialize (Hb ch pa s).
  destruct (getPairByChainAndAddress ch pa s) as [[e|detail] s'];
    simpl in Hb; [by eexists|].
  rewrite Hb. by eexists.
Qed.

Lemma pairDetailLoop_barren pairs s :
  pairDetailBarren getPairByChainAndAddress ->
  exists s', pairDetailLoop getPairByChainAndAddress pairs s = (inr None, s').
Proof.
  intros Hb. revert s. induction pairs as [|p rest IH]; intros s.
  - by eexists.
  - simpl. unfold bind.
    destruct (tryPairDetail_barren p s Hb) as [s' ->]. apply IH.
Qed.

Lemma coingeckoStage_barren q s :
  aggregatorBarren http_get_search http_get_coin q ->
  exists s', coingeckoStage http_get_search http_get_coin q s = (inr None, s').
Proof.
  intros Hb. specialize (Hb s). unfold coingeckoStage, try_catch, bind, ret.
  destruct (http_get_search q s) as [[e|search] s1]; [by eexists|].
  destruct (sort _ (default [] search)) as [|top rest]; [by eexists|].
  destruct (http_get_coin (c_id top) s1) as [[e|platforms] s2];
    simpl in Hb; [by eexists|].
  rewrite Hb. by eexists.
Qed.

(** The comparator of the DEX stage puts [a] first exactly when [a] has
    the better quote class, or the same class and no less liquidity. *)
Lemma comparePairs_le a b :
  Qle_bool (comparePairs a b) 0 = true <->
  (goodQuote a = true /\ goodQuote b = false)
  \/ (goodQuote a = goodQuote b /\ (liquidity b <= liquidity a)%Q).
Proof.
  unfold comparePairs, quoteScore.
  destruct (goodQuote a), (goodQuote b); simpl.
  - change (Qeq_bool (1 - 1) 0) with true. cbv iota.
    rewrite Qle_bool_iff. split.
    + intros H. right. split; [done|]. lra.
    + intros [[_ ?]|[_ H]]; [done|]. lra.
  - change (Qeq_bool (0 - 1) 0) with false. cbv iota.
    split; [by left|done].
  - change (Qeq_bool (1 - 0) 0) with false. cbv iota.
    split; [done|]. intros [[? _]|[? _]]; done.
  - change (Qeq_bool (0 - 0) 0) with true. cbv iota.
    rewrite Qle_bool_iff. split.
    + intros H. right. split; [done|]. lra.
    + intros [[? _]|[_ H]]; [done|]. lra.
Qed.

Lemma comparePairs_total a b :
  Qle_bool (comparePairs a b) 0 = true \/ Qle_bool (comparePairs b a) 0 = true.
Proof.
  rewrite !comparePairs_le.
  destruct (goodQuote a), (goodQuote b); try tauto.
  - destruct (Qlt_le_dec (liquidity a) (liquidity b)) as [H|H].
    + right. right. split; [done|]. lra.
    + left. right. done.
  - destruct (Qlt_le_dec (liquidity a) (liquidity b)) as [H|H].
    + right. right. split; [done|]. lra.
    + left. right. done.
Qed.

Lemma comparePairs_trans a b c :
  Qle_bool (comparePairs a b) 0 = true ->
  Qle_bool (comparePairs b c) 0 = true ->
  Qle_bool (comparePairs a c) 0 = true.
Proof.
  rewrite !comparePairs_le.
  destruct (goodQuote a), (goodQuote b), (goodQuote c);
    intros [[? ?]|[? H1]] [[? ?]|[? H2]]; try done;
    first [ by left | right; split; [done|lra] ].
Qed.

(** The candidate the DEX stage selects: it is one of the results with a
    valid base address, and no other such result ranks before it. *)
Lemma rankedWithAddr_head pairs best rest :
  rankedWithAddr pairs = best :: rest ->
  best ∈ pairs /\ hasAddr best = true
  /\ forall c, c ∈ pairs -> hasAddr c = true ->
       (goodQuote c = true -> goodQuote best = true)
       /\ (goodQuote c = goodQuote best -> (liquidity c <= liquidity best)%Q).
Proof.
  unfold rankedWithAddr. intros H.
  apply sort_head in H as [Hin Hle];
    [|apply comparePairs_total|apply comparePairs_trans].
  apply list_elem_of_filter in Hin as [Hb Hin].
  split; [done|]. split; [done|].
  intros c Hc Hca.
  assert (Hc' : c ∈ filter (fun p => hasAddr p = true) pairs)
    by (by apply list_elem_of_filter).
  specialize (Hle c Hc'). apply comparePairs_le in Hle.
  destruct Hle as [[Hg1 Hg2]|[Hg Hl]].
  - split; [done|]. intros Heq. congruence.
  - split; [congruence|done].
Qed.

Lemma rankedWithAddr_nil pairs :
  (forall p, p ∈ pairs -> hasAddr p = false) -> rankedWithAddr pairs = [].
Proof.
  intros H. unfold rankedWithAddr.
  assert (filter (fun p => hasAddr p = true) pairs = []) as ->; [|done].
  destruct (filter _ pairs) as [|p l] eqn:E; [done|].
  assert (Hin : p ∈ filter (fun p => hasAddr p = true) pairs) by (rewrite E; left).
  apply list_elem_of_filter in Hin as [Hp Hin]. rewrite (H p Hin) in Hp. done.
Qed.

Lemma source_tag_not_direct src : source_tag src <> "direct"%string.
Proof. by destruct src. Qed.

Lemma baseAddress_Some p a :
  baseAddress p = Some a <-> baseToken p ≫= address = Some a /\ isAddress a = true.
Proof.
  unfold baseAddress. destruct (baseToken p ≫= address) as [a0|].
  - destruct (isAddress a0) eqn:E.
    + split; [by intros [= <-]|by intros [[= <-] _]].
    + split; [done|]. intros [[= <-] ?]. congruence.
  - split; [done|]. by intros [? _].
Qed.

Lemma goodQuote_spec p :
  goodQuote p = true <->
  toUpperCase (default EmptyString (quoteToken p ≫= symbol))
    ∈ ["USDC"; "USDT"; "WETH"; "WBNB"; "BUSD"; "WBTC"]%string.
Proof. unfold goodQuote, GOOD_QUOTES. apply bool_decide_eq_true. Qed.

(** C1 as stated fails on the source: the lower-case WBTC address is
    resolved with the source ["dex"], the one the DEX stage gives, and no
    value of the source type is written ["direct"]. *)
Lemma C1_counterexample :
  exists r,
    Stub.resolve (CM := asciiCaseMapping) Stub.allFail
      "0x2260fac5e5542a773aa44fbcfedf7c193bc2c599" []
      = (inr (Some r), [])
    /\ source_tag (r_source r) = "dex"%string
    /\ source_tag (r_source r) <> "direct"%string.
Proof. eexists. split; [reflexivity|]. split; [reflexivity|discriminate]. Qed.

(** C1, amended.  When the query, trimmed of the white space around it
    (ASCII or not) and lower-cased, is [0x] followed by 40 hexadecimal
    digits, the resolver returns that string as the address, with the
    source [dex] and no note, and leaves the state as it is whatever the
    clients are: no client is called. *)
Theorem C1_direct_address (query : string) (s : S) :
  let q := toLowerCase (trim query) in
  isAddress q = true ->
  resolveContractFromQuery searchDexPairs getPairByChainAndAddress
    http_get_search http_get_coin query s
  = (inr (Some (mkResult (Some q) dex None)), s).
Proof.
  intros q Hq. unfold resolveContractFromQuery. fold q. by rewrite Hq.
Qed.

(** C4. When the query is no address and the DEX search returns [pairs]
    with at least one result [c] whose base-token address is valid, the
    resolver returns, with the source [dex], the base-token address of a
    result [best] of the search, itself valid, such that: if the quote
    symbol of [c], upper-cased, is one of USDC, USDT, WETH, WBNB, BUSD and
    WBTC, so is that of [best], whatever the liquidities, hence a result
    with an unrecognized quote is not the one selected; and if [c] and
    [best] are in the same class, [c] has no more liquidity in USD
    (counted as 0 when missing) than [best]. *)
Theorem C4_quote_before_liquidity
    (query : string) (s s1 : S) (pairs : list DexPair) (c : DexPair) :
  let q := toLowerCase (trim query) in
  let recognized (p : DexPair) : Prop :=
    toUpperCase (default EmptyString (quoteToken p ≫= symbol))
      ∈ ["USDC"; "USDT"; "WETH"; "WBNB"; "BUSD"; "WBTC"]%string in
  let liquidityUsd (p : DexPair) : Q := default 0%Q (liquidity_usd p) in
  isAddress q = false ->
  searchDexPairs q 8 s = (inr pairs, s1) ->
  c ∈ pairs ->
  (exists a, baseToken c ≫= address = Some a /\ isAddress a = true) ->
  exists best addr,
    best ∈ pairs
    /\ baseToken best ≫= address = Some addr /\ isAddress addr = true
    /\ resolveContractFromQuery searchDexPairs getPairByChainAndAddress
         http_get_search http_get_coin query s
       = (inr (Some (mkResult (Some addr) dex None)), s1)
    /\ (recognized c -> recognized best)
    /\ (forall c', recognized c -> ~ recognized c' -> best <> c')
    /\ ((recognized c <-> recognized best) ->
        (liquidityUsd c <= liquidityUsd best)%Q).
Proof.
  intros q recognized liquidityUsd Hq Hsearch Hc (a & Ha & Hva).
  assert (Hca : hasAddr c = true).
  { unfold hasAddr. apply bool_decide_eq_true. exists a.
    apply baseAddress_Some. done. }
  destruct (rankedWithAddr pairs) as [|best rest] eqn:E.
  { unfold rankedWithAddr in E. apply sort_nil_inv in E.
    assert (Hin : c ∈ filter (fun p => hasAddr p = true) pairs)
      by (by apply list_elem_of_filter).
    rewrite E in Hin. by apply elem_of_nil in Hin. }
  destruct (rankedWithAddr_head _ _ _ E) as (Hin & Hb & Hrank).
  destruct (Hrank c Hc Hca) as [Hgood Hliq].
  assert (Haddr : is_Some (baseAddress best)).
  { unfold hasAddr in Hb. by apply bool_decide_eq_true in Hb. }
  destruct Haddr as [addr Haddr]. apply baseAddress_Some in Haddr as [Haddr Hvalid].
  exists best, addr. split; [done|]. split; [done|]. split; [done|].
  assert (Hrec : forall p, recognized p <-> goodQuote p = true).
  { intros p. symmetry. apply goodQuote_spec. }
  split; [|split; [|split]].
  - unfold resolveContractFromQuery. fold q. rewrite Hq.
    unfold bind. rewrite Hsearch, E, Haddr. done.
  - rewrite !Hrec. done.
  - intros c' Hg Hg' ->. apply Hg'. apply Hrec, Hgood, Hrec, Hg.
  - rewrite !Hrec. intros Hsame. apply Hliq.
    destruct (goodQuote c), (goodQuote best); try done.
    + symmetry. by apply Hsame.
    + by apply Hsame.
Qed.

(** C2 as stated fails twice.  When every client throws, the failure of
    the DEX search is the outcome of the resolution of ["btc"]: the search
    is the one call made and its error is propagated.  And when the search
    lists nothing and the other clients throw, the result carries the
    source ["special"], not ["static-mapping"]. *)
Lemma C2_counterexample :
  Stub.resolve (CM := asciiCaseMapping) Stub.allFail "btc" []
    = (inl Stub.unavailable, [Stub.CallSearchDexPairs "btc" 8])
  /\ exists r,
       (Stub.resolve (CM := asciiCaseMapping) (Stub.searchOnly []) "btc" []).1
         = inr (Some r)
       /\ source_tag (r_source r) = "special"%string
       /\ source_tag (r_source r) <> "static-mapping"%string.
Proof.
  split; [reflexivity|].
  eexists. split; [reflexivity|]. split; [reflexivity|discriminate].
Qed.

(** C2, amended.  When the DEX search for ["btc"] returns results none of
    which has a valid base address, the pair-detail client never yields a
    valid base address (it throws or finds none) and the aggregator never
    yields a valid address (its requests throw or list none), the resolver
    returns the WBTC address with the source [special], written
    ["special"], and the note ["Mapped to WBTC (Ethereum)"]: no failure
    and no absent result. *)
Theorem C2_btc_static_mapping (s s1 : S) (pairs : list DexPair) :
  searchDexPairs "btc" 8 s = (inr pairs, s1) ->
  (forall p, p ∈ pairs -> hasAddr p = false) ->
  pairDetailBarren getPairByChainAndAddress ->
  aggregatorBarren http_get_search http_get_coin "btc" ->
  (resolveContractFromQuery searchDexPairs getPairByChainAndAddress
     http_get_search http_get_coin "btc" s).1
  = inr (Some (mkResult (Some "0x2260FAC5E5542a773Aa44fBCfeDf7C193bc2C599"%string)
                 special (Some "Mapped to WBTC (Ethereum)"%string)))
  /\ source_tag special = "special"%string.
Proof.
  intros Hsearch Hnone Hpair Hagg. split; [|done].
  unfold resolveContractFromQuery.
  change (toLowerCase (trim "btc")) with "btc"%string.
  change (isAddress "btc") with false. cbv iota.
  unfold bind at 1. rewrite Hsearch. rewrite (rankedWithAddr_nil _ Hnone).
  unfold bind at 1.
  destruct (pairDetailLoop_barren pairs s1 Hpair) as [s2 ->].
  unfold bind at 1.
  destruct (coingeckoStage_barren "btc" s2 Hagg) as [s3 ->].
  reflexivity.
Qed.

End ResolverProps.

(** The hypothesis of C1 holds for the WBTC address written in mixed case
    after a no-break space and before a space; the stub clients record no
    call. *)
Lemma C1_direct_address_witness :
  Resolver.Stub.resolve (CM := JS.asciiCaseMapping) Resolver.Stub.allFail
    (Scenario.nbsp ++ "0x2260FAC5E5542a773Aa44fBCfeDf7C193bc2C599 ") []
  = (inr (Some (Resolver.mkResult
                  (Some "0x2260fac5e5542a773aa44fbcfedf7c193bc2c599"%string)
                  Resolver.dex None)), []).
Proof.
  exact (C1_direct_address (CM := JS.asciiCaseMapping) _ _ _ _
           (Scenario.nbsp ++ "0x2260FAC5E5542a773Aa44fBCfeDf7C193bc2C599 ")
           [] eq_refl).
Defined.

(** The hypotheses of C4 hold for a search that lists the pool against an
    unknown token, with the larger liquidity, before the pool against
    USDC: the base address of the USDC pool is returned. *)
Lemma C4_quote_before_liquidity_witness :
  (Resolver.Stub.resolve (CM := JS.asciiCaseMapping)
     (Resolver.Stub.searchOnly [Scenario.xyzPool; Scenario.usdcPool]) "pepe" []).1
  = inr (Some (Resolver.mkResult (Some Scenario.tokenAddr) Resolver.dex None)).
Proof.
  destruct (C4_quote_before_liquidity (CM := JS.asciiCaseMapping)
              (fun q limit log =>
                 (inr [Scenario.xyzPool; Scenario.usdcPool],
                  Resolver.Stub.CallSearchDexPairs q limit :: log))
              (fun ch pa log =>
                 (inl Resolver.Stub.unavailable, Resolver.Stub.CallGetPair ch pa :: log))
              (fun q log =>
                 (inl Resolver.Stub.unavailable, Resolver.Stub.CallHttpSearch q :: log))
              (fun id log =>
                 (inl Resolver.Stub.unavailable, Resolver.Stub.CallHttpCoin id :: log))
              "pepe" [] [Resolver.Stub.CallSearchDexPairs "pepe" 8]
              [Scenario.xyzPool; Scenario.usdcPool] Scenario.usdcPool
              eq_refl eq_refl)
    as (best & addr & Hin & Haddr & _ & Hres & Hgood & _).
  - right. left.
  - exists Scenario.tokenAddr. split; reflexivity.
  - refine (eq_trans (f_equal fst Hres) _). cbn [fst].
    f_equal. f_equal. f_equal. f_equal.
    apply elem_of_cons in Hin as [->|Hin].
    + exfalso. assert (Hrec : JS.toUpperCase (CM := JS.asciiCaseMapping) "USDC"
                        ∈ ["USDC"; "USDT"; "WETH"; "WBNB"; "BUSD"; "WBTC"]%string)
        by left.
      specialize (Hgood Hrec). vm_compute in Hgood.
      repeat (apply elem_of_cons in Hgood as [Hgood|Hgood];
              [discriminate Hgood|]).
      by apply elem_of_nil in Hgood.
    + apply elem_of_cons in Hin as [->|Hin].
      * vm_compute in Haddr. injection Haddr as <-. reflexivity.
      * by apply elem_of_nil in Hin.
Defined.

(** The hypotheses of C2 hold when the DEX search lists nothing and every
    other client throws. *)
Lemma C2_btc_static_mapping_witness :
  (Resolver.Stub.resolve (CM := JS.asciiCaseMapping)
     (Resolver.Stub.searchOnly []) "btc" []).1
  = inr (Some (Resolver.mkResult
                 (Some "0x2260FAC5E5542a773Aa44fBCfeDf7C193bc2C599"%string)
                 Resolver.special (Some "Mapped to WBTC (Ethereum)"%string))).
Proof.
  refine (proj1 (C2_btc_static_mapping (CM := JS.asciiCaseMapping)
                   (fun q limit log =>
                      (inr [], Resolver.Stub.CallSearchDexPairs q limit :: log))
                   (fun ch pa log =>
                      (inl Resolver.Stub.unavailable,
                       Resolver.Stub.CallGetPair ch pa :: log))
                   (fun q log =>
                      (inl Resolver.Stub.unavailable,
                       Resolver.Stub.CallHttpSearch q :: log))
                   (fun id log =>
                      (inl Resolver.Stub.unavailable,
                       Resolver.Stub.CallHttpCoin id :: log))
                   [] [Resolver.Stub.CallSearchDexPairs "btc" 8] []
                   eq_refl _ _ _)).
  - intros p Hp. by apply elem_of_nil in Hp.
  - intros ch pa log. exact I.
  - intros log. exact I.
Defined.

(** * Further properties of the code *)

(** ** Settings *)
Section SettingsProps.
Import JS Settings.
Context {CM : CaseMapping}.

Lemma getSettings_valid chatId store :
  (forall k s, store !! k = Some s -> valid s) ->
  valid (getSettings chatId store).
Proof.
  intros H. unfold getSettings. destruct (store !! chatId) eqn:E; [by eapply H|].
  split; [done|]. exists "auto"%string. split; [done|]. unfold PROVIDERS. set_solver.
Qed.

Lemma runCommand_valid store c :
  (forall k s, store !! k = Some s -> valid s) ->
  forall k s, runCommand store c !! k = Some s -> valid s.
Proof.
  intros H k s. destruct c as [chatId text|chatId text]; simpl.
  - unfold setchain. destruct (commandArg text) as [arg|]; [|by apply H].
    destruct (truthy (Some arg) && bool_decide (arg ∈ CHAINS)) eqn:E;
      [|by apply H].
    apply andb_true_iff in E as [_ E]. apply bool_decide_eq_true in E.
    simpl. rewrite lookup_insert. case_decide; [|by apply H].
    intros [= <-]. destruct (getSettings_valid chatId store H) as [_ Hp].
    split; [|done]. simpl. by intros c [= <-].
  - unfold providerCommand. destruct (commandArg text) as [arg|]; [|by apply H].
    destruct (truthy (Some arg) && bool_decide (arg ∈ PROVIDERS)) eqn:E;
      [|by apply H].
    apply andb_true_iff in E as [_ E]. apply bool_decide_eq_true in E.
    simpl. rewrite lookup_insert. case_decide; [|by apply H].
    intros [= <-]. destruct (getSettings_valid chatId store H) as [Hc _].
    split; [done|]. by exists arg.
Qed.

Lemma runCommand_keeps_provider chatId store c :
  setsProvider chatId c = false ->
  provider (getSettings chatId (runCommand store c))
  = provider (getSettings chatId store).
Proof.
  intros Hc. destruct c as [id text|id text]; simpl in Hc |- *.
  - unfold setchain. destruct (commandArg text) as [arg|]; [|done].
    destruct (truthy (Some arg) && bool_decide (arg ∈ CHAINS)); [|done].
    simpl. destruct (decide (id = chatId)) as [->|Hne].
    + unfold getSettings at 1. by rewrite lookup_insert_eq.
    + unfold getSettings at 1 3. by rewrite lookup_insert_ne.
  - unfold providerCommand. destruct (commandArg text) as [arg|]; [|done].
    destruct (bool_decide (arg ∈ PROVIDERS)) eqn:E;
      [|by rewrite andb_false_r].
    rewrite andb_true_r in Hc. apply bool_decide_eq_false in Hc.
    destruct (truthy (Some arg)); [|done]. simpl.
    unfold getSettings at 1 3. by rewrite lookup_insert_ne.
Qed.

(** X1. Whatever [/setchain] and [/provider] commands are received, from
    whatever chats and with whatever text, starting with no settings: the
    settings of every chat, stored or defaulted, name a chain of the list
    of eight or none, and a provider among [auto], [openai], [gemini]; and
    the provider is [auto] for a chat none of whose [/provider] commands
    named a provider of the list, whatever chains it has set and whatever
    the other chats have done. *)
Theorem settings_always_valid (cs : list Command) (chatId : Z) :
  valid (getSettings chatId (runCommands cs ∅))
  /\ (forallb (fun c => negb (setsProvider chatId c)) cs = true ->
      provider (getSettings chatId (runCommands cs ∅)) = Some "auto"%string).
Proof.
  split.
  - apply getSettings_valid. unfold runCommands.
    assert (H : forall k s, (∅ : gmap Z Settings) !! k = Some s -> valid s)
      by (intros k s; by rewrite lookup_empty).
    revert H. generalize (∅ : gmap Z Settings).
    induction cs as [|c cs IH]; intros store H; [done|].
    simpl. apply IH. by apply runCommand_valid.
  - unfold runCommands.
    assert (H : provider (getSettings chatId (∅ : gmap Z Settings))
                = Some "auto"%string) by done.
    revert H. generalize (∅ : gmap Z Settings).
    induction cs as [|c cs IH]; intros store H Hcs; [done|].
    simpl in Hcs |- *. apply andb_true_iff in Hcs as [Hc Hcs].
    apply negb_true_iff in Hc. apply IH; [|done].
    by rewrite runCommand_keeps_provider.
Qed.

(** X2. [/setchain] takes the second white-space separated word of the
    message, lower-cased.  When it is one of the eight chains, the chat's
    default chain becomes that word, its provider stays what it was
    ([auto] for a chat without settings), and no other chat changes; in
    every other case the usage text is sent and nothing changes. *)
Theorem setchain_effect (chatId : Z) (text : string) (store : gmap Z Settings) :
  let before := getSettings chatId store in
  let store' := (setchain chatId text store).2 in
  match commandArg text with
  | Some arg =>
    if bool_decide (arg ∈ CHAINS) then
      (setchain chatId text store).1 = Done arg
      /\ getSettings chatId store' = mkSettings (Some arg) (provider before)
      /\ forall other, other <> chatId ->
           getSettings other store' = getSettings other store
    else setchain chatId text store = (Usage, store)
  | None => setchain chatId text store = (Usage, store)
  end.
Proof.
  intros before store'. subst store'. unfold setchain.
  destruct (commandArg text) as [arg|]; [|done].
  destruct (bool_decide (arg ∈ CHAINS)) eqn:E.
  - assert (truthy (Some arg) = true) as ->.
    { destruct arg; [|done]. vm_compute in E. discriminate E. }
    simpl. split; [done|]. split.
    + unfold getSettings at 1. by rewrite lookup_insert_eq.
    + intros other Hne. unfold getSettings. by rewrite lookup_insert_ne.
  - by rewrite andb_false_r.
Qed.

End SettingsProps.

(** X1 at work: chat 7 sets its chain and asks for a provider that is not
    of the list, chat 8 sets its provider; the provider of chat 7 is still
    [auto]. *)
Lemma settings_always_valid_witness :
  Settings.provider
    (Settings.getSettings 7
       (Settings.runCommands (CM := JS.asciiCaseMapping)
          [Settings.SetChain 7 "/setchain BSC";
           Settings.Provider 7 "/provider claude";
           Settings.Provider 8 "/provider openai"] ∅))
  = Some "auto"%string.
Proof.
  exact (proj2 (settings_always_valid (CM := JS.asciiCaseMapping)
                  [Settings.SetChain 7 "/setchain BSC";
                   Settings.Provider 7 "/provider claude";
                   Settings.Provider 8 "/provider openai"] 7) eq_refl).
Defined.

(** X2 at work: the word after a no-break space is the argument, and it
    is lower-cased. *)
Lemma setchain_effect_witness :
  (Settings.setchain (CM := JS.asciiCaseMapping) 7
     ("/setchain" ++ Scenario.nbsp ++ "BSC") ∅).1 = Settings.Done "bsc"
  /\ Settings.getSettings 7
       (Settings.setchain (CM := JS.asciiCaseMapping) 7
          ("/setchain" ++ Scenario.nbsp ++ "BSC") ∅).2
     = Settings.mkSettings (Some "bsc"%string) (Some "auto"%string).
Proof.
  set (text := ("/setchain" ++ Scenario.nbsp ++ "BSC")%string).
  pose proof (setchain_effect (CM := JS.asciiCaseMapping) 7 text ∅) as H.
  cbv zeta in H.
  assert (E : Settings.commandArg (CM := JS.asciiCaseMapping) text
              = Some "bsc"%string) by (vm_compute; reflexivity).
  rewrite E in H.
  assert (E2 : bool_decide ("bsc"%string ∈ Settings.CHAINS) = true)
    by (vm_compute; reflexivity).
  rewrite E2 in H. destruct H as (H1 & H2 & _). split; assumption.
Defined.

(** ** Sorted arrays *)
Section SortedProps.
Import JS.
Context {A : Type} (le : A -> A -> bool).
Hypothesis le_total : forall a b, le a b = true \/ le b a = true.
Hypothesis le_trans : forall a b c, le a b = true -> le b c = true -> le a c = true.

Lemma insert_sorted_sorted x (l : list A) :
  StronglySorted (fun a b => le a b = true) l ->
  StronglySorted (fun a b => le a b = true) (insert_sorted le x l).
Proof.
  induction l as [|y l IH]; simpl; intros Hs.
  - by repeat constructor.
  - apply StronglySorted_cons in Hs as [Hy Hs].
    destruct (le x y) eqn:E.
    + apply StronglySorted_cons. split.
      * constructor; [done|]. eapply Forall_impl; [exact Hy|].
        simpl. intros z Hz. by eapply le_trans.
      * by apply StronglySorted_cons.
    + apply StronglySorted_cons. split; [|by apply IH].
      rewrite insert_sorted_perm. constructor; [|done].
      destruct (le_total x y); congruence.
Qed.

(** The sorted array is ordered throughout. *)
Lemma sort_sorted (l : list A) :
  StronglySorted (fun a b => le a b = true) (sort le l).
Proof.
  induction l as [|x l IH]; simpl; [constructor|]. by apply insert_sorted_sorted.
Qed.

End SortedProps.

Lemma StronglySorted_impl {A} (R R' : A -> A -> Prop) (l : list A) :
  (forall a b, R a b -> R' a b) -> StronglySorted R l -> StronglySorted R' l.
Proof.
  intros H. induction 1 as [|x l Hs IH Hx]; constructor; [done|].
  eapply Forall_impl; [exact Hx|]. intros y. apply H.
Qed.

(** ** DexScreener lists *)
Section DexListsProps.
Import Eff Eff.Notations JS Dexscreener TTLCache DexLists.
Context {CM : CaseMapping} {W : Type} (Date_now : W -> Z).
Context (http_get_search : string -> M W (option (list DexPair))).
Context (http_get_tokens : string -> M W (option (list DexPair))).

Lemma compareSearch_le a b :
  Qle_bool (compareSearch a b) 0 = true <-> searchOrder a b.
Proof.
  unfold compareSearch, searchOrder.
  destruct (Qeq_bool (liquidity b - liquidity a) 0) eqn:E.
  - apply Qeq_bool_iff in E. rewrite Qle_bool_iff. split.
    + intros H. right. split; lra.
    + intros [H|[_ H]]; lra.
  - apply Qeq_bool_neq in E. rewrite Qle_bool_iff. split.
    + intros H. left. destruct (Qlt_le_dec (liquidity b) (liquidity a)); [done|].
      exfalso. apply E. lra.
    + intros [H|[H _]]; lra.
Qed.

Lemma compareSearch_total a b :
  Qle_bool (compareSearch a b) 0 = true \/ Qle_bool (compareSearch b a) 0 = true.
Proof.
  rewrite !compareSearch_le. unfold searchOrder.
  destruct (Q_dec (liquidity a) (liquidity b)) as [[H|H]|H].
  - right. by left.
  - left. by left.
  - destruct (Qlt_le_dec (volume a) (volume b)).
    + right. right. split; [done|lra].
    + left. right. split; [by symmetry|done].
Qed.

Lemma compareSearch_trans a b c :
  Qle_bool (compareSearch a b) 0 = true ->
  Qle_bool (compareSearch b c) 0 = true ->
  Qle_bool (compareSearch a c) 0 = true.
Proof.
  rewrite !compareSearch_le. unfold searchOrder.
  intros [H1|[H1 H1']] [H2|[H2 H2']].
  - left. lra.
  - left. lra.
  - left. lra.
  - right. split; lra.
Qed.

Lemma compareLiquidity_le a b :
  Qle_bool (compareLiquidity a b) 0 = true <-> (liquidity b <= liquidity a)%Q.
Proof. unfold compareLiquidity. rewrite Qle_bool_iff. split; intros; lra. Qed.

Lemma slice0_take {A} (limit : Z) (xs : list A) :
  0 <= limit -> slice0 limit xs = take (Z.to_nat limit) xs.
Proof.
  intros H. unfold slice0.
  destruct (limit <? 0) eqn:E; [apply Z.ltb_lt in E; lia|done].
Qed.

(** On a miss, [with] runs the producer on the state as it is. *)
Lemma with_miss {T} key (fn : M (St T W) (option T)) ttlMs (s : St T W) :
  store s !! key = None ->
  with_ Date_now key fn ttlMs s = storeFresh Date_now key fn ttlMs s.
Proof.
  intros Hk. rewrite with_undefined; unfold get; rewrite Hk; [|done].
  simpl. by destruct s.
Qed.

(** X3. A search that misses the cache and gets an answer from the
    upstream returns, for a limit that is not negative, the first [limit]
    pairs of the answer ranked by liquidity, and by volume among equal
    liquidity: the result followed by the pairs left out is a rearrangement
    of the answer that is ordered throughout, and the result has [limit]
    pairs or all of them.  The result is stored under the key of the
    lower-cased query and the limit for 60 s. *)
Theorem searchDexPairs_ranked
    (query : string) (limit : Z) (s : St (list DexPair) W)
    (data : option (list DexPair)) (w1 : W) :
  store s !! searchKey query limit = None ->
  http_get_search query (world s) = (inr data, w1) ->
  0 <= limit ->
  exists res rest,
    searchDexPairs Date_now http_get_search query limit s
      = (inr (Some res),
         mkSt (set (searchKey query limit) (Some res) 60000 (Date_now w1)
                 (store s)) w1)
    /\ res ++ rest ≡ₚ default [] data
    /\ StronglySorted searchOrder (res ++ rest)
    /\ length res = Nat.min (Z.to_nat limit) (length (default [] data)).
Proof.
  intros Hmiss Hhttp Hlimit.
  set (sorted := sort (fun a b => Qle_bool (compareSearch a b) 0) (default [] data)).
  exists (take (Z.to_nat limit) sorted), (drop (Z.to_nat limit) sorted).
  split; [|split; [|split]].
  - unfold searchDexPairs. rewrite with_miss by done.
    unfold storeFresh, bind, liftW, fetchSearch, bind, setM, ret.
    rewrite Hhttp. simpl. by rewrite slice0_take.
  - rewrite take_drop. apply sort_perm.
  - rewrite take_drop. subst sorted.
    eapply StronglySorted_impl;
      [|apply sort_sorted; [apply compareSearch_total|apply compareSearch_trans]].
    intros a b. apply compareSearch_le.
  - rewrite length_take. subst sorted. by rewrite sort_perm.
Qed.

(** X4. After such a search, a search for the same text in any letter
    case and with the same limit, made while the clock is no more than
    60 s past the instant of storing, returns the stored result and leaves
    the state as it is, whatever the upstream would answer: no request is
    made. *)
Theorem searchDexPairs_cached_any_case
    (query query' : string) (limit : Z) (s1 : St (list DexPair) W)
    (res : list DexPair) (t1 : Z) (w2 : W) :
  toLowerCase query' = toLowerCase query ->
  store s1 !! searchKey query limit = Some (TTLCache.mkEntry (Some res) (t1 + 60000)) ->
  Date_now w2 <= t1 + 60000 ->
  searchDexPairs Date_now http_get_search query' limit (mkSt (store s1) w2)
    = (inr (Some res), mkSt (store s1) w2).
Proof.
  intros Hq Hk Hn. unfold searchDexPairs.
  assert (searchKey query' limit = searchKey query limit) as ->
    by (unfold searchKey; by rewrite Hq).
  by eapply with_cached_value.
Qed.

(** X5. A contract lookup that misses the cache and gets pairs from the
    upstream returns all of them, the pair with the most liquidity first
    and the rest in descending liquidity; the list is never empty, so its
    first element exists.  It is stored for 45 s under the key of the
    lower-cased contract. *)
Theorem getDexByContract_ranked
    (contracts : string) (s : St (list DexPair) W)
    (p : DexPair) (pairs : list DexPair) (w1 : W) :
  store s !! contractKey contracts = None ->
  http_get_tokens contracts (world s) = (inr (Some (p :: pairs)), w1) ->
  exists top rest,
    getDexByContract Date_now http_get_tokens contracts s
      = (inr (Some (top :: rest)),
         mkSt (set (contractKey contracts) (Some (top :: rest)) 45000
                 (Date_now w1) (store s)) w1)
    /\ top :: rest ≡ₚ p :: pairs
    /\ StronglySorted (fun a b => (liquidity b <= liquidity a)%Q) (top :: rest).
Proof.
  intros Hmiss Hhttp.
  remember (sort (fun a b => Qle_bool (compareLiquidity a b) 0) (p :: pairs))
    as sorted eqn:E.
  assert (Hperm : sorted ≡ₚ p :: pairs) by (subst sorted; apply sort_perm).
  assert (Hsorted : StronglySorted (fun a b => (liquidity b <= liquidity a)%Q) sorted).
  { subst sorted. eapply StronglySorted_impl; [|apply sort_sorted].
    - intros a b. apply compareLiquidity_le.
    - intros a b. rewrite !compareLiquidity_le.
      destruct (Qlt_le_dec (liquidity a) (liquidity b)); [right; lra|by left].
    - intros a b c. rewrite !compareLiquidity_le. intros. lra. }
  destruct sorted as [|top rest].
  { by apply Permutation_nil_cons in Hperm. }
  exists top, rest. split; [|done].
  unfold getDexByContract. rewrite with_miss by done.
  unfold storeFresh, bind, liftW, fetchContract, bind, setM, ret.
  rewrite Hhttp. change (default [] (Some (p :: pairs))) with (p :: pairs).
  cbv beta iota. rewrite <- E. done.
Qed.

Lemma getDexByContract_throws
    (contracts : string) (s : St (list DexPair) W)
    (data : option (list DexPair)) (w1 : W) :
  store s !! contractKey contracts = None ->
  http_get_tokens contracts (world s) = (inr data, w1) ->
  default [] data = [] ->
  getDexByContract Date_now http_get_tokens contracts s
    = (inl noPairs, mkSt (store s) w1).
Proof.
  intros Hmiss Hhttp Hnone.
  unfold getDexByContract. rewrite with_miss by done.
  unfold storeFresh, bind, liftW, fetchContract, bind, throw.
  rewrite Hhttp, Hnone. done.
Qed.

(** X6. A contract lookup that misses the cache and for which the upstream
    lists no pair throws the error "No pairs found for that contract on
    Dexscreener" and stores nothing: the cache is as before, so the next
    lookup of the contract asks the upstream again. *)
Theorem getDexByContract_none
    (contracts : string) (s : St (list DexPair) W)
    (data : option (list DexPair)) (w1 : W) :
  store s !! contractKey contracts = None ->
  http_get_tokens contracts (world s) = (inr data, w1) ->
  default [] data = [] ->
  getDexByContract Date_now http_get_tokens contracts s
    = (inl noPairs, mkSt (store s) w1)
  /\ forall w2,
       getDexByContract Date_now http_get_tokens contracts (mkSt (store s) w2)
       = storeFresh Date_now (contractKey contracts)
           (liftW (fetchContract http_get_tokens contracts)) 45000
           (mkSt (store s) w2).
Proof.
  intros Hmiss Hhttp Hnone. split.
  - by eapply getDexByContract_throws.
  - intros w2. unfold getDexByContract. by rewrite with_miss.
Qed.

End DexListsProps.

(** ** CoinGecko client behind its caches *)
Section PriceCacheProps.
Import Eff Eff.Notations JS CoinGecko TTLCache PriceCache.
Context {CM : CaseMapping} {W : Type} (Date_now : W -> Z).
Context (findUnique : string -> M W (option DbRow)).
Context (upsert : string -> CoinInfo -> Z -> M W unit).
Context (http_get_search : string -> M W (option (list SearchCoin))).
Context (http_get_markets : string -> M W (list (option Market))).
Context (http_get_coin : string -> M W (option Full)).
Context (sleep : Z -> W -> W).

(** A memory entry that holds a value and has not expired is returned as
    it is, and nothing else happens. *)
Lemma getCoinGeckoBySymbol_hit symbol (s : St CoinInfo W) hit v :
  store s !! symbolKey (toLowerCase (trim symbol)) = Some hit ->
  value hit = Some v ->
  Date_now (world s) <= expires hit ->
  getCoinGeckoBySymbol Date_now findUnique upsert http_get_search
    http_get_markets http_get_coin sleep symbol s = (inr v, s).
Proof.
  intros Hk Hv Hn. unfold getCoinGeckoBySymbol, bind at 1, getM.
  rewrite (get_fresh _ _ _ _ Hk Hn), Hv. unfold ret. by destruct s.
Qed.

(** What a successful write-through leaves in memory. *)
Lemma fetchAndStore_entry sym (s s1 : St CoinInfo W) v :
  fetchAndStore Date_now upsert http_get_search http_get_markets
    http_get_coin sleep sym s = (inr v, s1) ->
  store s1 !! symbolKey sym
    = Some (TTLCache.mkEntry (Some v) (Date_now (world s1) + MEM_TTL_MS)).
Proof.
  unfold fetchAndStore, bind, liftW, setM, ret.
  destruct (liveFetch _ _ _ _ sym (world s)) as [[e|v0] w1]; [done|].
  simpl. destruct (upsert _ _ _ w1) as [[e|[]] w2]; [done|].
  simpl. intros [= <- <-]. simpl. unfold set. apply lookup_insert_eq.
Qed.

(** What the table or the live fetch leaves in memory when they give a
    value. *)
Lemma fromTableOrLive_entry sym (s s1 : St CoinInfo W) v :
  fromTableOrLive Date_now findUnique upsert http_get_search http_get_markets
    http_get_coin sleep sym s = (inr v, s1) ->
  store s1 !! symbolKey sym
    = Some (TTLCache.mkEntry (Some v) (Date_now (world s1) + MEM_TTL_MS)).
Proof.
  unfold fromTableOrLive, bind at 1 2, liftW.
  destruct (findUnique _ (world s)) as [[e|row] w1]; [done|].
  destruct row as [row|]; [|apply fetchAndStore_entry].
  destruct (Date_now (world s) <? ttlAt row); [|apply fetchAndStore_entry].
  unfold bind, setM, ret. intros [= <- <-]. simpl. apply lookup_insert_eq.
Qed.

(** X7. After a price lookup has returned a value, the memory cache holds
    that value under the key of the trimmed, lower-cased symbol with an
    expiry that has not passed; when the lookup did not find it in memory,
    the expiry is 45 s after the instant of storing.  Until that expiry, a
    lookup of the same symbol, in any letter case and with any spaces
    around it, returns the same value and leaves the state as it is: the
    table and the network are not asked. *)
Theorem getCoinGeckoBySymbol_then_memory
    (symbol : string) (s s1 : St CoinInfo W) (v : CoinInfo) :
  let lookup :=
    getCoinGeckoBySymbol Date_now findUnique upsert http_get_search
      http_get_markets http_get_coin sleep in
  let key := symbolKey (toLowerCase (trim symbol)) in
  lookup symbol s = (inr v, s1) ->
  exists e,
    store s1 !! key = Some (TTLCache.mkEntry (Some v) e)
    /\ Date_now (world s1) <= e
    /\ ((get key (Date_now (world s)) (store s)).1 = None ->
        e = Date_now (world s1) + 45000)
    /\ forall symbol' w2,
         toLowerCase (trim symbol') = toLowerCase (trim symbol) ->
         Date_now w2 <= e ->
         lookup symbol' (mkSt (store s1) w2) = (inr v, mkSt (store s1) w2).
Proof.
  intros lookup key Hcall.
  assert (Hlater : forall e,
    store s1 !! key = Some (TTLCache.mkEntry (Some v) e) ->
    forall symbol' w2,
      toLowerCase (trim symbol') = toLowerCase (trim symbol) ->
      Date_now w2 <= e ->
      lookup symbol' (mkSt (store s1) w2) = (inr v, mkSt (store s1) w2)).
  { intros e He symbol' w2 Hs Hn. subst lookup key.
    eapply getCoinGeckoBySymbol_hit; [by rewrite Hs|done|done]. }
  subst lookup. unfold getCoinGeckoBySymbol in Hcall. fold key in Hcall.
  unfold bind at 1, getM in Hcall.
  destruct (get key (Date_now (world s)) (store s)) as [mem st0] eqn:Hget.
  destruct mem as [v0|].
  - (* served from memory *)
    unfold ret in Hcall. injection Hcall as <- <-. cbn [store world fst].
    unfold get in Hget. destruct (store s !! key) as [hit|] eqn:Hk; [|done].
    destruct (expires hit <? Date_now (world s)) eqn:Hexp; [done|].
    apply Z.ltb_ge in Hexp. injection Hget as Hv <-.
    exists (expires hit). destruct hit as [hv he]. simpl in *. subst hv.
    split; [done|]. split; [done|]. split; [done|]. by apply Hlater.
  - (* from the table or the network *)
    apply fromTableOrLive_entry in Hcall as He. fold key in He.
    exists (Date_now (world s1) + MEM_TTL_MS).
    split; [done|]. split; [unfold MEM_TTL_MS; lia|].
    split; [done|]. by apply Hlater.
Qed.

(** X8. When the memory cache has no entry for the symbol and the table
    has a row whose [ttlAt] is later than the instant read before asking
    it, the payload of the row is returned and put in memory for 45 s from
    the instant of storing, however close the row is to its own expiry;
    the state is the one the table read left: no live fetch and no write
    to the table take place. *)
Theorem getCoinGeckoBySymbol_table_row
    (symbol : string) (s : St CoinInfo W) (row : DbRow) (w1 : W) :
  let key := symbolKey (toLowerCase (trim symbol)) in
  store s !! key = None ->
  findUnique key (world s) = (inr (Some row), w1) ->
  Date_now (world s) < ttlAt row ->
  getCoinGeckoBySymbol Date_now findUnique upsert http_get_search
    http_get_markets http_get_coin sleep symbol s
  = (inr (payload row),
     mkSt (set key (Some (payload row)) 45000 (Date_now w1) (store s)) w1).
Proof.
  intros key Hmiss Hrow Hvalid.
  unfold getCoinGeckoBySymbol, bind at 1, getM, get. fold key. rewrite Hmiss.
  unfold fromTableOrLive, bind at 1 2, liftW. fold key. cbn [store world].
  rewrite Hrow.
  destruct (Date_now (world s) <? ttlAt row) eqn:E;
    [|apply Z.ltb_ge in E; lia].
  done.
Qed.

(** X9. When the memory cache and the table give nothing usable and the
    live fetch returns a value, but the write to the table throws, the
    lookup throws that error and the memory cache is left as it was: the
    value fetched is not kept. *)
Theorem getCoinGeckoBySymbol_write_fails
    (symbol : string) (s : St CoinInfo W) (row : option DbRow)
    (w1 w2 w3 : W) (v : CoinInfo) (e : Err) :
  let sym := toLowerCase (trim symbol) in
  let key := symbolKey sym in
  store s !! key = None ->
  findUnique key (world s) = (inr row, w1) ->
  (forall r, row = Some r -> ttlAt r <= Date_now (world s)) ->
  liveFetch http_get_search http_get_markets http_get_coin sleep sym w1
    = (inr v, w2) ->
  upsert key v (Date_now w2 + 45000) w2 = (inl e, w3) ->
  getCoinGeckoBySymbol Date_now findUnique upsert http_get_search
    http_get_markets http_get_coin sleep symbol s
  = (inl e, mkSt (store s) w3).
Proof.
  intros sym key Hmiss Hrow Hstale Hfetch Hup.
  unfold getCoinGeckoBySymbol, bind at 1, getM, get. fold sym key. rewrite Hmiss.
  unfold fromTableOrLive, bind at 1 2, liftW. fold key. cbn [store world].
  rewrite Hrow.
  assert (Hgo : fetchAndStore Date_now upsert http_get_search http_get_markets
                  http_get_coin sleep sym (mkSt (store s) w1)
                = (inl e, mkSt (store s) w3)).
  { unfold fetchAndStore, bind, liftW. fold key. cbn [store world].
    rewrite Hfetch. cbn [store world]. unfold DB_TTL_SEC.
    change (45 * 1000) with 45000. by rewrite Hup. }
  destruct row as [r|]; [|done].
  specialize (Hstale r eq_refl).
  destruct (Date_now (world s) <? ttlAt r) eqn:E; [apply Z.ltb_lt in E; lia|done].
Qed.

End PriceCacheProps.

(** ** Helpers of the bot *)
Section BotUtilProps.
Import Eff JS BotUtil.
Context {CM : CaseMapping}.

Lemma append_cons x (a b : string) : (String x a ++ b = String x (a ++ b))%string.
Proof. reflexivity. Qed.

Lemma append_nil (b : string) : (EmptyString ++ b = b)%string.
Proof. reflexivity. Qed.

(** Appends on strings that start with known characters. *)
Ltac str_norm := repeat rewrite append_cons; repeat rewrite append_nil.
Ltac str_norm_in H :=
  repeat rewrite append_cons in H; repeat rewrite append_nil in H.

Lemma string_app_assoc (a b c : string) : ((a ++ b) ++ c = a ++ (b ++ c))%string.
Proof.
  induction a as [|x a IH]; [done|]. rewrite !append_cons. by rewrite IH.
Qed.

Lemma replaceChar_app c by_ (a b : string) :
  replaceChar c by_ (a ++ b) = (replaceChar c by_ a ++ replaceChar c by_ b)%string.
Proof.
  induction a as [|x a IH]; [done|]. rewrite append_cons. simpl.
  destruct (Ascii.eqb x c); rewrite IH.
  - by rewrite string_app_assoc.
  - by rewrite append_cons.
Qed.

Lemma htmlChar_cases x :
  (x = "&"%char /\ htmlChar x = "&amp;"%string)
  \/ (x = "<"%char /\ htmlChar x = "&lt;"%string)
  \/ (x = ">"%char /\ htmlChar x = "&gt;"%string)
  \/ (x <> "&"%char /\ x <> "<"%char /\ x <> ">"%char
      /\ htmlChar x = String x EmptyString).
Proof.
  unfold htmlChar.
  destruct (Ascii.eqb_spec x "&") as [->|?]; [by left|].
  destruct (Ascii.eqb_spec x "<") as [->|?]; [by right; left|].
  destruct (Ascii.eqb_spec x ">") as [->|?]; [by right; right; left|].
  by right; right; right.
Qed.

(** The three passes amount to one pass, character by character. *)
Lemma html_cons x (s : string) : html (String x s) = (htmlChar x ++ html s)%string.
Proof.
  change (String x s) with (String x EmptyString ++ s)%string.
  unfold html. rewrite !replaceChar_app. f_equal.
  destruct (htmlChar_cases x) as [[-> ->]|[[-> ->]|[[-> ->]|(H1 & H2 & H3 & ->)]]];
    [reflexivity..|].
  simpl. apply Ascii.eqb_neq in H1, H2, H3. rewrite H1. simpl. rewrite H2.
  simpl. by rewrite H3.
Qed.

(** X10. The text [html] returns has no [<] and no [>], and two
    different texts are never written the same way: the text can be read
    back from what [html] returns. *)
Theorem html_safe_and_injective :
  (forall s, ~ occurs "<" (html s) /\ ~ occurs ">" (html s))
  /\ (forall s1 s2, html s1 = html s2 -> s1 = s2).
Proof.
  split.
  - induction s as [|x s [IH1 IH2]]; [split; intros []|].
    rewrite html_cons.
    destruct (htmlChar_cases x) as [[-> ->]|[[-> ->]|[[-> ->]|(? & ? & ? & ->)]]];
      str_norm; simpl; split; intros Hocc;
      repeat (destruct Hocc as [Hocc|Hocc];
              [try discriminate Hocc; try congruence|]);
      tauto.
  - induction s1 as [|x1 s1 IH]; intros s2.
    + destruct s2 as [|x2 s2]; [done|]. rewrite html_cons.
      destruct (htmlChar_cases x2) as [[-> ->]|[[-> ->]|[[-> ->]|(? & ? & ? & ->)]]];
        str_norm; discriminate.
    + destruct s2 as [|x2 s2]; rewrite !html_cons.
      * destruct (htmlChar_cases x1) as [[-> ->]|[[-> ->]|[[-> ->]|(? & ? & ? & ->)]]];
          str_norm; discriminate.
      * destruct (htmlChar_cases x1) as [[-> ->]|[[-> ->]|[[-> ->]|(? & ? & ? & ->)]]];
        destruct (htmlChar_cases x2) as [[-> ->]|[[-> ->]|[[-> ->]|(? & ? & ? & ->)]]];
          str_norm; intros Heq; simplify_eq; try done;
          f_equal; by apply IH.
Qed.

Lemma mdEscape_special_preceded (s : string) :
  forall pre c post,
    mdEscape s = (pre ++ String c post)%string -> isMdSpecial c = true ->
    exists pre', pre = (pre' ++ String "\" EmptyString)%string.
Proof.
  induction s as [|x s IH]; intros pre c post Heq Hc.
  - destruct pre; discriminate.
  - simpl in Heq. destruct (isMdSpecial x) eqn:Hx.
    + destruct pre as [|p0 pre]; str_norm_in Heq.
      { injection Heq as <- _. vm_compute in Hc. discriminate Hc. }
      injection Heq as <- Heq.
      destruct pre as [|p1 pre]; str_norm_in Heq.
      { by exists EmptyString. }
      injection Heq as <- Heq.
      destruct (IH _ _ _ Heq Hc) as [pre' ->].
      exists (String "\" (String x pre')). by str_norm.
    + destruct pre as [|p0 pre]; str_norm_in Heq.
      { injection Heq as <- _. congruence. }
      injection Heq as <- Heq.
      destruct (IH _ _ _ Heq Hc) as [pre' ->].
      exists (String x pre'). by str_norm.
Qed.

(** X11. In the text [mdEscape] returns, every character of the Markdown
    class stands right after a backslash, and two different texts are
    never written the same way. *)
Theorem mdEscape_escapes_and_injective :
  (forall s pre c post,
      mdEscape s = (pre ++ String c post)%string -> isMdSpecial c = true ->
      exists pre', pre = (pre' ++ String "\" EmptyString)%string)
  /\ (forall s1 s2, mdEscape s1 = mdEscape s2 -> s1 = s2).
Proof.
  split; [apply mdEscape_special_preceded|].
  assert (Hfirst : forall s x rest,
            mdEscape s = String x rest -> isMdSpecial x = false).
  { intros s x rest Heq. destruct (isMdSpecial x) eqn:Hx; [|done].
    destruct (mdEscape_special_preceded s EmptyString x rest Heq Hx) as [pre' H].
    destruct pre'; discriminate. }
  induction s1 as [|x1 s1 IH]; intros s2 Heq.
  - destruct s2 as [|x2 s2]; [done|]. simpl in Heq.
    destruct (isMdSpecial x2); discriminate.
  - destruct s2 as [|x2 s2]; simpl in Heq.
    { destruct (isMdSpecial x1); discriminate. }
    destruct (isMdSpecial x1) eqn:H1, (isMdSpecial x2) eqn:H2; simplify_eq.
    + f_equal. by apply IH.
    + symmetry in H. apply Hfirst in H. congruence.
    + apply Hfirst in H. congruence.
    + f_equal. by apply IH.
Qed.

Lemma asciiLowerCase_app (a b : string) :
  asciiLowerCase (a ++ b) = (asciiLowerCase a ++ asciiLowerCase b)%string.
Proof.
  induction a as [|x a IH]; [done|]. rewrite !append_cons. simpl. by rewrite IH.
Qed.

(** Lower-casing leaves an ASCII end of the text where it is. *)
Lemma toLowerCase_suffix (a b : string) :
  isAsciiString b = true ->
  exists a', toLowerCase (a ++ b) = (a' ++ asciiLowerCase b)%string.
Proof.
  intros Hb. unfold toLowerCase. destruct (isAsciiString (a ++ b)).
  - exists (asciiLowerCase a). apply asciiLowerCase_app.
  - by apply unicodeLowerCase_suffix.
Qed.

Lemma includes_app_r (a b sub : string) :
  includes b sub = true -> includes (a ++ b) sub = true.
Proof.
  intros H. induction a as [|x a IH]; [done|]. rewrite append_cons. simpl.
  rewrite IH. apply orb_true_r.
Qed.

(** X12. When the CoinGecko search lists no coin for a symbol, the live
    fetch, with its retry wrapper, throws without a second attempt, and
    the bot words that error as "I couldn’t find that token." whatever the
    symbol and the fallback text are. *)
Theorem unknown_symbol_user_message
    {W : Type}
    (http_get_search : string -> M W (option (list CoinGecko.SearchCoin)))
    (http_get_markets : string -> M W (list (option CoinGecko.Market)))
    (http_get_coin : string -> M W (option CoinGecko.Full))
    (sleep : Z -> W -> W)
    (sym : string) (w w1 : W) (data : option (list CoinGecko.SearchCoin)) :
  http_get_search sym w = (inr data, w1) ->
  default [] data = [] ->
  exists e,
    CoinGecko.fetchFromCoinGecko http_get_search http_get_markets
      http_get_coin sleep sym w = (inl e, w1)
    /\ forall fallback, userError e fallback = notFoundText.
Proof.
  intros Hsearch Hnone. eexists. split.
  - unfold CoinGecko.fetchFromCoinGecko, try_catch, CoinGecko.doFetch, bind.
    rewrite Hsearch, Hnone. unfold CoinGecko.candidatesOf. simpl. reflexivity.
  - intros fallback. unfold userError. simpl message.
    destruct (toLowerCase_suffix ("Symbol $" ++ toUpperCase sym)
                " not found on CoinGecko" eq_refl) as [a' Ha'].
    rewrite string_app_assoc in Ha'. rewrite Ha'.
    rewrite includes_app_r; [done|]. reflexivity.
Qed.

(** X13. The error of a contract lookup for which the upstream lists no
    pair is worded by the bot as the fallback text of the caller, whatever
    it is, and not as the not-found text. *)
Theorem unknown_contract_user_message
    {W : Type} (Date_now : W -> Z)
    (http_get_tokens : string -> M W (option (list Dexscreener.DexPair)))
    (contracts : string) (s : TTLCache.St (list Dexscreener.DexPair) W)
    (data : option (list Dexscreener.DexPair)) (w1 : W) :
  TTLCache.store s !! DexLists.contractKey contracts = None ->
  http_get_tokens contracts (TTLCache.world s) = (inr data, w1) ->
  default [] data = [] ->
  exists e,
    (DexLists.getDexByContract Date_now http_get_tokens contracts s).1 = inl e
    /\ forall fallback, userError e fallback = fallback.
Proof.
  intros Hmiss Hhttp Hnone. exists DexLists.noPairs. split; [|done].
  by rewrite (getDexByContract_throws Date_now http_get_tokens
                contracts s data w1 Hmiss Hhttp Hnone).
Qed.

End BotUtilProps.

(** ** Heuristic score *)
Section AIProps.
Import AI.

Lemma heuristicScore_range
    (liquidityUsd volume24h : float) (fdv buys24h sells24h : option float) :
  10 <= heuristicScore liquidityUsd volume24h fdv buys24h sells24h <= 90.
Proof.
  unfold heuristicScore. cbv zeta.
  repeat match goal with
         | |- context [if ?b then _ else _] => destruct b
         end; lia.
Qed.

(** X14. Whatever numbers it is given, NaN and infinities included, and
    whichever optional ones are missing, the heuristic score lies between
    10 and 90, so the clamp to the range from 0 to 100 never acts; and it
    is a multiple of 5. *)
Theorem heuristicScore_bounds
    (liquidityUsd volume24h : float) (fdv buys24h sells24h : option float) :
  let s := heuristicScore liquidityUsd volume24h fdv buys24h sells24h in
  10 <= s <= 90 /\ s mod 5 = 0.
Proof.
  split; [apply heuristicScore_range|].
  unfold heuristicScore. cbv zeta.
  repeat match goal with
         | |- context [if ?b then _ else _] => destruct b
         end; reflexivity.
Qed.

End AIProps.

(** ** Safety insight *)
Section InsightProps.
Import Eff Eff.Notations JS Insight.
Context {CM : CaseMapping} {W : Type}.
Context (env : string -> W -> option string).
Context (invoke : Provider -> PromptInputs -> M W Json).
Context (Number_ : string -> float) (Math_round : float -> float).

(** A chain that answers gives a result tagged with its provider; a
    chain that throws makes [runChain] throw. *)
Lemma runChain_provider prov inputs w r w' :
  runChain invoke Number_ Math_round prov inputs w = (inr r, w') ->
  provider r = prov.
Proof.
  unfold runChain, bind. destruct (invoke prov inputs w) as [[e|raw] w1]; [done|].
  destruct (safeParse raw) as [[f s]|]; unfold ret; by intros [= <- _].
Qed.

Lemma tryOpenAI_provider has inputs w r w' :
  tryOpenAI invoke Number_ Math_round has inputs w = (inr r, w') ->
  provider r = openai.
Proof.
  unfold tryOpenAI. destruct has; [apply runChain_provider|done].
Qed.

Lemma tryGemini_provider has inputs w r w' :
  tryGemini invoke Number_ Math_round has inputs w = (inr r, w') ->
  provider r = gemini.
Proof.
  unfold tryGemini. destruct has; [apply runChain_provider|done].
Qed.

(** The three facts about the tag of a result, once the tag is known. *)
Ltac tags :=
  repeat split; intros; repeat split;
  try discriminate; try done; try lia; try congruence.

(** X15. [aiSafetyInsight] never throws: whatever the environment, the
    chains and the data, it returns a result.  A result tagged [mock]
    carries the heuristic score, which lies between 10 and 90, and the
    fixed text; with [AI_PROVIDER] set to [openai] (in any letter case)
    the result is tagged [openai] or [mock], never [gemini], and with
    [gemini] it is tagged [gemini] or [mock], never [openai]. *)
Theorem aiSafetyInsight_total (data : Data) (w : W) :
  let force := toLowerCase (default EmptyString (env "AI_PROVIDER" w)) in
  exists r w',
    aiSafetyInsight env invoke Number_ Math_round data w = (inr r, w')
    /\ (provider r = mock ->
        score r = ofZ (heurOf data) /\ explanation r = mockText
        /\ 10 <= heurOf data <= 90)
    /\ (force = "openai"%string -> provider r <> gemini)
    /\ (force = "gemini"%string -> provider r <> openai).
Proof.
  intros force. unfold aiSafetyInsight. fold force.
  assert (Hb : 10 <= heurOf data <= 90) by apply heuristicScore_range.
  unfold try_catch at 1.
  destruct (String.eqb_spec force "openai") as [Hf|Hf].
  { destruct (tryOpenAI _ _ _ _ _ w) as [[e|r] w1] eqn:E.
    - eexists _, _. split; [reflexivity|]. simpl. tags.
    - apply tryOpenAI_provider in E as Hp. exists r, w1. split; [done|].
      rewrite Hp. tags. }
  destruct (String.eqb_spec force "gemini") as [Hg|Hg].
  { destruct (tryGemini _ _ _ _ _ w) as [[e|r] w1] eqn:E.
    - eexists _, _. split; [reflexivity|]. simpl. tags.
    - apply tryGemini_provider in E as Hp. exists r, w1. split; [done|].
      rewrite Hp. tags. }
  unfold try_catch.
  destruct (tryOpenAI _ _ _ _ _ w) as [[e|r] w1] eqn:E.
  - destruct (hasGemini env w).
    + destruct (tryGemini _ _ _ _ _ w1) as [[ge|r] w2] eqn:E2.
      * unfold throw. eexists _, _. split; [reflexivity|]. simpl. tags.
      * apply tryGemini_provider in E2 as Hp. exists r, w2. split; [done|].
        rewrite Hp. tags.
    + unfold throw. eexists _, _. split; [reflexivity|]. simpl. tags.
  - apply tryOpenAI_provider in E as Hp. exists r, w1. split; [done|].
    rewrite Hp. tags.
Qed.


End InsightProps.

(** ** Query log and HTTP routes *)
Section ServerProps.
Import Eff Eff.Notations JS Server.
Context {CM : CaseMapping} {S : Type} (Date_now : S -> Z).
Context (create : LogRow -> M S unit).
Context (getCoinGeckoBySymbol : string -> M S CoinGecko.CoinInfo).
Context (getDexByContract : string -> M S (list TopPair)).
Context (aiSafetyInsight : Insight.Data -> M S Insight.SafetyResult).
Context (Number_ : string -> float).

(** A best-effort write never throws; it leaves the state the attempt
    left. *)
Lemma bestEffortLog_total row s :
  bestEffortLog create row s = (inr tt, (create row s).2).
Proof.
  unfold bestEffortLog, try_catch, ret.
  by destruct (create row s) as [[e|[]] s'].
Qed.

Lemma substring_length_le (n : nat) (s : string) :
  (String.length (String.substring 0 n s) <= n)%nat.
Proof.
  revert s. induction n as [|n IH]; intros [|c s]; simpl; try lia.
  specialize (IH s). lia.
Qed.

Lemma substring_prefix (n : nat) (s : string) :
  String.prefix (String.substring 0 n s) s = true.
Proof.
  revert s. induction n as [|n IH]; intros [|c s]; simpl; try done.
  rewrite IH. by destruct (ascii_dec c c).
Qed.


(** X18. The price route never throws.  When the lookup returns, the
    answer is 200 with the symbol, price, market capitalisation and volume
    of the value, whether the log write succeeds or not; when the lookup
    throws, the answer is 500 with the message of the error, or
    ["Internal error"] when it has none. *)
Theorem priceRoute_total (symbol : string) (s : S) :
  match getCoinGeckoBySymbol symbol s with
  | (inr info, s1) =>
    exists s2,
      priceRoute Date_now create getCoinGeckoBySymbol symbol s
      = (inr (mkResponse 200
                (PriceBody (CoinGecko.symbol info) (CoinGecko.price info)
                   (CoinGecko.marketCap info) (CoinGecko.volume24h info))), s2)
  | (inl e, s1) =>
    exists s2,
      priceRoute Date_now create getCoinGeckoBySymbol symbol s
      = (inr (mkResponse 500 (ErrorBody (fmtErr e))), s2)
  end.
Proof.
  unfold priceRoute, now_, try_catch, bind, ret.
  destruct (getCoinGeckoBySymbol symbol s) as [[e|info] s1];
    rewrite bestEffortLog_total; by eexists.
Qed.


End ServerProps.

(** ** Resolver: what every result satisfies *)
Section ResolverInvariants.
Import Eff Eff.Notations JS Dexscreener Resolver.
Context {CM : CaseMapping} {S : Type}.
Context (searchDexPairs : string -> Z -> M S (list DexPair)).
Context (getPairByChainAndAddress : string -> string -> M S (option DexPair)).
Context (http_get_search : string -> M S (option (list Coin))).
Context (http_get_coin : string -> M S (option (gmap string string))).

Lemma baseAddress_valid p a : baseAddress p = Some a -> isAddress a = true.
Proof.
  unfold baseAddress. destruct (baseToken p ≫= address) as [a0|]; [|done].
  destruct (isAddress a0) eqn:E; [|done]. by intros [= <-].
Qed.

(** A round of stage 2 never throws, and an address it finds is valid. *)
Lemma tryPairDetail_result p s :
  exists found s',
    tryPairDetail getPairByChainAndAddress p s = (inr found, s')
    /\ forall a, found = Some a -> isAddress a = true.
Proof.
  unfold tryPairDetail.
  destruct (pairAddress p) as [pa|]; [|by eexists _, _].
  destruct (chainId p) as [ch|]; [|by eexists _, _].
  destruct (truthy (Some pa) && truthy (Some ch)); [|by eexists _, _].
  unfold try_catch, bind, ret.
  destruct (getPairByChainAndAddress ch pa s) as [[e|detail] s1];
    [by eexists _, _|].
  eexists _, _. split; [done|]. intros a Ha.
  destruct detail as [d|]; [|done]. by eapply baseAddress_valid.
Qed.

Lemma pairDetailLoop_result pairs s :
  exists r s',
    pairDetailLoop getPairByChainAndAddress pairs s = (inr r, s')
    /\ forall res, r = Some res -> foundBy pair res.
Proof.
  revert s. induction pairs as [|p rest IH]; intros s.
  - by eexists _, _.
  - simpl. unfold bind.
    destruct (tryPairDetail_result p s) as (found & s1 & -> & Hv).
    destruct found as [addr|]; [|apply IH].
    eexists _, _. split; [done|]. intros res [= <-].
    split; [|done]. exists addr. split; [done|]. by apply Hv.
Qed.

Lemma coingeckoStage_result q s :
  exists r s',
    coingeckoStage http_get_search http_get_coin q s = (inr r, s')
    /\ forall res, r = Some res -> foundBy coingecko res.
Proof.
  unfold coingeckoStage, try_catch, bind, ret.
  destruct (http_get_search q s) as [[e|search] s1]; [by eexists _, _|].
  destruct (sort _ (default [] search)) as [|top rest]; [by eexists _, _|].
  destruct (http_get_coin (c_id top) s1) as [[e|platforms] s2];
    [by eexists _, _|].
  destruct (evmAddress (default ∅ platforms)) as [evm|] eqn:E;
    [|by eexists _, _].
  eexists _, _. split; [done|]. intros res [= <-].
  split; [|done]. exists evm. split; [done|].
  unfold evmAddress in E. apply List.find_some in E as [_ E]. done.
Qed.

Lemma SPECIAL_MAP_cases q :
  match SPECIAL_MAP q with
  | Some (Entry addr note) => isAddress addr = true /\ q ∉ inheritedNames
  | Some Inherited => q ∈ inheritedNames
  | None => q ∉ inheritedNames
  end.
Proof.
  unfold SPECIAL_MAP.
  destruct (String.eqb_spec q "eth") as [->|_].
  { split; [done|]. intros Hin.
    apply (bool_decide_eq_true_2 (_ ∈ inheritedNames)) in Hin.
    discriminate Hin. }
  destruct (String.eqb_spec q "btc") as [->|_].
  { split; [done|]. intros Hin.
    apply (bool_decide_eq_true_2 (_ ∈ inheritedNames)) in Hin.
    discriminate Hin. }
  destruct (bool_decide (q ∈ inheritedNames)) eqn:E.
  - by apply bool_decide_eq_true in E.
  - by apply bool_decide_eq_false in E.
Qed.

(** X20. Whatever the clients answer, an address the resolver returns is
    [0x] followed by 40 hexadecimal digits, whichever stage it comes
    from.  A result has no address in one case only: it comes from the
    static table and the query, trimmed and lower-cased, spells a member
    that every object inherits (such as [constructor] or [__proto__]), which
    the lookup in the table finds.  A result carries a note exactly when
    it comes from the static table with an address. *)
Theorem resolver_address_valid (query : string) (s s' : S) (r : ResolveResult) :
  resolveContractFromQuery searchDexPairs getPairByChainAndAddress
    http_get_search http_get_coin query s = (inr (Some r), s') ->
  (forall a, r_address r = Some a -> isAddress a = true)
  /\ (r_address r = None <->
      r_source r = special /\ toLowerCase (trim query) ∈ inheritedNames)
  /\ (is_Some (r_note r) <-> r_source r = special /\ is_Some (r_address r)).
Proof.
  assert (Hfound : forall src res, src <> special -> foundBy src res ->
    (forall a, r_address res = Some a -> isAddress a = true)
    /\ (r_address res = None <->
        r_source res = special /\ toLowerCase (trim query) ∈ inheritedNames)
    /\ (is_Some (r_note res) <-> r_source res = special /\ is_Some (r_address res))).
  { intros src res Hsrc ((a & Ha & Hv) & Hs & Hn).
    rewrite Ha, Hs, Hn. split; [by intros ? [= <-]|].
    split; (split; [done|]); by intros [? _]. }
  unfold resolveContractFromQuery.
  destruct (isAddress (toLowerCase (trim query))) eqn:Hq.
  { unfold ret. intros [= <- _]. apply (Hfound dex); [done|].
    split; [by eexists|done]. }
  unfold bind at 1.
  destruct (searchDexPairs _ 8 s) as [[e|pairs] s1]; [done|].
  destruct (rankedWithAddr pairs) as [|best rest] eqn:E.
  - unfold bind at 1.
    destruct (pairDetailLoop_result pairs s1) as (r2 & s2 & -> & H2).
    destruct r2 as [res|].
    { unfold ret. intros [= <- _]. apply (Hfound pair); [done|]. by apply H2. }
    unfold bind at 1.
    destruct (coingeckoStage_result (toLowerCase (trim query)) s2)
      as (r3 & s3 & -> & H3).
    destruct r3 as [res|].
    { unfold ret. intros [= <- _]. apply (Hfound coingecko); [done|].
      by apply H3. }
    pose proof (SPECIAL_MAP_cases (toLowerCase (trim query))) as Hsp.
    destruct (SPECIAL_MAP (toLowerCase (trim query))) as [[addr note|]|];
      [| |done].
    + destruct Hsp as [Hv Hnot]. unfold ret. intros [= <- _]. simpl.
      split; [by intros ? [= <-]|]. split.
      * split; [done|]. by intros [_ ?].
      * split; [done|]. by eexists.
    + unfold ret. intros [= <- _]. simpl.
      split; [done|]. split; [done|].
      split; [by intros [? ?]|]. by intros [_ [? ?]].
  - unfold ret. intros [= <- _].
    apply rankedWithAddr_head in E as (_ & Hb & _).
    unfold hasAddr in Hb. apply bool_decide_eq_true in Hb as [a Ha].
    apply (Hfound dex); [done|]. split; [|done]. simpl.
    apply baseAddress_Some in Ha as [Ha Hv]. by exists a.
Qed.

(** X21. The resolver throws exactly when the query is no address and the
    DEX search throws, and then with the error and the state of that
    search: a failure of the pair-detail client or of the aggregator is
    never propagated. *)
Theorem resolver_throws_only_search (query : string) (s s' : S) (e : Err) :
  resolveContractFromQuery searchDexPairs getPairByChainAndAddress
    http_get_search http_get_coin query s = (inl e, s')
  <-> isAddress (toLowerCase (trim query)) = false
      /\ searchDexPairs (toLowerCase (trim query)) 8 s = (inl e, s').
Proof.
  unfold resolveContractFromQuery.
  destruct (isAddress (toLowerCase (trim query))) eqn:Hq.
  { split; [done|]. by intros [? _]. }
  unfold bind at 1.
  destruct (searchDexPairs _ 8 s) as [[e0|pairs] s1].
  { split; [by intros [= <- <-]|]. by intros [_ [= <- <-]]. }
  split; [|by intros [_ ?]].
  destruct (rankedWithAddr pairs) as [|best rest]; [|done].
  unfold bind at 1.
  destruct (pairDetailLoop_result pairs s1) as (r2 & s2 & -> & _).
  destruct r2 as [res|]; [done|].
  unfold bind at 1.
  destruct (coingeckoStage_result (toLowerCase (trim query)) s2)
    as (r3 & s3 & -> & _).
  destruct r3 as [res|]; [done|].
  by destruct (SPECIAL_MAP _) as [[addr note|]|].
Qed.

End ResolverInvariants.

(** The hypothesis of X20 holds for the query ["Constructor"] when the
    DEX search lists nothing and the other clients throw: the table lookup
    finds the inherited member, and the result has the source [special]
    and neither address nor note. *)
Lemma resolver_address_valid_witness :
  (forall a, (None : option string) = Some a -> Resolver.isAddress a = true)
  /\ ((None : option string) = None <->
      Resolver.special = Resolver.special
      /\ JS.toLowerCase (CM := JS.asciiCaseMapping) (JS.trim "Constructor")
           ∈ Resolver.inheritedNames)
  /\ (is_Some (None : option string) <->
      Resolver.special = Resolver.special /\ is_Some (None : option string)).
Proof.
  exact (resolver_address_valid (CM := JS.asciiCaseMapping)
           (fun q limit log =>
              (inr [], Resolver.Stub.CallSearchDexPairs q limit :: log))
           (fun ch pa log =>
              (inl Resolver.Stub.unavailable, Resolver.Stub.CallGetPair ch pa :: log))
           (fun q log =>
              (inl Resolver.Stub.unavailable, Resolver.Stub.CallHttpSearch q :: log))
           (fun id log =>
              (inl Resolver.Stub.unavailable, Resolver.Stub.CallHttpCoin id :: log))
           "Constructor" [] _
           (Resolver.mkResult None Resolver.special None)
           eq_refl).
Defined.

(** ** Rate limiter: the chats do not interfere, and the wait announced *)
Section RateLimiterMore.
Import RateLimiter RateLimiterRuns.

Lemma rateLimiter_same_bucket now chatId cid bs bs' :
  chatId = Some cid -> bs !! cid = bs' !! cid ->
  (rateLimiter now chatId bs).1 = (rateLimiter now chatId bs').1
  /\ (rateLimiter now chatId bs).2 !! cid = (rateLimiter now chatId bs').2 !! cid.
Proof.
  intros -> Heq. unfold rateLimiter.
  destruct (decide (cid = 0)); [done|].
  unfold bucketOf. rewrite Heq.
  destruct (admission now _) as [o b]. simpl. by rewrite !lookup_insert_eq.
Qed.

Lemma rateLimiter_other_bucket now chatId cid bs :
  chatId <> Some cid -> (rateLimiter now chatId bs).2 !! cid = bs !! cid.
Proof.
  intros Hne. unfold rateLimiter.
  destruct chatId as [c|]; [|done].
  destruct (decide (c = 0)); [done|].
  destruct (admission now _) as [o b]. simpl.
  apply lookup_insert_ne. congruence.
Qed.

Lemma run_isolated cid calls bs bs' :
  bs !! cid = bs' !! cid ->
  outcomes_of cid calls (run calls bs).1
    = (run (filter (fun c => of_chat cid c = true) calls) bs').1
  /\ (run calls bs).2 !! cid
     = (run (filter (fun c => of_chat cid c = true) calls) bs').2 !! cid.
Proof.
  revert bs bs'. induction calls as [|[now chatId] rest IH]; intros bs bs' Heq.
  - done.
  - destruct (of_chat cid (now, chatId)) eqn:Hc.
    + rewrite filter_cons_True by done.
      unfold of_chat in Hc. apply bool_decide_eq_true in Hc. simpl in Hc.
      destruct (rateLimiter_same_bucket now chatId cid bs bs' Hc Heq) as [Ho Hb].
      cbn [run].
      destruct (rateLimiter now chatId bs) as [o b1].
      destruct (rateLimiter now chatId bs') as [o' b1'].
      simpl in Ho, Hb. subst o'.
      specialize (IH b1 b1' Hb).
      destruct (run rest b1) as [os b2].
      destruct (run (filter _ rest) b1') as [os' b2'].
      simpl in *. unfold of_chat at 1. simpl. rewrite bool_decide_eq_true_2 by done.
      destruct IH as [-> ->]. done.
    + rewrite filter_cons_False by (by rewrite Hc).
      unfold of_chat in Hc. apply bool_decide_eq_false in Hc. simpl in Hc.
      pose proof (rateLimiter_other_bucket now chatId cid bs Hc) as Hb.
      cbn [run].
      destruct (rateLimiter now chatId bs) as [o b1]. simpl in Hb.
      assert (Heq' : b1 !! cid = bs' !! cid) by congruence.
      specialize (IH b1 bs' Heq').
      destruct (run rest b1) as [os b2]. simpl in *.
      unfold of_chat at 1. simpl. rewrite bool_decide_eq_false_2 by done.
      done.
Qed.

(** X22. The chats do not interfere.  In any sequence of updates from any
    chats, the outcomes of the updates of one chat, and the bucket it is
    left with, are those of the run in which only its updates take place. *)
Theorem rateLimiter_chats_isolated
    (cid : Z) (calls : list (Z * option Z)) (buckets : gmap Z Bucket) :
  let own := filter (fun c => of_chat cid c = true) calls in
  outcomes_of cid calls (run calls buckets).1 = (run own buckets).1
  /\ (run calls buckets).2 !! cid = (run own buckets).2 !! cid.
Proof. intros own. by apply run_isolated. Qed.

Lemma ceil_div_shift x d : ceil_div (x - 1000 * d) 1000 = ceil_div x 1000 - d.
Proof.
  unfold ceil_div.
  replace (- (x - 1000 * d)) with (- x + d * 1000) by lia.
  rewrite Z.div_add by lia. lia.
Qed.

Lemma ceil_div_bounds x : 1000 * (ceil_div x 1000 - 1) < x <= 1000 * ceil_div x 1000.
Proof.
  unfold ceil_div.
  pose proof (Z.div_mod (- x) 1000 ltac:(lia)) as H.
  pose proof (Z.mod_pos_bound (- x) 1000 ltac:(lia)) as H'.
  lia.
Qed.

(** X23. The wait announced is exact.  When a call on a bucket with tokens
    from 0 to 5, whose refill instant is not in the future, is answered
    "Too many requests. Try again in ~[secs]s", then [secs] is from 1 to 6;
    a call a whole number [d] of seconds later is admitted when [d] is at
    least [secs], and answered the same way with [secs - d] when it is
    less. *)
Theorem tooMany_wait_exact (now : Z) (b b' : Bucket) (secs : Z) :
  bucket_ok b -> last b <= now ->
  admission now b = (TooMany secs, b') ->
  1 <= secs <= 6
  /\ forall d, 0 <= d ->
       (admission (now + 1000 * d) b').1
       = if d <? secs then TooMany (secs - d) else Next.
Proof.
  intros Hok Hlast Hadm.
  assert (Hidle : now - last b < REFILL_MS /\ tokens b = 0
                  /\ MIN_GAP_MS <= now - lastHit b /\ b' = b
                  /\ secs = ceil_div (REFILL_MS - (now - last b)) 1000).
  { unfold admission in Hadm. rewrite refill_lastHit in Hadm.
    destruct (now - lastHit b <? MIN_GAP_MS) eqn:G; [done|].
    apply Z.ltb_ge in G.
    destruct (tokens (refill now b) <=? 0) eqn:E; [|done].
    apply Z.leb_le in E.
    assert (Hr : refill now b = b /\ now - last b < REFILL_MS).
    { unfold refill in *. unfold bucket_ok, CAPACITY, REFILL_MS in *.
      destruct (0 <? now - last b) eqn:E1; [|apply Z.ltb_ge in E1; split; [done|lia]].
      destruct (0 <? (now - last b) / 6000) eqn:E2.
      - simpl in E. lia.
      - split; [done|]. apply Z.ltb_ge in E2.
        destruct (Z_lt_le_dec (now - last b) 6000) as [?|Hge]; [done|].
        pose proof (Z.div_le_mono 6000 (now - last b) 6000 ltac:(lia) Hge) as Hd.
        rewrite Z.div_same in Hd by lia. lia. }
    destruct Hr as [Hr Hi]. rewrite Hr in *.
    injection Hadm as Hs <-. unfold bucket_ok in Hok.
    split; [done|]. split; [lia|]. split; [done|]. split; [done|].
    rewrite Z.rem_small in Hs by lia. done. }
  destruct Hidle as (Hi & Ht & Hg & -> & ->).
  pose proof (ceil_div_bounds (REFILL_MS - (now - last b))) as Hcb.
  unfold REFILL_MS in *. split; [lia|].
  intros d Hd. destruct (d <? _) eqn:E.
  - apply Z.ltb_lt in E.
    unfold admission. rewrite refill_idle by (unfold REFILL_MS; lia).
    destruct (now + 1000 * d - lastHit b <? MIN_GAP_MS) eqn:G;
      [apply Z.ltb_lt in G; lia|].
    rewrite Ht. simpl. f_equal. unfold REFILL_MS.
    rewrite Z.rem_small by lia.
    rewrite <- ceil_div_shift. f_equal. lia.
  - apply Z.ltb_ge in E.
    unfold admission. rewrite refill_lastHit.
    destruct (now + 1000 * d - lastHit b <? MIN_GAP_MS) eqn:G;
      [apply Z.ltb_lt in G; lia|].
    assert (Hr : 0 < tokens (refill (now + 1000 * d) b)).
    { unfold refill, REFILL_MS, CAPACITY.
      destruct (0 <? now + 1000 * d - last b) eqn:E1;
        [|apply Z.ltb_ge in E1; lia].
      pose proof (Z.div_le_mono 6000 (now + 1000 * d - last b) 6000
                    ltac:(lia) ltac:(lia)) as Hdiv.
      rewrite Z.div_same in Hdiv by lia.
      destruct (0 <? (now + 1000 * d - last b) / 6000) eqn:E2;
        [|apply Z.ltb_ge in E2; lia].
      simpl. lia. }
    destruct (tokens _ <=? 0) eqn:E3; [apply Z.leb_le in E3; lia|done].
Qed.

End RateLimiterMore.

(** The hypotheses of X23 hold for the sixth call of the chat that was
    admitted five times from 1000 ms on: it is told to wait 2 s. *)
Lemma tooMany_wait_exact_witness :
  1 <= 2 <= 6
  /\ forall d, 0 <= d ->
       (RateLimiter.admission (5500 + 1000 * d)
          (RateLimiter.mkBucket 0 1000 4600)).1
       = if d <? 2 then RateLimiter.TooMany (2 - d) else RateLimiter.Next.
Proof.
  apply (tooMany_wait_exact 5500 (RateLimiter.mkBucket 0 1000 4600)
           (RateLimiter.mkBucket 0 1000 4600) 2).
  - unfold RateLimiter.bucket_ok, RateLimiter.CAPACITY. simpl. lia.
  - simpl. lia.
  - reflexivity.
Defined.

(** ** The compute-if-absent accessor: values are kept *)
Section WithMemo.
Import Eff Eff.Notations TTLCache.
Context {T W : Type} (Date_now : W -> Z).

(** X24. A value the accessor returns is in the cache when it returns,
    with an expiry that has not passed provided the time to live is not
    negative: until that expiry, the accessor called for the same key
    returns the value and leaves the state as it is, whatever producer and
    time to live it is given, so the producer is not run. *)
Theorem with_memoizes
    (key : string) (fn : M (St T W) (option T)) (ttlMs : Z)
    (s s1 : St T W) (x : T) :
  0 <= ttlMs ->
  with_ Date_now key fn ttlMs s = (inr (Some x), s1) ->
  exists deadline,
    Date_now (world s1) <= deadline
    /\ store s1 !! key = Some (mkEntry (Some x) deadline)
    /\ forall fn' ttlMs' w2,
         Date_now w2 <= deadline ->
         with_ Date_now key fn' ttlMs' (mkSt (store s1) w2)
         = (inr (Some x), mkSt (store s1) w2).
Proof.
  intros Httl Hcall.
  assert (Hserve : forall deadline,
            store s1 !! key = Some (mkEntry (Some x) deadline) ->
            forall fn' ttlMs' w2,
              Date_now w2 <= deadline ->
              with_ Date_now key fn' ttlMs' (mkSt (store s1) w2)
              = (inr (Some x), mkSt (store s1) w2)).
  { intros deadline Hk fn' ttlMs' w2 Hn.
    by eapply with_cached_value. }
  unfold with_, bind at 1, getM in Hcall.
  destruct (get key (Date_now (world s)) (store s)) as [cached st0] eqn:Hget.
  destruct cached as [c|].
  - unfold ret in Hcall. injection Hcall as <- <-. cbn [store world].
    unfold get in Hget. destruct (store s !! key) as [hit|] eqn:Hk; [|done].
    destruct (expires hit <? Date_now (world s)) eqn:Hexp; [done|].
    apply Z.ltb_ge in Hexp. injection Hget as Hv <-.
    destruct hit as [hv he]. simpl in *. subst hv.
    exists he. split; [done|]. split; [done|]. by apply Hserve.
  - unfold storeFresh, bind, setM, ret in Hcall.
    destruct (fn _) as [[e|fresh] s2]; [done|].
    injection Hcall as -> <-. cbn [store world].
    exists (Date_now (world s2) + ttlMs). split; [lia|].
    assert (Hk : set key (Some x) ttlMs (Date_now (world s2)) (store s2) !! key
                 = Some (mkEntry (Some x) (Date_now (world s2) + ttlMs)))
      by apply lookup_insert_eq.
    split; [done|]. apply (Hserve _ Hk).
Qed.

End WithMemo.

(** The hypotheses of X24 hold for a producer that resolves to 7 at the
    instant 1000 with a time to live of 500: the value is served until
    1500. *)
Lemma with_memoizes_witness :
  exists deadline,
    1000 <= deadline
    /\ (<[ "k"%string := TTLCache.mkEntry (Some 7%nat) 1500 ]> ∅
          : gmap string (TTLCache.CacheEntry nat)) !! "k"%string
       = Some (TTLCache.mkEntry (Some 7%nat) deadline)
    /\ forall fn' ttlMs' w2,
         w2 <= deadline ->
         TTLCache.with_ Fixtures.clock "k" fn' ttlMs'
           (TTLCache.mkSt (<[ "k"%string := TTLCache.mkEntry (Some 7%nat) 1500 ]> ∅) w2)
         = (inr (Some 7%nat),
            TTLCache.mkSt (<[ "k"%string := TTLCache.mkEntry (Some 7%nat) 1500 ]> ∅) w2).
Proof.
  exact (with_memoizes Fixtures.clock "k" (Eff.ret (Some 7%nat)) 500
           (TTLCache.mkSt ∅ 1000)
           (TTLCache.mkSt (<[ "k"%string := TTLCache.mkEntry (Some 7%nat) 1500 ]> ∅) 1000)
           7%nat ltac:(lia) eq_refl).
Defined.

(** ** Callback store: expiry, and the identifiers on the buttons *)
Section CbStoreMore.
Import CbStore CbButton.
Context {V : Type}.
Implicit Types (store : gmap string (Entry V)).

(** X25. A payload whose expiry has passed is never returned: a take
    after the expiry answers [null].  Whatever the identifier, a take
    leaves no entry under it and no expired entry at all, and every entry
    it leaves was there before. *)
Theorem takePayload_expired_and_swept (id : string) (now : Z) store :
  (forall e, store !! id = Some e -> exp e < now ->
             (takePayload id now store).1 = None)
  /\ (takePayload id now store).2 !! id = None
  /\ (forall k e, (takePayload id now store).2 !! k = Some e ->
                  now <= exp e /\ store !! k = Some e).
Proof.
  unfold takePayload. split; [|split].
  - intros e He Hexp.
    destruct (gc now store !! id) as [hit|] eqn:E; [|done].
    apply gc_lookup_Some in E as [E ?]. rewrite He in E. injection E as <-. lia.
  - destruct (gc now store !! id) as [hit|] eqn:E; simpl; [|done].
    apply lookup_delete_eq.
  - intros k e.
    destruct (gc now store !! id) as [hit|] eqn:E; simpl.
    + intros Hk. destruct (decide (k = id)) as [->|Hne].
      * by rewrite lookup_delete_eq in Hk.
      * rewrite lookup_delete_ne in Hk by done.
        apply gc_lookup_Some in Hk as [? ?]. done.
    + intros Hk. apply gc_lookup_Some in Hk as [? ?]. done.
Qed.

Lemma chars_get (n : nat) :
  (n < 64)%nat ->
  exists c, String.get n chars = Some c /\ isIdChar c = true.
Proof.
  intros H.
  do 64 (destruct n as [|n]; [eexists; split; reflexivity|]). lia.
Qed.

Lemma randomId_chars (draws : list nat) :
  String.length (randomId draws) = length draws
  /\ forall n, takeClass (length draws + n) (randomId draws) = randomId draws.
Proof.
  induction draws as [|d rest [IH1 IH2]]; [split; [done|by intros []]|].
  destruct (chars_get (d mod 64)) as (c & Hc & Hid).
  { apply Nat.mod_upper_bound. lia. }
  cbn [randomId]. rewrite Hc. split.
  - simpl. by rewrite IH1.
  - intros n. cbn [length Nat.add takeClass]. rewrite Hid. by rewrite IH2.
Qed.

(** X26. The identifier [putPayload] draws has 12 characters of the class
    [[A-Za-z0-9_-]] whatever the draws are, so the pattern of the button
    action matches the callback data [CB:<id>] built from it and captures
    the whole identifier; the take that follows the store, before the
    expiry, gets the payload back. *)
Theorem putPayload_id_round_trip
    (value : V) (ttlMs now now' : Z) (draws : list nat) store :
  length draws = 12%nat -> now' <= now + ttlMs ->
  let '(id, store1) := putPayload value ttlMs now draws store in
  String.length id = 12%nat
  /\ matchAtStart (callbackData id) = Some id
  /\ (takePayload id now' store1).1 = Some value.
Proof.
  intros Hlen Hexp. unfold putPayload.
  destruct (randomId_chars draws) as [Hl Ht]. rewrite Hlen in Hl.
  split; [done|]. split.
  - unfold callbackData, matchAtStart.
    change ("CB:" ++ randomId draws)%string
      with (String "C" (String "B" (String ":" (randomId draws)))).
    specialize (Ht 20%nat). rewrite Hlen in Ht. simpl Nat.add in Ht.
    cbv beta iota zeta. rewrite Ht, Hl. done.
  - unfold takePayload.
    assert (gc now' (<[randomId draws := {| v := value; exp := now + ttlMs |}]>
                       (gc now store)) !! randomId draws
            = Some {| v := value; exp := now + ttlMs |}) as ->; [|done].
    apply gc_lookup_Some. split; [apply lookup_insert_eq|done].
Qed.

End CbStoreMore.

(** The hypotheses of X26 hold for twelve draws on an empty store with
    the default time to live, and a take 1 s later. *)
Lemma putPayload_id_round_trip_witness :
  String.length "abcdefghijkl" = 12%nat
  /\ CbButton.matchAtStart (CbButton.callbackData "abcdefghijkl")
     = Some "abcdefghijkl"%string
  /\ (CbStore.takePayload "abcdefghijkl" 2000
        (<[ "abcdefghijkl"%string := CbStore.mkEntry 7%nat (1000 + CbStore.TTL_MS) ]>
           (CbStore.gc 1000 ∅))).1 = Some 7%nat.
Proof.
  exact (putPayload_id_round_trip 7%nat CbStore.TTL_MS 1000 2000
           [0; 1; 2; 3; 4; 5; 6; 7; 8; 9; 10; 11]%nat ∅ eq_refl
           ltac:(unfold CbStore.TTL_MS; lia)).
Defined.

(** ** The hypotheses of the theorems on the clients, on scripted
    upstreams *)

(** X3 on an empty cache at the instant 100, with an upstream that lists
    two pools and the limit 1. *)
Lemma searchDexPairs_ranked_witness :
  exists res rest,
    DexLists.searchDexPairs (CM := JS.asciiCaseMapping) Fixtures.clock Fixtures.twoPools "PEPE" 1
      (TTLCache.mkSt ∅ 100)
    = (inr (Some res),
       TTLCache.mkSt
         (TTLCache.set (DexLists.searchKey (CM := JS.asciiCaseMapping) "PEPE" 1) (Some res) 60000 100 ∅) 100)
    /\ res ++ rest ≡ₚ [Scenario.usdcPool; Scenario.xyzPool]
    /\ StronglySorted DexLists.searchOrder (res ++ rest)
    /\ length res = 1%nat.
Proof.
  exact (searchDexPairs_ranked (CM := JS.asciiCaseMapping) Fixtures.clock Fixtures.twoPools "PEPE" 1
           (TTLCache.mkSt ∅ 100)
           (Some [Scenario.usdcPool; Scenario.xyzPool]) 100
           (lookup_empty _) eq_refl ltac:(lia)).
Defined.

(** X4 for the entry stored at 100 under the query ["PEPE"], read again
    as ["pepe"] at 60100. *)
Lemma searchDexPairs_cached_any_case_witness :
  let cache : gmap string (TTLCache.CacheEntry (list Dexscreener.DexPair)) :=
    <[DexLists.searchKey (CM := JS.asciiCaseMapping) "PEPE" 1 :=
        TTLCache.mkEntry (Some [Scenario.xyzPool]) (100 + 60000)]> ∅ in
  DexLists.searchDexPairs (CM := JS.asciiCaseMapping) Fixtures.clock Fixtures.noPools "pepe" 1
    (TTLCache.mkSt cache 60100)
  = (inr (Some [Scenario.xyzPool]), TTLCache.mkSt cache 60100).
Proof.
  exact (searchDexPairs_cached_any_case (CM := JS.asciiCaseMapping) Fixtures.clock Fixtures.noPools
           "PEPE" "pepe" 1
           (TTLCache.mkSt
              (<[DexLists.searchKey (CM := JS.asciiCaseMapping) "PEPE" 1 :=
                   TTLCache.mkEntry (Some [Scenario.xyzPool]) (100 + 60000)]> ∅)
              100)
           [Scenario.xyzPool] 100 60100
           eq_refl (lookup_insert_eq _ _ _)
           ltac:(unfold Fixtures.clock; lia)).
Defined.

(** X5 on an empty cache, with an upstream that lists two pools. *)
Lemma getDexByContract_ranked_witness :
  exists top rest,
    DexLists.getDexByContract (CM := JS.asciiCaseMapping) Fixtures.clock Fixtures.twoPools
      Scenario.tokenAddr (TTLCache.mkSt ∅ 0)
    = (inr (Some (top :: rest)),
       TTLCache.mkSt
         (TTLCache.set (DexLists.contractKey (CM := JS.asciiCaseMapping) Scenario.tokenAddr)
            (Some (top :: rest)) 45000 0 ∅) 0)
    /\ top :: rest ≡ₚ [Scenario.usdcPool; Scenario.xyzPool]
    /\ StronglySorted
         (fun a b => (DexLists.liquidity b <= DexLists.liquidity a)%Q)
         (top :: rest).
Proof.
  exact (getDexByContract_ranked (CM := JS.asciiCaseMapping) Fixtures.clock Fixtures.twoPools
           Scenario.tokenAddr (TTLCache.mkSt ∅ 0)
           Scenario.usdcPool [Scenario.xyzPool] 0
           (lookup_empty _) eq_refl).
Defined.

(** X6 on an empty cache, with an upstream that lists no pair. *)
Lemma getDexByContract_none_witness :
  DexLists.getDexByContract (CM := JS.asciiCaseMapping) Fixtures.clock Fixtures.noPools
    Scenario.otherAddr (TTLCache.mkSt ∅ 0)
  = (inl DexLists.noPairs, TTLCache.mkSt ∅ 0)
  /\ forall w2,
       DexLists.getDexByContract (CM := JS.asciiCaseMapping) Fixtures.clock Fixtures.noPools
         Scenario.otherAddr (TTLCache.mkSt ∅ w2)
       = TTLCache.storeFresh Fixtures.clock
           (DexLists.contractKey (CM := JS.asciiCaseMapping) Scenario.otherAddr)
           (TTLCache.liftW
              (DexLists.fetchContract Fixtures.noPools Scenario.otherAddr))
           45000 (TTLCache.mkSt ∅ w2).
Proof.
  exact (getDexByContract_none (CM := JS.asciiCaseMapping) Fixtures.clock Fixtures.noPools
           Scenario.otherAddr (TTLCache.mkSt ∅ 0) None 0
           (lookup_empty _) eq_refl eq_refl).
Defined.

(** X7 for a lookup of [" BTC "] at the instant 0 that is answered by the
    table: the value is then served from memory until 45000, here to a
    lookup of ["btc"] at 30000. *)
Lemma getCoinGeckoBySymbol_then_memory_witness :
  let lookup :=
    PriceCache.getCoinGeckoBySymbol (CM := JS.asciiCaseMapping) Fixtures.clock Fixtures.rowUntil1000
      Fixtures.writeOk Fixtures.oneCoin Fixtures.btcMarkets Fixtures.noFull
      Fixtures.sleep in
  let cache : gmap string (TTLCache.CacheEntry CoinGecko.CoinInfo) :=
    TTLCache.set (PriceCache.symbolKey "btc") (Some Fixtures.btcInfo) 45000 0 ∅ in
  lookup "btc" (TTLCache.mkSt cache 30000)
  = (inr Fixtures.btcInfo, TTLCache.mkSt cache 30000).
Proof.
  intros lookup cache.
  pose (s0 := TTLCache.mkSt
                (∅ : gmap string (TTLCache.CacheEntry CoinGecko.CoinInfo)) 0).
  destruct (getCoinGeckoBySymbol_then_memory (CM := JS.asciiCaseMapping) Fixtures.clock
              Fixtures.rowUntil1000 Fixtures.writeOk Fixtures.oneCoin
              Fixtures.btcMarkets Fixtures.noFull Fixtures.sleep
              " BTC " s0 (TTLCache.mkSt cache 0) Fixtures.btcInfo eq_refl)
    as (e & _ & _ & He & Hlater).
  specialize (He eq_refl).
  apply (Hlater "btc"%string 30000 eq_refl).
  rewrite He. unfold Fixtures.clock. simpl. lia.
Defined.

(** X8 for a lookup at the instant 0 with a row valid until 1000. *)
Lemma getCoinGeckoBySymbol_table_row_witness :
  PriceCache.getCoinGeckoBySymbol (CM := JS.asciiCaseMapping) Fixtures.clock Fixtures.rowUntil1000
    Fixtures.writeOk Fixtures.oneCoin Fixtures.btcMarkets Fixtures.noFull
    Fixtures.sleep " BTC " (TTLCache.mkSt ∅ 0)
  = (inr Fixtures.btcInfo,
     TTLCache.mkSt
       (TTLCache.set (PriceCache.symbolKey "btc") (Some Fixtures.btcInfo)
          45000 0 ∅) 0).
Proof.
  exact (getCoinGeckoBySymbol_table_row (CM := JS.asciiCaseMapping) Fixtures.clock Fixtures.rowUntil1000
           Fixtures.writeOk Fixtures.oneCoin Fixtures.btcMarkets
           Fixtures.noFull Fixtures.sleep " BTC " (TTLCache.mkSt ∅ 0)
           (PriceCache.mkDbRow Fixtures.btcInfo 1000) 0
           (lookup_empty _) eq_refl eq_refl).
Defined.

(** X9 with an empty table that refuses the write. *)
Lemma getCoinGeckoBySymbol_write_fails_witness :
  PriceCache.getCoinGeckoBySymbol (CM := JS.asciiCaseMapping) Fixtures.clock Fixtures.noRow
    Fixtures.writeFails Fixtures.oneCoin Fixtures.btcMarkets Fixtures.noFull
    Fixtures.sleep "btc" (TTLCache.mkSt ∅ 0)
  = (inl Fixtures.tableDown, TTLCache.mkSt ∅ 0).
Proof.
  exact (getCoinGeckoBySymbol_write_fails (CM := JS.asciiCaseMapping) Fixtures.clock Fixtures.noRow
           Fixtures.writeFails Fixtures.oneCoin Fixtures.btcMarkets
           Fixtures.noFull Fixtures.sleep "btc" (TTLCache.mkSt ∅ 0)
           None 0 0 0 Fixtures.btcInfo Fixtures.tableDown
           (lookup_empty _) eq_refl
           ltac:(intros r Hr; discriminate Hr) eq_refl eq_refl).
Defined.

(** X12 with a search that lists no coin. *)
Lemma unknown_symbol_user_message_witness :
  exists e,
    CoinGecko.fetchFromCoinGecko (CM := JS.asciiCaseMapping) Fixtures.noCoin Fixtures.btcMarkets
      Fixtures.noFull Fixtures.sleep "zzz" 0 = (inl e, 0)
    /\ forall fallback, BotUtil.userError (CM := JS.asciiCaseMapping) e fallback = BotUtil.notFoundText.
Proof.
  exact (unknown_symbol_user_message (CM := JS.asciiCaseMapping) Fixtures.noCoin Fixtures.btcMarkets
           Fixtures.noFull Fixtures.sleep "zzz" 0 0 (Some [])
           eq_refl eq_refl).
Defined.

(** X13 on an empty cache, with an upstream that lists no pair. *)
Lemma unknown_contract_user_message_witness :
  exists e,
    (DexLists.getDexByContract (CM := JS.asciiCaseMapping) Fixtures.clock Fixtures.noPools
       Scenario.otherAddr (TTLCache.mkSt ∅ 0)).1 = inl e
    /\ forall fallback, BotUtil.userError (CM := JS.asciiCaseMapping) e fallback = fallback.
Proof.
  exact (unknown_contract_user_message (CM := JS.asciiCaseMapping) Fixtures.clock Fixtures.noPools
           Scenario.otherAddr (TTLCache.mkSt ∅ 0) None 0
           (lookup_empty _) eq_refl eq_refl).
Defined.


(** ** The symbol parser *)
Section ParseProps.
Import JS Parse.
Context {CM : CaseMapping}.

Lemma string_app_nil_r (a : string) : (a ++ EmptyString = a)%string.
Proof. induction a as [|x a IH]; [done|]. by rewrite append_cons, IH. Qed.

Lemma orElse_Some a b r : orElse a b = Some r -> a = Some r \/ b = Some r.
Proof. destruct a; simpl; auto. Qed.

Lemma lit_yields Q pat k : yields Q k -> yields Q (lit pat k).
Proof.
  intros Hk. induction pat as [|c pat IH]; intros pos r; simpl; [apply Hk|].
  destruct (snd pos) as [|x rest]; [done|].
  destruct (eqb_ci x c); [apply IH|done].
Qed.

Lemma alt_yields Q (m1 m2 : Cont -> Cont) k :
  yields Q (m1 k) -> yields Q (m2 k) -> yields Q (alt m1 m2 k).
Proof.
  intros H1 H2 pos r H. unfold alt in H.
  apply orElse_Some in H as [H|H]; [by eapply H1|by eapply H2].
Qed.

Lemma opt_yields Q (m : Cont -> Cont) k :
  yields Q (m k) -> yields Q k -> yields Q (opt m k).
Proof.
  intros H1 H2 pos r H. unfold opt in H.
  apply orElse_Some in H as [H|H]; [by eapply H1|by eapply H2].
Qed.

(** What the continuation of a quantified class receives: the text taken
    before, followed by [min] to [max] characters of the class. *)
Lemma rep_inv p k rest :
  forall min max acc prev r,
    rep p min max k acc prev rest = Some r ->
    exists taken pos,
      k (acc ++ taken)%string pos = Some r
      /\ allChars p taken = true
      /\ (min <= String.length taken)%nat
      /\ (forall n, max = Some n -> String.length taken <= n)%nat.
Proof.
  induction rest as [|x rest IH]; intros min max acc prev r H.
  - simpl in H. destruct (min =? 0)%nat eqn:E; [|done].
    apply Nat.eqb_eq in E. exists EmptyString, (prev, EmptyString).
    split; [by rewrite string_app_nil_r|]. split; [done|].
    split; [simpl; lia|]. intros n _. simpl. lia.
  - assert (Hstop : (if (min =? 0)%nat then k acc (prev, String x rest) else None)
                    = Some r ->
                    exists taken pos,
                      k (acc ++ taken)%string pos = Some r
                      /\ allChars p taken = true
                      /\ (min <= String.length taken)%nat
                      /\ (forall n, max = Some n -> String.length taken <= n)%nat).
    { destruct (min =? 0)%nat eqn:E; [|done]. apply Nat.eqb_eq in E. intros Hk.
      exists EmptyString, (prev, String x rest).
      split; [by rewrite string_app_nil_r|]. split; [done|].
      split; [simpl; lia|]. intros n _. simpl. lia. }
    cbn [rep] in H.
    destruct (p x && negb (bool_decide (max = Some 0%nat))) eqn:E; [|by apply Hstop].
    apply orElse_Some in H as [H|H]; [|by apply Hstop].
    apply andb_true_iff in E as [Hp Hmax].
    apply negb_true_iff, bool_decide_eq_false in Hmax.
    apply IH in H as (taken & pos & Hk & Hall & Hmin & Hle).
    exists (String x taken), pos. split.
    { rewrite <- Hk. f_equal. by rewrite string_app_assoc. }
    split; [simpl; by rewrite Hp|]. split; [simpl; lia|].
    intros n ->. simpl. destruct n as [|n]; [done|].
    specialize (Hle n eq_refl). lia.
Qed.

Lemma spacesFrom_unfold min k prev rest :
  spacesFrom min k prev rest =
  let stop := if (min =? 0)%nat then k (prev, rest) else None in
  match rest with
  | EmptyString => stop
  | String x s1 =>
    if isAsciiSpace x then
      orElse (spacesFrom (Nat.pred min) k (Some x) s1) stop
    else
      match s1 with
      | EmptyString => stop
      | String y s2 =>
        if isSpace2 x y then
          orElse (spacesFrom (Nat.pred min) k (Some y) s2) stop
        else
          match s2 with
          | EmptyString => stop
          | String z s3 =>
            if isSpace3 x y z then
              orElse (spacesFrom (Nat.pred min) k (Some z) s3) stop
            else stop
          end
      end
  end.
Proof. by destruct rest. Qed.

Lemma spacesFrom_yields Q k :
  yields Q k ->
  forall n rest min prev r,
    (String.length rest <= n)%nat ->
    spacesFrom min k prev rest = Some r -> Q r.
Proof.
  intros Hk. induction n as [|n IH]; intros rest min prev r Hlen H.
  - destruct rest; [|simpl in Hlen; lia]. simpl in H.
    destruct (min =? 0)%nat; [by eapply Hk|done].
  - rewrite spacesFrom_unfold in H. cbv zeta in H.
    destruct rest as [|x [|y [|z s3]]];
      repeat match type of H with
             | (if ?b then _ else _) = Some _ => destruct b
             | orElse _ _ = Some _ => apply orElse_Some in H as [H|H]
             end;
      first [ discriminate H
            | by eapply Hk
            | eapply IH; [|exact H]; simpl in Hlen |- *; lia ].
Qed.

Lemma spaces_yields Q min k : yields Q k -> yields Q (spaces min k).
Proof.
  intros Hk pos r H. unfold spaces in H.
  by eapply (spacesFrom_yields Q k Hk _ _ _ _ _ (Nat.le_refl _)).
Qed.

Lemma search_yields Q re prev text r :
  yields Q re -> search re prev text = Some r -> Q r.
Proof.
  intros Hre. revert prev. induction text as [|x rest IH]; intros prev H;
    simpl in H; apply orElse_Some in H as [H|H]; try done;
    try (by eapply Hre). by eapply IH.
Qed.

(** The text of the capture group. *)
Lemma symbolThenBoundary_yields : yields (fun cap => isSymbolToken cap = true) symbolThenBoundary.
Proof.
  intros pos r H. unfold symbolThenBoundary in H.
  apply rep_inv in H as (taken & pos' & H & Hall & Hmin & Hmax).
  unfold wordBoundary in H. destruct (xorb _ _); [|done].
  rewrite append_nil in H.
  injection H as <-. specialize (Hmax 15%nat eq_refl).
  unfold isSymbolToken.
  rewrite Hall, andb_true_r. apply andb_true_iff.
  split; [by apply Nat.leb_le|by apply Nat.leb_le].
Qed.

Lemma reDollar_yields : yields (fun cap => isSymbolToken cap = true) reDollar.
Proof. apply lit_yields, symbolThenBoundary_yields. Qed.

Lemma rePriceOf_yields : yields (fun cap => isSymbolToken cap = true) rePriceOf.
Proof.
  unfold rePriceOf.
  assert (H : yields (fun cap => isSymbolToken cap = true)
                (spaces 1
                   (opt (alt (lit "of") (lit "for"))
                      (spaces 0 (opt (lit "$") symbolThenBoundary))))).
  { apply spaces_yields.
    assert (H0 : yields (fun cap => isSymbolToken cap = true)
                   (spaces 0 (opt (lit "$") symbolThenBoundary))).
    { apply spaces_yields, opt_yields;
        [apply lit_yields|]; apply symbolThenBoundary_yields. }
    apply opt_yields; [|done].
    apply alt_yields; by apply lit_yields. }
  apply alt_yields; [by apply lit_yields|].
  apply alt_yields; by apply lit_yields.
Qed.

Lemma reWhatPrice_yields : yields (fun cap => isSymbolToken cap = true) reWhatPrice.
Proof.
  unfold reWhatPrice.
  assert (H : yields (fun cap => isSymbolToken cap = true)
                (spaces 1
                   (lit "the"
                      (spaces 1
                         (lit "price"
                            (spaces 1
                               (lit "of"
                                  (spaces 1 (opt (lit "$") symbolThenBoundary))))))))).
  { repeat first [apply spaces_yields | apply lit_yields].
    apply opt_yields; [apply lit_yields|]; apply symbolThenBoundary_yields. }
  apply lit_yields. apply opt_yields; [|done].
  apply alt_yields; by apply lit_yields.
Qed.

Lemma toUpperChar_alnum c :
  isAlnum c = true -> (isUpperChar (toUpperChar c) || isDigitChar (toUpperChar c)) = true.
Proof.
  destruct c as [[] [] [] [] [] [] [] []]; vm_compute; intros; congruence.
Qed.

Lemma isAlnum_ascii c : isAlnum c = true -> isAsciiChar c = true.
Proof. destruct c as [[] [] [] [] [] [] [] []]; vm_compute; congruence. Qed.

Lemma alnum_isAsciiString w : allChars isAlnum w = true -> isAsciiString w = true.
Proof.
  induction w as [|c w IH]; [done|]. simpl. intros H.
  apply andb_true_iff in H as [Hc H]. by rewrite (isAlnum_ascii c Hc), IH.
Qed.

Lemma asciiUpperCase_length s :
  String.length (asciiUpperCase s) = String.length s.
Proof. induction s as [|c s IH]; [done|]. simpl. by rewrite IH. Qed.

(** What the callers get for a token of 2 to 15 letters and digits: the
    token is ASCII, so its capitals are those of its letters. *)
Lemma toUpperCase_symbol w :
  isSymbolToken w = true ->
  toUpperCase w = asciiUpperCase w
  /\ (2 <= String.length (toUpperCase w) <= 15)%nat
  /\ allChars (fun c => isUpperChar c || isDigitChar c) (toUpperCase w) = true.
Proof.
  unfold isSymbolToken. intros H.
  apply andb_true_iff in H as [H Hall]. apply andb_true_iff in H as [H2 H15].
  apply Nat.leb_le in H2, H15.
  assert (Hup : toUpperCase w = asciiUpperCase w).
  { unfold toUpperCase. by rewrite (alnum_isAsciiString w Hall). }
  rewrite Hup. split; [done|].
  rewrite asciiUpperCase_length. split; [lia|].
  clear H2 H15 Hup. induction w as [|c w IH]; [done|].
  simpl in Hall |- *. apply andb_true_iff in Hall as [Hc Hall].
  rewrite (toUpperChar_alnum c Hc). by apply IH.
Qed.

Lemma lastNonStopword_symbol parts sym :
  lastNonStopword parts = Some sym ->
  exists w, isSymbolToken w = true /\ sym = toUpperCase w.
Proof.
  induction parts as [|part before IH]; [done|]. simpl.
  destruct (bool_decide (toLowerCase part ∈ STOPWORDS)); [done|].
  destruct (isSymbolToken (toLowerCase part)) eqn:E; [|done].
  intros [= <-]. by eexists.
Qed.

Lemma extractSymbolish_token text sym :
  extractSymbolish text = Some sym ->
  exists w, isSymbolToken w = true /\ sym = toUpperCase w.
Proof.
  unfold extractSymbolish.
  destruct (match_ reDollar (trim text)) as [cap|] eqn:E1.
  { intros [= <-]. exists cap. split; [|done].
    by apply (search_yields _ _ _ _ _ reDollar_yields E1). }
  destruct (orElse _ _) as [cap|] eqn:E2.
  { intros [= <-]. exists cap. split; [|done].
    apply orElse_Some in E2 as [E2|E2].
    - by apply (search_yields _ _ _ _ _ rePriceOf_yields E2).
    - by apply (search_yields _ _ _ _ _ reWhatPrice_yields E2). }
  destruct (partsOf (trim text)) as [|part [|part2 rest]];
    [apply lastNonStopword_symbol| |apply lastNonStopword_symbol].
  destruct (isSymbolToken part) eqn:E3; [|apply lastNonStopword_symbol].
  intros [= <-]. by eexists.
Qed.

(** X27. Whatever the text, a symbol [extractSymbolish] returns has 2 to
    15 characters, each a capital letter or a digit: it is the upper-cased
    form of 2 to 15 letters and digits. *)
Theorem extractSymbolish_shape (text sym : string) :
  extractSymbolish text = Some sym ->
  (2 <= String.length sym <= 15)%nat
  /\ allChars (fun c => isUpperChar c || isDigitChar c) sym = true.
Proof.
  intros H. apply extractSymbolish_token in H as (w & Hw & ->).
  by apply toUpperCase_symbol in Hw as [_ ?].
Qed.

End ParseProps.

(** The hypothesis of X27 holds for a question about PEPE. *)
Lemma extractSymbolish_shape_witness :
  (2 <= String.length "PEPE" <= 15)%nat
  /\ Parse.allChars (fun c => JS.isUpperChar c || Parse.isDigitChar c) "PEPE" = true.
Proof.
  exact (extractSymbolish_shape (CM := JS.asciiCaseMapping)
           "What is the price of pepe?" "PEPE" eq_refl).
Defined.

(** ** The symbol parser: an explicit [$SYMBOL] *)
Section ParseDollar.
Import JS Parse ParseTexts.
Context {CM : CaseMapping}.

Lemma plain_lt c : plain c = true -> (nat_of_ascii c < 128)%nat.
Proof.
  unfold plain, isAsciiChar. intros H. apply andb_true_iff in H as [H _].
  by apply Nat.ltb_lt in H.
Qed.

Lemma plain_not_space c : plain c = true -> isAsciiSpace c = false.
Proof.
  unfold plain. intros H. apply andb_true_iff in H as [_ H].
  by apply negb_true_iff in H.
Qed.

Lemma eqb_above c k :
  (nat_of_ascii c < 128)%nat -> (128 <= k)%nat -> (nat_of_ascii c =? k)%nat = false.
Proof. intros. apply Nat.eqb_neq. lia. Qed.

Lemma leb_above c :
  (nat_of_ascii c < 128)%nat -> (128 <=? nat_of_ascii c)%nat = false.
Proof. intros. apply Nat.leb_gt. lia. Qed.

(** A plain character is at no place of a white space of two or three
    bytes, in either direction. *)
Lemma isSpace2_plain c x :
  plain c = true -> isSpace2 c x = false /\ isSpace2 x c = false.
Proof.
  intros H%plain_lt. unfold isSpace2.
  rewrite !(eqb_above c) by (done || lia).
  split; [done|apply andb_false_r].
Qed.

Lemma isSpace3_plain c x y :
  plain c = true ->
  isSpace3 c x y = false /\ isSpace3 x c y = false /\ isSpace3 x y c = false.
Proof.
  intros H%plain_lt. unfold isSpace3. cbv zeta.
  rewrite !(eqb_above c) by (done || lia). rewrite (leb_above c) by done.
  split; [done|]. split.
  - destruct (nat_of_ascii x =? 225)%nat, (nat_of_ascii x =? 226)%nat,
      (nat_of_ascii x =? 227)%nat, (nat_of_ascii x =? 239)%nat; reflexivity.
  - destruct (nat_of_ascii x =? 225)%nat, (nat_of_ascii x =? 226)%nat,
      (nat_of_ascii x =? 227)%nat, (nat_of_ascii x =? 239)%nat,
      (nat_of_ascii y =? 154)%nat, (nat_of_ascii y =? 128)%nat,
      (nat_of_ascii y =? 129)%nat, (nat_of_ascii y =? 187)%nat; reflexivity.
Qed.

Lemma space2_plain d c x :
  plain c = true -> space2 d c x = false /\ space2 d x c = false.
Proof.
  intros H. destruct (isSpace2_plain c x H). unfold space2. by destruct d.
Qed.

Lemma space3_plain d c x y :
  plain c = true ->
  space3 d c x y = false /\ space3 d x c y = false /\ space3 d x y c = false.
Proof.
  intros H. destruct (isSpace3_plain c x y H) as (? & ? & ?).
  destruct (isSpace3_plain c y x H) as (? & ? & ?).
  unfold space3. by destruct d.
Qed.

Lemma strip_unfold d s :
  strip d s =
  match s with
  | EmptyString => EmptyString
  | String x s1 =>
    if isAsciiSpace x then strip d s1
    else
      match s1 with
      | EmptyString => s
      | String y s2 =>
        if space2 d x y then strip d s2
        else
          match s2 with
          | EmptyString => s
          | String z s3 => if space3 d x y z then strip d s3 else s
          end
      end
  end.
Proof. by destruct s. Qed.

(** Stripping white space off a text stops at the first plain character
    at the latest: what is dropped is a beginning of what comes before
    that character. *)
Lemma strip_keeps d c :
  plain c = true ->
  forall n pre rest,
    (String.length pre <= n)%nat ->
    exists dropped pre',
      pre = (dropped ++ pre')%string
      /\ strip d (pre ++ String c rest) = (pre' ++ String c rest)%string.
Proof.
  intros Hc.
  assert (Hstep : forall k pre1 pre2 rest,
            (exists dropped pre',
                pre2 = (dropped ++ pre')%string
                /\ k = (pre' ++ String c rest)%string) ->
            exists dropped pre',
              (pre1 ++ pre2)%string = (dropped ++ pre')%string
              /\ k = (pre' ++ String c rest)%string).
  { intros k pre1 pre2 rest (dr & pre' & -> & ->).
    exists (pre1 ++ dr)%string, pre'. split; [|done].
    by rewrite string_app_assoc. }
  assert (Hstay : forall pre rest,
            exists dropped pre',
              pre = (dropped ++ pre')%string
              /\ (pre ++ String c rest)%string = (pre' ++ String c rest)%string).
  { intros pre rest. by exists EmptyString, pre. }
  pose proof (plain_not_space c Hc) as Hsp.
  induction n as [|n IH]; intros pre rest Hlen.
  - destruct pre; [|simpl in Hlen; lia]. rewrite append_nil.
    exists EmptyString, EmptyString. split; [done|]. rewrite append_nil.
    rewrite strip_unfold, Hsp. destruct rest as [|y [|z s3]]; [done| |].
    + by rewrite (proj1 (space2_plain d c y Hc)).
    + rewrite (proj1 (space2_plain d c y Hc)).
      by rewrite (proj1 (space3_plain d c y z Hc)).
  - rewrite strip_unfold.
    destruct pre as [|x [|y [|z pre3]]]; rewrite ?append_cons, ?append_nil.
    + rewrite Hsp. exists EmptyString, EmptyString. split; [done|].
      rewrite append_nil. destruct rest as [|y [|z s3]]; [done| |].
      * by rewrite (proj1 (space2_plain d c y Hc)).
      * rewrite (proj1 (space2_plain d c y Hc)).
        by rewrite (proj1 (space3_plain d c y z Hc)).
    + destruct (isAsciiSpace x).
      { apply (Hstep _ (String x EmptyString) EmptyString).
        rewrite <- (append_nil (String c rest)). apply IH. simpl. lia. }
      rewrite (proj2 (space2_plain d c x Hc)).
      change (String x (String c rest))
        with (String x EmptyString ++ String c rest)%string.
      destruct rest as [|z s3]; [apply Hstay|].
      rewrite (proj1 (proj2 (space3_plain d c x z Hc))). apply Hstay.
    + destruct (isAsciiSpace x).
      { apply (Hstep _ (String x EmptyString) (String y EmptyString)).
        change (String y (String c rest))
          with (String y EmptyString ++ String c rest)%string.
        apply IH. simpl in Hlen |- *. lia. }
      destruct (space2 d x y).
      { apply (Hstep _ (String x (String y EmptyString)) EmptyString).
        rewrite <- (append_nil (String c rest)). apply IH. simpl. lia. }
      rewrite (proj2 (proj2 (space3_plain d c x y Hc))).
      change (String x (String y (String c rest)))
        with (String x (String y EmptyString) ++ String c rest)%string.
      apply Hstay.
    + destruct (isAsciiSpace x).
      { apply (Hstep _ (String x EmptyString) (String y (String z pre3))).
        change (String y (String z (pre3 ++ String c rest)))
          with (String y (String z pre3) ++ String c rest)%string.
        apply IH. simpl in Hlen |- *. lia. }
      destruct (space2 d x y).
      { apply (Hstep _ (String x (String y EmptyString)) (String z pre3)).
        change (String z (pre3 ++ String c rest))
          with (String z pre3 ++ String c rest)%string.
        apply IH. simpl in Hlen |- *. lia. }
      destruct (space3 d x y z).
      { apply (Hstep _ (String x (String y (String z EmptyString))) pre3).
        apply IH. simpl in Hlen |- *. lia. }
      change (String x (String y (String z (pre3 ++ String c rest))))
        with (String x (String y (String z pre3)) ++ String c rest)%string.
      apply Hstay.
Qed.

Lemma reverse_app (a b : string) :
  reverse (a ++ b) = (reverse b ++ reverse a)%string.
Proof.
  induction a as [|x a IH]; [by rewrite append_nil, string_app_nil_r|].
  rewrite append_cons. simpl. by rewrite IH, string_app_assoc.
Qed.

Lemma reverse_involutive (s : string) : reverse (reverse s) = s.
Proof.
  induction s as [|x s IH]; [done|]. simpl. rewrite reverse_app, IH. done.
Qed.

Lemma string_snoc c (s : string) :
  exists init z, String c s = (init ++ String z EmptyString)%string.
Proof.
  revert c. induction s as [|y s IH]; intros c.
  - by exists EmptyString, c.
  - destruct (IH y) as (init & z & ->). by exists (String c init), z.
Qed.

Lemma allChars_app p (a b : string) :
  allChars p (a ++ b) = allChars p a && allChars p b.
Proof.
  induction a as [|x a IH]; [done|]. rewrite append_cons. simpl.
  by rewrite IH, andb_assoc.
Qed.

Lemma isAlnum_plain c : isAlnum c = true -> plain c = true.
Proof. destruct c as [[] [] [] [] [] [] [] []]; vm_compute; congruence. Qed.

Lemma eqb_ci_dollar x : eqb_ci x "$" = Ascii.eqb x "$".
Proof. by destruct x as [[] [] [] [] [] [] [] []]. Qed.

Lemma endsSymbol_prefix (a b : string) :
  endsSymbol (a ++ b) = true -> endsSymbol a = true.
Proof. destruct a as [|x a]; [done|]. by rewrite append_cons. Qed.

(** The trimmed text keeps the symbol where it is: white space, of one
    byte or more, is taken off before the dollar sign and after the
    symbol only. *)
Lemma trim_around pre w post :
  noDollar pre = true -> isSymbolToken w = true -> endsSymbol post = true ->
  exists pre' post',
    trim (pre ++ String "$" (w ++ post)) = (pre' ++ String "$" (w ++ post'))%string
    /\ noDollar pre' = true /\ endsSymbol post' = true.
Proof.
  intros Hpre Hw Hpost. unfold trim, trimStart, trimEnd.
  destruct (strip_keeps true "$" eq_refl _ pre (w ++ post) (Nat.le_refl _))
    as (dr & pre' & -> & ->).
  assert (Hpre' : noDollar pre' = true).
  { unfold noDollar in Hpre |- *. rewrite allChars_app in Hpre.
    by apply andb_true_iff in Hpre as [_ ?]. }
  assert (Hlast : exists init z, w = (init ++ String z EmptyString)%string
                                 /\ plain z = true).
  { unfold isSymbolToken in Hw. apply andb_true_iff in Hw as [Hlen Hall].
    destruct w as [|c w]; [done|].
    destruct (string_snoc c w) as (init & z & E). exists init, z.
    split; [done|]. rewrite E, allChars_app in Hall.
    apply andb_true_iff in Hall as [_ Hz]. simpl in Hz.
    rewrite andb_true_r in Hz. by apply isAlnum_plain. }
  destruct Hlast as (init & z & -> & Hz).
  replace (pre' ++ String "$" ((init ++ String z EmptyString) ++ post))%string
    with ((pre' ++ String "$" init) ++ String z post)%string
    by (repeat (rewrite ?string_app_assoc, ?append_cons, ?append_nil); done).
  change (String z post) with (String z EmptyString ++ post)%string.
  rewrite (reverse_app (pre' ++ String "$" init) (String z EmptyString ++ post)).
  rewrite (reverse_app (String z EmptyString) post), string_app_assoc.
  change (reverse (String z EmptyString)) with (String z EmptyString).
  rewrite append_cons, append_nil.
  destruct (strip_keeps false z Hz _ (reverse post)
              (reverse (pre' ++ String "$" init)) (Nat.le_refl _))
    as (dr2 & kept & Hkept & ->).
  rewrite reverse_app. simpl reverse at 1. rewrite reverse_involutive.
  exists pre', (reverse kept). split; [|split; [done|]].
  - by repeat (rewrite ?string_app_assoc, ?append_cons, ?append_nil).
  - apply (endsSymbol_prefix _ (reverse dr2)). rewrite <- reverse_app.
    by rewrite <- Hkept, reverse_involutive.
Qed.

(** A quantified class takes the whole of a run that fits, when what
    follows the run is accepted after it. *)
Lemma rep_takes_all p k (w post : string) :
  forall min max acc prev r,
    allChars p w = true ->
    (min <= String.length w)%nat ->
    (forall n, max = Some n -> String.length w <= n)%nat ->
    match post with EmptyString => true | String c _ => negb (p c) end = true ->
    k (acc ++ w)%string (lastOf prev w, post) = Some r ->
    rep p min max k acc prev (w ++ post) = Some r.
Proof.
  induction w as [|x w IH]; intros min max acc prev r Hall Hmin Hmax Hpost Hk.
  - rewrite append_nil. rewrite string_app_nil_r in Hk. simpl in Hk, Hmin.
    assert (min = 0)%nat as -> by lia.
    destruct post as [|c post]; simpl; [done|].
    apply negb_true_iff in Hpost. by rewrite Hpost.
  - rewrite append_cons. cbn [rep]. simpl in Hall.
    apply andb_true_iff in Hall as [Hx Hall]. rewrite Hx.
    assert (bool_decide (max = Some 0%nat) = false) as ->.
    { apply bool_decide_eq_false. intros ->. specialize (Hmax 0%nat eq_refl).
      simpl in Hmax. lia. }
    simpl negb. cbv iota. simpl andb. cbv iota.
    rewrite (IH (Nat.pred min) (Nat.pred <$> max)
               (acc ++ String x EmptyString)%string (Some x) r); [done|done|..].
    + simpl in Hmin. lia.
    + intros n Hn. destruct max as [m|]; [|done]. simpl in Hn.
      injection Hn as <-. specialize (Hmax m eq_refl). simpl in Hmax. lia.
    + done.
    + rewrite string_app_assoc, append_cons, append_nil. done.
Qed.

Lemma lastOf_word prev w :
  allChars isAlnum w = true -> w <> EmptyString ->
  exists c, lastOf prev w = Some c /\ isWordChar c = true.
Proof.
  revert prev. induction w as [|x w IH]; intros prev Hall Hne; [done|].
  simpl in Hall. apply andb_true_iff in Hall as [Hx Hall]. simpl.
  destruct w as [|y w].
  - exists x. split; [done|]. unfold isWordChar. by rewrite Hx.
  - by apply IH.
Qed.

Lemma symbolThenBoundary_takes prev w post :
  isSymbolToken w = true -> endsSymbol post = true ->
  symbolThenBoundary (prev, (w ++ post)%string) = Some w.
Proof.
  intros Hw Hpost. unfold isSymbolToken in Hw.
  apply andb_true_iff in Hw as [Hlen Hall]. apply andb_true_iff in Hlen as [H2 H15].
  apply Nat.leb_le in H2, H15.
  unfold symbolThenBoundary. cbn [fst snd].
  apply rep_takes_all; [done|done|by intros n [= <-]| |].
  - destruct post as [|c post]; [done|]. simpl in Hpost |- *.
    apply negb_true_iff in Hpost. apply negb_true_iff.
    unfold isWordChar in Hpost. by apply orb_false_iff in Hpost as [? _].
  - rewrite append_nil. unfold wordBoundary. cbn [fst snd].
    destruct (lastOf_word prev w Hall) as (c & -> & ->).
    { intros ->. simpl in H2. lia. }
    destruct post as [|c' post]; [done|]. simpl in Hpost.
    apply negb_true_iff in Hpost. by rewrite Hpost.
Qed.

Lemma search_reDollar pre : forall prev w post,
  noDollar pre = true -> isSymbolToken w = true -> endsSymbol post = true ->
  search reDollar prev (pre ++ String "$" (w ++ post)) = Some w.
Proof.
  induction pre as [|x pre IH]; intros prev w post Hpre Hw Hpost.
  - rewrite append_nil. cbn [search]. unfold reDollar at 1. cbn [lit snd].
    change (eqb_ci "$" "$") with true. cbv iota. cbn [lit].
    by rewrite symbolThenBoundary_takes.
  - rewrite append_cons. cbn [search]. unfold reDollar at 1. cbn [lit snd].
    unfold noDollar in Hpre. simpl in Hpre.
    apply andb_true_iff in Hpre as [Hx Hpre].
    rewrite eqb_ci_dollar. apply negb_true_iff in Hx. rewrite Hx. simpl.
    by apply IH.
Qed.

(** X28. An explicit [$SYMBOL] wins.  When the first dollar sign of the
    text is followed by 2 to 15 letters and digits [w], and these by the end
    of the text or by a character that is no letter, digit or underscore,
    the result is [w] in capitals, whatever else the text says before and
    after. *)
Theorem extractSymbolish_dollar (pre w post : string) :
  noDollar pre = true -> isSymbolToken w = true -> endsSymbol post = true ->
  extractSymbolish (pre ++ String "$" (w ++ post)) = Some (toUpperCase w).
Proof.
  intros Hpre Hw Hpost.
  destruct (trim_around pre w post Hpre Hw Hpost) as (pre' & post' & E & Hpre' & Hpost').
  unfold extractSymbolish. rewrite E. unfold match_.
  by rewrite search_reDollar.
Qed.

End ParseDollar.

(** The hypotheses of X28 hold for a question that names the price of
    another word before the dollar sign. *)
Lemma extractSymbolish_dollar_witness :
  Parse.extractSymbolish (CM := JS.asciiCaseMapping)
    " price of gold or $Doge, please" = Some "DOGE"%string.
Proof.
  exact (extractSymbolish_dollar (CM := JS.asciiCaseMapping)
           " price of gold or " "Doge" ", please" eq_refl eq_refl eq_refl).
Defined.
